(** * refactor_doc.py: rewriting the Inherits field of generated Markdown

    A shallow embedding of [python_script/refactor_doc.py] and the
    properties of its behaviour.

    Python [str] values are lists of characters; a character is a code
    point below 256, written as an [ascii].  The parts of the Python
    library the script calls ([str] methods, [re], [os.path], files and
    [os.walk]) are modelled next to the script's own functions, after
    CPython 3.11 on POSIX. *)

From Stdlib Require Import List Ascii String Arith Lia Bool.
From stdpp Require Import gmap strings list fin_maps.

Local Open Scope list_scope.

Abbreviation text := (list ascii).

(** A string literal as a [text]. *)
Definition txt (s : string) : text := list_ascii_of_string s.

(** The line feed character, Python's ['\n']. *)
Definition nl : ascii := ascii_of_nat 10.

(** Exceptions the script can meet. *)
Inductive exn :=
| ValueError
| FileNotFoundError (p : text)
| PermissionError (p : text)
| UnicodeDecodeError
| UnicodeEncodeError
| OSError (p : text).

#[global] Instance exn_eq_dec : EqDecision exn.
Proof. solve_decision. Defined.

Inductive result (A : Type) :=
| Ok (a : A)
| Raise (e : exn).
Arguments Ok {A} a.
Arguments Raise {A} e.

Definition rmap {A B : Type} (f : A -> B) (r : result A) : result B :=
  match r with
  | Ok a => Ok (f a)
  | Raise e => Raise e
  end.

(** ** Python [str] methods *)
Module Str.

(** [c.isspace()] for a code point below 256:
    9-13, 28-31, 32, 0x85 and 0xA0. *)
Definition isspace (c : ascii) : bool :=
  let n := nat_of_ascii c in
  ((9 <=? n) && (n <=? 13)) || ((28 <=? n) && (n <=? 32))
  || (n =? 133) || (n =? 160).

(** [c.lower()] for a code point below 256: A-Z, and the accented
    capitals 0xC0-0xDE except the multiplication sign 0xD7. *)
Definition lower_char (c : ascii) : ascii :=
  let n := nat_of_ascii c in
  if ((65 <=? n) && (n <=? 90))
     || ((192 <=? n) && (n <=? 222) && negb (n =? 215))
  then ascii_of_nat (n + 32) else c.

Definition lower (s : text) : text := map lower_char s.

Fixpoint startswith (s p : text) {struct p} : bool :=
  match p, s with
  | [], _ => true
  | b :: p', a :: s' => Ascii.eqb a b && startswith s' p'
  | _ :: _, [] => false
  end.

Definition endswith (s p : text) : bool := startswith (rev s) (rev p).

Fixpoint lstrip_by (f : ascii -> bool) (s : text) : text :=
  match s with
  | a :: s' => if f a then lstrip_by f s' else s
  | [] => []
  end.

Definition rstrip_by (f : ascii -> bool) (s : text) : text :=
  rev (lstrip_by f (rev s)).

(** [s.strip()] *)
Definition strip (s : text) : text := rstrip_by isspace (lstrip_by isspace s).

(** [s.split(c)] for a one-character separator. *)
Fixpoint split (c : ascii) (s : text) : list text :=
  match s with
  | [] => [[]]
  | a :: s' =>
      if Ascii.eqb a c then [] :: split c s'
      else match split c s' with
           | w :: ws => (a :: w) :: ws
           | [] => [[a]]
           end
  end.

(** [sep.join(l)] *)
Fixpoint join (sep : text) (l : list text) : text :=
  match l with
  | [] => []
  | [w] => w
  | w :: ws => w ++ sep ++ join sep ws
  end.

(** A left-to-right scan for non-overlapping hits, shared by
    [str.replace] and [re.sub].  [hit s] is the length of the hit that
    starts at the head of [s], if there is one.  After a hit of length
    [S n] the scan resumes behind it ([skip] counts the characters of
    the hit still to pass); an empty hit is followed by one kept
    character, as [str.replace] does for an empty search string. *)
Inductive seg :=
| Keep (c : ascii)
| Hit (m : text).

Section Scan.
Variable hit : text -> option nat.

Fixpoint scan_from (skip : nat) (s : text) : list seg :=
  match s with
  | [] =>
      match skip, hit [] with
      | 0, Some _ => [Hit []]
      | _, _ => []
      end
  | c :: s' =>
      match skip with
      | S n => scan_from n s'
      | 0 =>
          match hit s with
          | Some (S n) => Hit (take (S n) s) :: scan_from n s'
          | Some 0 => Hit [] :: Keep c :: scan_from 0 s'
          | None => Keep c :: scan_from 0 s'
          end
      end
  end.

Definition scan (s : text) : list seg := scan_from 0 s.
End Scan.

(** Put a scanned text together again, each hit replaced by what the
    callback [f] returns for it; the first exception of [f] wins. *)
Fixpoint render (f : text -> result text) (l : list seg) : result text :=
  match l with
  | [] => Ok []
  | Keep c :: l' =>
      match render f l' with
      | Ok r => Ok (c :: r)
      | Raise e => Raise e
      end
  | Hit m :: l' =>
      match f m with
      | Ok m' =>
          match render f l' with
          | Ok r => Ok (m' ++ r)
          | Raise e => Raise e
          end
      | Raise e => Raise e
      end
  end.

(** The hits of a scanned text, in order. *)
Fixpoint hits (l : list seg) : list text :=
  match l with
  | [] => []
  | Keep _ :: l' => hits l'
  | Hit m :: l' => m :: hits l'
  end.

Definition hit_str (old : text) (s : text) : option nat :=
  if startswith s old then Some (length old) else None.

(** [s.replace(old, new)]: every non-overlapping occurrence of [old],
    from the left. *)
Definition replace (s old new : text) : text :=
  match render (fun _ => Ok new) (scan (hit_str old) s) with
  | Ok r => r
  | Raise _ => s
  end.

(** [s.find(old)]: where [old] first occurs in [s]; [None] is
    Python's [-1]. *)
Fixpoint find (s old : text) : option nat :=
  if startswith s old then Some 0
  else match s with
       | [] => None
       | _ :: s' =>
           match find s' old with
           | Some i => Some (S i)
           | None => None
           end
       end.

(** The pieces [ps], each followed by [sep], then [q]: a text cut at
    some occurrences of [sep]. *)
Fixpoint splice (sep : text) (ps : list text) (q : text) : text :=
  match ps with
  | [] => q
  | p :: ps' => p ++ sep ++ splice sep ps' q
  end.

(** [s.replace(old, new, 1)]: the first occurrence only.  The script
    does not call it; it is what a first-occurrence splice would be. *)
Fixpoint replace_first (s old new : text) : text :=
  if startswith s old then new ++ drop (length old) s
  else match s with
       | [] => []
       | c :: s' => c :: replace_first s' old new
       end.

End Str.

(** ** Python [re]: the fragment the script's two patterns use *)
Module Re.

(** Character sets. *)
Inductive cls :=
| CSpace                  (* \s *)
| CNotSpace               (* \S *)
| CChar (c : ascii)       (* a literal character *)
| CUnion (a b : cls)      (* [ab] *)
| CNot (a : cls).         (* [^a] *)

Fixpoint cls_mem (k : cls) (c : ascii) : bool :=
  match k with
  | CSpace => Str.isspace c
  | CNotSpace => negb (Str.isspace c)
  | CChar d => Ascii.eqb c d
  | CUnion a b => cls_mem a c || cls_mem b c
  | CNot a => negb (cls_mem a c)
  end.

(** Patterns: literals, a repeated character set (greedy or lazy), a
    capturing group, concatenation. *)
Inductive regex :=
| REps
| RLit (s : text)
| RStar (greedy : bool) (k : cls)
| RPlus (greedy : bool) (k : cls)
| RGroup (r : regex)
| RCat (r1 r2 : regex).

(** A backtracking matcher in continuation-passing style, as the
    [sre] engine explores a pattern: [k] is what remains to be matched
    after the current piece, and a piece offers its alternatives to
    [k] in the engine's order of preference. *)
Section Matcher.
Context {R : Type}.

(** [k*] greedy: the longest run first, then shorter ones. *)
Fixpoint star_greedy (c : cls) (s : text) (k : text -> option R) : option R :=
  match s with
  | a :: s' =>
      if cls_mem c a then
        match star_greedy c s' k with
        | Some r => Some r
        | None => k s
        end
      else k s
  | [] => k s
  end.

(** [k*?] lazy: the shortest run first, then longer ones. *)
Fixpoint star_lazy (c : cls) (s : text) (k : text -> option R) : option R :=
  match k s with
  | Some r => Some r
  | None =>
      match s with
      | a :: s' => if cls_mem c a then star_lazy c s' k else None
      | [] => None
      end
  end.

Definition star (greedy : bool) := if greedy then star_greedy else star_lazy.

(** [g] holds the groups captured so far, in the order they close. *)
Fixpoint run (r : regex) (s : text) (g : list text)
         (k : text -> list text -> option R) : option R :=
  match r with
  | REps => k s g
  | RLit l => if Str.startswith s l then k (drop (length l) s) g else None
  | RStar gr c => star gr c s (fun s' => k s' g)
  | RPlus gr c =>
      match s with
      | a :: s' => if cls_mem c a then star gr c s' (fun s'' => k s'' g) else None
      | [] => None
      end
  | RGroup r' =>
      run r' s g (fun s' g' => k s' (g' ++ [take (length s - length s') s]))
  | RCat r1 r2 => run r1 s g (fun s' g' => run r2 s' g' k)
  end.
End Matcher.

(** A match object: [group(0)] and the captured groups. *)
Record mobj := { group0 : text; groups : list text }.

(** [m.group(n)] *)
Definition group (m : mobj) (n : nat) : option text :=
  match n with
  | 0 => Some (group0 m)
  | S i => groups m !! i
  end.

(** [re.match(r, s)]: a match that starts at the head of [s]. *)
Definition match_ (r : regex) (s : text) : option mobj :=
  run r s [] (fun s' g =>
    Some {| group0 := take (length s - length s') s; groups := g |}).

(** [re.search(r, s)]: the leftmost match. *)
Fixpoint search (r : regex) (s : text) : option mobj :=
  match match_ r s with
  | Some m => Some m
  | None =>
      match s with
      | [] => None
      | _ :: s' => search r s'
      end
  end.

Definition hit_re (r : regex) (s : text) : option nat :=
  match match_ r s with
  | Some m => Some (length (group0 m))
  | None => None
  end.

(** [re.sub(r, repl, s)] with a callback: [repl] receives [group(0)]
    of each match. *)
Definition sub (r : regex) (repl : text -> result text) (s : text) : result text :=
  Str.render repl (Str.scan (hit_re r) s).

(** The texts the callback of [sub] is called on, in order. *)
Definition sub_matches (r : regex) (s : text) : list text :=
  Str.hits (Str.scan (hit_re r) s).

End Re.

(** ** [os.path] (posixpath) *)
Module OsPath.

Definition sep : text := txt "/".
Definition curdir : text := txt ".".
Definition pardir : text := txt "..".
Definition slash : ascii := "/"%char.

Definition isabs (p : text) : bool := Str.startswith p sep.

(** [os.path.join(a, b)] *)
Definition join (a b : text) : text :=
  if Str.startswith b sep then b
  else if (match a with [] => true | _ => false end) || Str.endswith a sep
       then a ++ b
       else a ++ sep ++ b.

(** [os.path.join(a, *p)] *)
Definition join_all (a : text) (p : list text) : text := fold_left join p a.

(** [os.path.basename(p)]: what follows the last slash. *)
Definition basename (p : text) : text :=
  match rev (Str.split slash p) with
  | w :: _ => w
  | [] => []
  end.

Definition text_eqb (a b : text) : bool := bool_decide (a = b).

(** One turn of the loop of [normpath] over the components. *)
Definition norm_step (initial_slashes : nat) (new_comps : list text)
           (comp : text) : list text :=
  if text_eqb comp [] || text_eqb comp curdir then new_comps
  else if negb (text_eqb comp pardir)
          || ((initial_slashes =? 0) && (match new_comps with [] => true | _ => false end))
          || (match last new_comps with
              | Some c => text_eqb c pardir
              | None => false
              end)
       then new_comps ++ [comp]
       else removelast new_comps.

(** The local [initial_slashes] of [normpath]: POSIX keeps exactly
    two leading slashes apart from one. *)
Definition initial_slashes (path : text) : nat :=
  if Str.startswith path sep then
    if Str.startswith path (sep ++ sep)
       && negb (Str.startswith path (sep ++ sep ++ sep))
    then 2 else 1
  else 0.

(** [os.path.normpath(path)] *)
Definition normpath (path : text) : text :=
  match path with
  | [] => curdir
  | _ =>
      let comps := Str.split slash path in
      let new_comps := fold_left (norm_step (initial_slashes path)) comps [] in
      let path' := repeat slash (initial_slashes path) ++ Str.join sep new_comps in
      match path' with
      | [] => curdir
      | _ => path'
      end
  end.

(** [os.path.abspath(path)], [cwd] being what [os.getcwd()] returns. *)
Definition abspath (cwd path : text) : text :=
  normpath (if isabs path then path else join cwd path).

(** [os.path.commonprefix] of two lists: their longest common prefix. *)
Fixpoint commonprefix (l1 l2 : list text) : list text :=
  match l1, l2 with
  | a :: l1', b :: l2' => if text_eqb a b then a :: commonprefix l1' l2' else []
  | _, _ => []
  end.

Definition nonempty (x : text) : bool :=
  match x with [] => false | _ => true end.

(** [[x for x in p.split(sep) if x]] *)
Definition components (p : text) : list text :=
  filter (fun x => nonempty x = true) (Str.split slash p).

(** The local [rel_list] of [relpath]. *)
Definition rel_list (start_list path_list : list text) : list text :=
  let i := length (commonprefix start_list path_list) in
  repeat pardir (length start_list - i) ++ drop i path_list.

(** [os.path.relpath(path, start)]; an empty [path] is a [ValueError]. *)
Definition relpath (cwd path start : text) : result text :=
  match path with
  | [] => Raise ValueError
  | _ =>
      let start_list := components (abspath cwd start) in
      let path_list := components (abspath cwd path) in
      match rel_list start_list path_list with
      | [] => Ok curdir
      | a :: p => Ok (join_all a p)
      end
  end.

(** A path component as a directory entry has it: not empty, neither
    [.] nor [..], and free of slashes. *)
Definition plain (c : text) : Prop :=
  c <> [] /\ c <> curdir /\ c <> pardir /\ slash ∉ c.

#[global] Instance plain_dec (c : text) : Decision (plain c).
Proof. unfold plain. apply _. Defined.

End OsPath.

Import Str Re OsPath.

(** ** Files, the console and [os.walk] *)

(** A regular file: its text and whether the process may read and
    write it.  The text is what [f.read()] returns and what [f.write]
    is given: the bytes of the file and the translation of line ends in
    text mode are left out. *)
Record file := { contents : text; readable : bool; writable : bool }.

(** What the script does to the outside, in order: the operations that
    were carried out.  A write that broke off leaves no event. *)
Inductive event :=
| EvWrite (p : text) (data : text)
| EvRemove (p : text)
| EvPrint (line : text).

#[global] Instance event_eq_dec : EqDecision event.
Proof. solve_decision. Defined.

(** What the system refuses for reasons the files themselves do not
    show, by the path text or the line the script passes:
    - [open(p, 'r')] and [f.read()]: bytes that are no text in the
      encoding of the locale ([UnicodeDecodeError]), a directory on the
      way that may not be searched, an input error;
    - [open(p, 'w')], [f.write] and the close: with [None] the file
      could not be opened and is as it was, with [Some rest] the file
      was opened, which empties it, and the write broke off with [rest]
      in the file (a full disk);
    - [os.remove(p)]: a directory that may not be written
      ([PermissionError]), a read-only file system;
    - [print]: a closed or full standard output, a character the
      encoding of the output does not have. *)
Record refusals := {
  read_fault : text -> option exn;
  write_fault : text -> option (exn * option text);
  remove_fault : text -> option exn;
  print_fault : text -> option exn }.

(** The file system and the events so far.

    Several path texts can lead to one file.  [names] gives, for a path
    text that leads somewhere, the directory entries its resolution
    goes through: first the entry the path itself denotes, then, as
    long as the entry is a symbolic link, the entry the link points to;
    the last one is the entry of a regular file.  Two spellings of one
    path (a doubled slash, the absolute path) have the same entries;
    two hard links have different entries with the same inode.
    [entries] holds the entries that are there, each with its inode;
    [inodes] holds the files.  The script makes and removes no
    directory, so the entries of a path text do not change; what
    changes is which of them are there.  Nothing but the script changes
    the files while it runs. *)
Record world := {
  names : gmap text (list nat);
  entries : gmap nat nat;
  inodes : gmap nat file;
  faults : refusals;
  trace : list event }.

(** The directory entries of a path text. *)
Definition chain (w : world) (p : text) : list nat :=
  default [] (names w !! p).

Definition live (w : world) (e : nat) : bool :=
  bool_decide (is_Some (entries w !! e)).

(** The inode a list of entries leads to: every entry has to be there,
    and the last one gives the inode. *)
Definition target (w : world) (c : list nat) : option nat :=
  if forallb (live w) c then last c ≫= (fun e => entries w !! e) else None.

(** The inode [open(p)] reaches: [open] follows symbolic links. *)
Definition inode_of (w : world) (p : text) : option nat :=
  target w (chain w p).

(** The files as the path texts show them. *)
Definition files (w : world) : gmap text file :=
  omap (fun c => target w c ≫= (fun i => inodes w !! i)) (names w).

(** More events. *)
Definition logs (w : world) (evs : list event) : world :=
  {| names := names w; entries := entries w; inodes := inodes w;
     faults := faults w; trace := trace w ++ evs |}.

(** One more event. *)
Definition log (w : world) (ev : event) : world :=
  {| names := names w; entries := entries w; inodes := inodes w;
     faults := faults w; trace := trace w ++ [ev] |}.

(** New contents for an inode. *)
Definition store (w : world) (i : nat) (f : file) : world :=
  {| names := names w; entries := entries w; inodes := <[i := f]> (inodes w);
     faults := faults w; trace := trace w |}.

(** A directory entry taken away. *)
Definition unlink (w : world) (e : nat) : world :=
  {| names := names w; entries := delete e (entries w); inodes := inodes w;
     faults := faults w; trace := trace w |}.

(** What [os.walk] finds below a directory: the names of its entries
    that are no directories (regular files, and symbolic links to them)
    and its subdirectories, in the order [scandir] lists them.  The
    script creates and removes no directory, and [os.walk] lists a
    directory before it yields it, so the walk follows the tree as it
    was when it started.

    [Unwalked why] is a directory [os.walk] yields nothing for.  With
    [Some e] its listing raises [e]: [os.walk] is called without
    [onerror], catches the exception and goes on.  With [None] it is a
    symbolic link to a directory below the top: [os.walk] is called
    without [followlinks], names it among the subdirectories and does
    not enter it. *)
Inductive dirtree :=
| Dir (fnames : list text) (subdirs : list (text * dirtree))
| Unwalked (why : option exn).

(** Computations on the world that may raise: the world is kept when an
    exception leaves. *)
Definition io (A : Type) : Type := world -> result A * world.

Definition ret {A} (a : A) : io A := fun w => (Ok a, w).

Definition raise {A} (e : exn) : io A := fun w => (Raise e, w).

Definition bind {A B} (m : io A) (f : A -> io B) : io B :=
  fun w =>
    match m w with
    | (Ok a, w') => f a w'
    | (Raise e, w') => (Raise e, w')
    end.

Notation "'let*' x := m 'in' k" := (bind m (fun x => k))
  (at level 10, x name, m at level 200, k at level 200).
Notation "m >> k" := (bind m (fun _ => k))
  (at level 90, right associativity).

(** A pure computation that may raise, run inside [io]. *)
Definition lift {A} (r : result A) : io A :=
  match r with
  | Ok a => ret a
  | Raise e => raise e
  end.

(** [for x in l: body(x)] *)
Fixpoint for_ {A} (l : list A) (body : A -> io unit) : io unit :=
  match l with
  | [] => ret tt
  | x :: l' => body x >> for_ l' body
  end.

Definition emit (e : event) : io unit :=
  fun w => (Ok tt, log w e).

(** [print(line)] *)
Definition print (line : text) : io unit :=
  fun w =>
    match print_fault (faults w) line with
    | Some e => (Raise e, w)
    | None => emit (EvPrint line) w
    end.

(** [with open(p, 'r') as f: f.read()] *)
Definition read_file (p : text) : io text :=
  fun w =>
    match read_fault (faults w) p with
    | Some e => (Raise e, w)
    | None =>
        match files w !! p with
        | None => (Raise (FileNotFoundError p), w)
        | Some f =>
            if readable f then (Ok (contents f), w)
            else (Raise (PermissionError p), w)
        end
    end.

(** The first entry of a list that is not there. *)
Definition missing_entry (w : world) (c : list nat) : option nat :=
  List.find (fun e => negb (live w e)) c.

(** A list of entries up to [e]. *)
Fixpoint cut_after (e : nat) (c : list nat) : list nat :=
  match c with
  | [] => []
  | x :: c' => if Nat.eqb x e then [x] else x :: cut_after e c'
  end.

(** [open(p, 'w')] where [p] leads to no file: a regular file is made
    at the first entry that is missing, which ends the entries of every
    path that goes through it.  A path text with no entries lies in no
    directory. *)
Definition create_file (p data : text) : io unit :=
  fun w =>
    match missing_entry w (chain w p) with
    | None => (Raise (FileNotFoundError p), w)
    | Some e =>
        let i := fresh (dom (inodes w)) in
        let made (c : text) :=
          {| names := cut_after e <$> names w;
             entries := <[e := i]> (entries w);
             inodes := <[i := {| contents := c; readable := true; writable := true |}]>
                         (inodes w);
             faults := faults w;
             trace := trace w |} in
        match write_fault (faults w) p with
        | None => (Ok tt, log (made data) (EvWrite p data))
        | Some (err, None) => (Raise err, w)
        | Some (err, Some rest) => (Raise err, made rest)
        end
    end.

(** [with open(p, 'w') as f: f.write(data)]: the file [p] leads to is
    replaced if it may be written, and made if [p] leads to none. *)
Definition write_file (p data : text) : io unit :=
  fun w =>
    match inode_of w p with
    | Some i =>
        match inodes w !! i with
        | Some f =>
            if writable f then
              match write_fault (faults w) p with
              | None =>
                  (Ok tt,
                   log (store w i {| contents := data; readable := readable f;
                                     writable := true |})
                       (EvWrite p data))
              | Some (err, None) => (Raise err, w)
              | Some (err, Some rest) =>
                  (Raise err,
                   store w i {| contents := rest; readable := readable f;
                                writable := true |})
              end
            else (Raise (PermissionError p), w)
        | None => (Raise (FileNotFoundError p), w)
        end
    | None => create_file p data w
    end.

(** [os.remove(p)]: the entry [p] itself denotes is taken away, a
    symbolic link and not what it points to. *)
Definition os_remove (p : text) : io unit :=
  fun w =>
    match remove_fault (faults w) p with
    | Some e => (Raise e, w)
    | None =>
        match chain w p with
        | e :: _ =>
            if live w e then (Ok tt, log (unlink w e) (EvRemove p))
            else (Raise (FileNotFoundError p), w)
        | [] => (Raise (FileNotFoundError p), w)
        end
    end.

(** [os.walk(top)], top-down: each directory with the names of its
    subdirectories and of its files, then its subdirectories in turn. *)
Fixpoint os_walk (top : text) (t : dirtree) : list (text * list text * list text) :=
  match t with
  | Dir fnames subdirs =>
      (top, map fst subdirs, fnames)
      :: flat_map (fun d => os_walk (OsPath.join top (fst d)) (snd d)) subdirs
  | Unwalked _ => []
  end.

(** ** The script *)

(** The label of the field, the literal head of [inherits_re]. *)
Definition marker : text := txt "**Inherits:**".

(** [r'\*\*Inherits:\*\*\s*([\s\S]*?)\n'] *)
Definition inherits_re : regex :=
  RCat (RLit marker)
    (RCat (RStar true CSpace)
       (RCat (RGroup (RStar false (CUnion CSpace CNotSpace)))
          (RLit [nl]))).

Definition open_paren : ascii := "("%char.
Definition close_paren : ascii := ")"%char.

(** [r'\([^)]+\)'] *)
Definition path_re : regex :=
  RCat (RLit [open_paren])
    (RCat (RPlus true (CNot (CChar close_paren)))
       (RLit [close_paren])).

(** Every [(] of [s] has a [)] somewhere behind it in [s]: no match of
    [path_re] that starts in [s] needs a character that follows [s]. *)
Fixpoint parens_closed (s : text) : bool :=
  match s with
  | [] => true
  | c :: s' =>
      (if Ascii.eqb c open_paren
       then existsb (fun a => Ascii.eqb a close_paren) s'
       else true)
      && parens_closed s'
  end.

Definition parse_inherits (md_content : text) : option text :=
  match Re.search inherits_re md_content with
  | Some inherits_match =>
      match Re.group inherits_match 1 with
      | Some g => Some (Str.strip g)
      | None => None
      end
  | None => None
  end.

Definition default_path : text := txt "docs/docs/src".
Definition start : text := txt "docs/docs/src/src/X/X/".

(** [match.group(0)[1:-1]] *)
Definition inner (m : text) : text := removelast (drop 1 m).

Section Script.
(** The working directory of the process, which [os.path.relpath]
    reads through [os.getcwd()]. *)
Variable cwd : text.

(** The path [replace_path] computes for a match. *)
Definition relative_path (m : text) : result text :=
  OsPath.relpath cwd (default_path ++ inner m) start.

(** The callback of [re.sub]; what it prints is [replace_path_output]. *)
Definition replace_path (m : text) : result text :=
  match relative_path m with
  | Ok relative_path => Ok ([open_paren] ++ relative_path ++ [close_paren])
  | Raise e => Raise e
  end.

Definition replace_path_output (m : text) : list text :=
  match relative_path m with
  | Ok relative_path => [txt "Original Path: " ++ relative_path]
  | Raise _ => []
  end.

Definition replace_paths_with_empty_brackets (line : text) : result text :=
  Re.sub path_re replace_path line.

(** The lines [replace_paths_with_empty_brackets] prints. *)
Definition replace_paths_output (line : text) : list text :=
  flat_map replace_path_output (Re.sub_matches path_re line).

(** Lines 29 to 34 of [process_md_file]: the new text of a file, from
    its text. *)
Definition modify_inherits (md_content : text) : result text :=
  match parse_inherits md_content with
  | Some ((_ :: _) as inherits) =>
      match replace_paths_with_empty_brackets inherits with
      | Ok modified_inherits => Ok (Str.replace md_content inherits modified_inherits)
      | Raise e => Raise e
      end
  | _ => Ok md_content
  end.

(** What lines 29 to 34 print. *)
Definition modify_inherits_output (md_content : text) : list text :=
  match parse_inherits md_content with
  | Some ((_ :: _) as inherits) => replace_paths_output inherits
  | _ => []
  end.

Definition delete_names : list text := [txt "readme.md"; txt "summary.md"].

(** [file_name.lower() in ['readme.md', 'summary.md']] *)
Definition deleted_name (file_path : text) : bool :=
  bool_decide (Str.lower (OsPath.basename file_path) ∈ delete_names).

Definition process_md_file (file_path : text) : io unit :=
  let* md_content := read_file file_path in
  for_ (modify_inherits_output md_content) print >>
  let* md_content' := lift (modify_inherits md_content) in
  write_file file_path md_content' >>
  print (txt "File modified: " ++ file_path) >>
  if deleted_name file_path then
    os_remove file_path >>
    print (txt "Deleted file: " ++ file_path)
  else ret tt.

Definition process_all_md_files (directory : text) (t : dirtree) : io unit :=
  for_ (os_walk directory t) (fun '(root, dirs, fnames) =>
    for_ fnames (fun file =>
      if Str.endswith file (txt ".md")
      then process_md_file (OsPath.join root file)
      else ret tt)).

End Script.

(** The paths [process_all_md_files] hands to [process_md_file], in
    order. *)
Definition md_paths (directory : text) (t : dirtree) : list text :=
  flat_map (fun '(root, _, fnames) =>
              map (OsPath.join root)
                  (filter (fun file => Str.endswith file (txt ".md") = true) fnames))
           (os_walk directory t).


(** ** Paths that do not meet *)

(** The inode behind the last entry of a path text, whether or not the
    entries before it are there. *)
Definition ino (w : world) (p : text) : option nat :=
  last (chain w p) ≫= (fun e => entries w !! e).

(** What is done to the file at [p] cannot show at [q]: [q] does not
    lead to the inode [p] leads to, and does not go through the entry
    [p] denotes. *)
Definition apart (w : world) (p q : text) : bool :=
  match ino w p with
  | Some i => bool_decide (ino w q <> Some i)
  | None => true
  end
  && match chain w p with
     | e :: _ => bool_decide (e ∉ chain w q)
     | [] => true
     end.


(** [w'] comes after [w]: the same path texts and refusals, and no
    entry that was not there. *)
Definition later (w w' : world) : Prop :=
  names w' = names w /\ faults w' = faults w /\ entries w' ⊆ entries w.

(** The file an event writes or removes. *)
Definition event_path (e : event) : option text :=
  match e with
  | EvWrite p _ => Some p
  | EvRemove p => Some p
  | EvPrint _ => None
  end.

(** What a call on [p] can make of the world, with the events it adds:
    lines are printed, the file [p] leads to gets new contents, with an
    event when the write was completed, and the entry of [p] is taken
    away. *)
Inductive reach (p : text) (w : world) : list event -> world -> Prop :=
| reach_refl : reach p w [] w
| reach_print evs w1 line :
    reach p w evs w1 ->
    reach p w (evs ++ [EvPrint line]) (log w1 (EvPrint line))
| reach_write evs w1 i f data :
    reach p w evs w1 ->
    inode_of w1 p = Some i -> inodes w1 !! i = Some f ->
    reach p w (evs ++ [EvWrite p data])
      (log (store w1 i {| contents := data; readable := readable f; writable := true |})
           (EvWrite p data))
| reach_torn evs w1 i f rest :
    reach p w evs w1 ->
    inode_of w1 p = Some i -> inodes w1 !! i = Some f ->
    reach p w evs
      (store w1 i {| contents := rest; readable := readable f; writable := true |})
| reach_remove evs w1 e c :
    reach p w evs w1 ->
    chain w1 p = e :: c ->
    reach p w (evs ++ [EvRemove p]) (log (unlink w1 e) (EvRemove p)).

(** The events of a call of [process_md_file] that nothing stops, for a
    file that holds [c] and is rewritten to [c']. *)
Definition full_run (cwd p c c' : text) : list event :=
  map EvPrint (modify_inherits_output cwd c)
  ++ [EvWrite p c'; EvPrint (txt "File modified: " ++ p)]
  ++ (if deleted_name p
      then [EvRemove p; EvPrint (txt "Deleted file: " ++ p)]
      else []).

(** Nothing is refused to [process_md_file] on [p], whose file holds
    [c]. *)
Definition unhindered (cwd : text) (w : world) (p c : text) : bool :=
  bool_decide (read_fault (faults w) p = None)
  && bool_decide (write_fault (faults w) p = None)
  && forallb (fun line => bool_decide (print_fault (faults w) line = None))
       (modify_inherits_output cwd c
        ++ [txt "File modified: " ++ p]
        ++ (if deleted_name p then [txt "Deleted file: " ++ p] else []))
  && (if deleted_name p then bool_decide (remove_fault (faults w) p = None) else true).

(** Whether [process_md_file] can do all it does at [p]: read and write
    the file, print its lines and, for a name to delete, remove the
    file. *)
Definition can_rewrite (cwd : text) (w : world) (p : text) : bool :=
  match files w !! p with
  | Some f => readable f && writable f && unhindered cwd w p (contents f)
  | None => false
  end.

(** ** A small tree of files to run the script on *)

Definition plain_file (c : text) : file :=
  {| contents := c; readable := true; writable := true |}.

Definition no_faults : refusals :=
  {| read_fault := fun _ => None;
     write_fault := fun _ => None;
     remove_fault := fun _ => None;
     print_fault := fun _ => None |}.

(** The world in which each path of a list is the one name of a file of
    its own, and nothing is refused. *)
Definition world_of (l : list (text * file)) : world :=
  {| names := list_to_map (imap (fun i pf => (fst pf, [i])) l);
     entries := list_to_map (imap (fun i _ => (i, i)) l);
     inodes := list_to_map (imap (fun i pf => (i, snd pf)) l);
     faults := no_faults;
     trace := [] |}.

Definition demo_tree : dirtree :=
  Dir [txt "notes.md"; txt "README.md"; txt "summary.MD"]
      [(txt "sub", Dir [txt "Summary.md"; txt "child.md"] [])].

Definition demo_files : list (text * file) :=
  [ (txt "docs/notes.md", plain_file (txt "hello" ++ [nl]));
    (txt "docs/README.md", plain_file (txt "index" ++ [nl]));
    (txt "docs/summary.MD", plain_file (txt "x" ++ [nl]));
    (txt "docs/sub/Summary.md", plain_file (txt "y" ++ [nl]));
    (txt "docs/sub/child.md",
     plain_file (txt "**Inherits:**" ++ [nl] ++ txt "[B](/src/X/Y/b.md)" ++ [nl])) ].

Definition demo_world : world := world_of demo_files.

(** The same files, [docs/notes.md] read-only. *)
Definition demo_world_readonly : world :=
  world_of
    (<[0%nat := (txt "docs/notes.md",
                 {| contents := txt "hello" ++ [nl]; readable := true; writable := false |})]>
       demo_files).

(** The same files, [docs/README.md] unreadable. *)
Definition demo_world_unreadable : world :=
  world_of
    (<[1%nat := (txt "docs/README.md",
                 {| contents := txt "index" ++ [nl]; readable := false; writable := true |})]>
       demo_files).

(** The same files in a directory that may not be written: no file can
    be removed. *)
Definition demo_world_sealed : world :=
  {| names := names demo_world; entries := entries demo_world;
     inodes := inodes demo_world;
     faults := {| read_fault := fun _ => None;
                  write_fault := fun _ => None;
                  remove_fault := fun p => Some (PermissionError p);
                  print_fault := fun _ => None |};
     trace := [] |}.

(** The same files, [docs/sub/Summary.md] holding bytes that are no text
    in the encoding of the locale. *)
Definition demo_world_garbled : world :=
  {| names := names demo_world; entries := entries demo_world;
     inodes := inodes demo_world;
     faults := {| read_fault := fun p => if decide (p = txt "docs/sub/Summary.md")
                                         then Some UnicodeDecodeError else None;
                  write_fault := fun _ => None;
                  remove_fault := fun _ => None;
                  print_fault := fun _ => None |};
     trace := [] |}.

(** The same files with more names: [docs//notes.md] spells
    [docs/notes.md] another way, [docs/sub/copy.md] is a hard link to
    the file of [docs/sub/child.md], and [docs/sub/link.md] is a
    symbolic link to [docs/README.md]. *)
Definition demo_world_links : world :=
  {| names := <[txt "docs//notes.md" := [0%nat]]>
                (<[txt "docs/sub/copy.md" := [5%nat]]>
                   (<[txt "docs/sub/link.md" := [6%nat; 1%nat]]> (names demo_world)));
     entries := <[5%nat := 4%nat]> (<[6%nat := 6%nat]> (entries demo_world));
     inodes := inodes demo_world;
     faults := no_faults;
     trace := [] |}.

Definition demo_cwd : text := txt "/home/dev/bob/python_script".

(** ** The entry point *)

Definition directory_path : text := txt "../docs/docs/contracts/src".

(** The block under [if __name__ == "__main__"]; [t] is what [os.walk]
    finds below [directory_path]. *)
Definition main (cwd : text) (t : dirtree) : io unit :=
  process_all_md_files cwd directory_path t >>
  print (txt "All Markdown files in the directory processed.").

(** The names of a tree are names of directory entries: not empty and
    free of slashes. *)
Definition name_ok (n : text) : bool :=
  OsPath.nonempty n && negb (bool_decide (slash ∈ n)).

Fixpoint names_ok (t : dirtree) : bool :=
  match t with
  | Dir fnames subdirs =>
      forallb name_ok fnames
      && forallb (fun d => name_ok (fst d) && names_ok (snd d)) subdirs
  | Unwalked _ => true
  end.



(** The files of [demo_files] below [directory_path]. *)
Definition demo_main_world : world :=
  world_of (map (fun pf => (directory_path ++ drop 4 (fst pf), snd pf)) demo_files).

(** * Properties *)

(** ** Facts about the [str] model *)
Section StrFacts.

Lemma eqb_false_of_ne (a b : ascii) : a <> b -> Ascii.eqb a b = false.
Proof. intros H. apply Ascii.eqb_neq. exact H. Qed.

Lemma startswith_app (p r : text) : Str.startswith (p ++ r) p = true.
Proof.
  induction p as [|b p IH]; simpl; [reflexivity|].
  rewrite Ascii.eqb_refl. exact IH.
Qed.

Lemma startswith_inv (s p : text) :
  Str.startswith s p = true -> s = p ++ drop (length p) s.
Proof.
  revert s. induction p as [|b p IH]; intros s H; simpl in *.
  - reflexivity.
  - destruct s as [|a s]; [discriminate|].
    apply andb_true_iff in H as [Hab H].
    apply Ascii.eqb_eq in Hab. subst a. simpl. f_equal. apply IH, H.
Qed.

(** Whether [s] starts with [p] is decided by the first [length p]
    characters of [s]. *)
Lemma startswith_app_long (s r p : text) :
  length p <= length s -> Str.startswith (s ++ r) p = Str.startswith s p.
Proof.
  revert s. induction p as [|b p IH]; intros s Hlen; simpl.
  - destruct s; reflexivity.
  - destruct s as [|a s]; simpl in *; [lia|].
    rewrite IH by lia. reflexivity.
Qed.

Lemma find_None_no_occurrence (s old : text) :
  Str.find s old = None <-> (forall a b, s <> a ++ old ++ b).
Proof.
  split.
  - revert old. induction s as [|c s IH]; intros old H a b Heq.
    + simpl in H. destruct (Str.startswith [] old) eqn:E; [discriminate|].
      destruct a; [|discriminate]. destruct old; [discriminate|discriminate].
    + simpl in H. destruct (Str.startswith (c :: s) old) eqn:E; [discriminate|].
      destruct (Str.find s old) eqn:F; [discriminate|].
      destruct a as [|c' a].
      * simpl in Heq. rewrite Heq, startswith_app in E. discriminate.
      * injection Heq as -> Heq. exact (IH old F a b Heq).
  - intros H. induction s as [|c s IH]; simpl.
    + destruct (Str.startswith [] old) eqn:E; [|reflexivity].
      exfalso. apply (H [] []). simpl. apply startswith_inv in E.
      rewrite drop_nil in E. exact E.
    + destruct (Str.startswith (c :: s) old) eqn:E.
      * exfalso. apply startswith_inv in E. apply (H [] (drop (length old) (c :: s))).
        exact E.
      * rewrite IH; [reflexivity|].
        intros a b Heq. apply (H (c :: a) b). simpl. f_equal. exact Heq.
Qed.

Section ScanFacts.
Variable hit : text -> option nat.

(** Passing over a hit: the scan resumes right behind it. *)
Lemma scan_from_skip (m r : text) :
  Str.scan_from hit (length m) (m ++ r) = Str.scan_from hit 0 r.
Proof. induction m as [|c m IH]; simpl; [reflexivity|exact IH]. Qed.

Lemma scan_hit (m r : text) :
  m <> [] -> hit (m ++ r) = Some (length m) ->
  Str.scan hit (m ++ r) = Str.Hit m :: Str.scan hit r.
Proof.
  intros Hm Hhit. destruct m as [|c m]; [congruence|].
  unfold Str.scan. simpl in *. rewrite Hhit.
  rewrite take_app_length, scan_from_skip. reflexivity.
Qed.

Lemma scan_miss (c : ascii) (r : text) :
  hit (c :: r) = None ->
  Str.scan hit (c :: r) = Str.Keep c :: Str.scan hit r.
Proof. intros H. unfold Str.scan. simpl. rewrite H. reflexivity. Qed.
End ScanFacts.

Lemma render_keep (f : text -> result text) (c : ascii) (l : list Str.seg) :
  Str.render f (Str.Keep c :: l) = rmap (cons c) (Str.render f l).
Proof. simpl. destruct (Str.render f l); reflexivity. Qed.

Lemma render_hit (f : text -> result text) (m : text) (l : list Str.seg) :
  Str.render f (Str.Hit m :: l) =
  match f m with
  | Ok m' => rmap (app m') (Str.render f l)
  | Raise e => Raise e
  end.
Proof. simpl. destruct (f m); [destruct (Str.render f l)|]; reflexivity. Qed.

(** A callback that never raises makes [render] total. *)
Lemma render_total (f : text -> result text) (l : list Str.seg) :
  (forall m, exists m', f m = Ok m') -> exists r, Str.render f l = Ok r.
Proof.
  intros Hf. induction l as [|[c|m] l [r IH]]; simpl.
  - eexists; reflexivity.
  - rewrite IH. eexists; reflexivity.
  - destruct (Hf m) as [m' ->]. rewrite IH. eexists; reflexivity.
Qed.

End StrFacts.

(** ** Facts about the matcher and the path pattern *)
Section ReFacts.

(** A greedy run over [p] that must be followed by [d] settles behind
    [p] when the rest of the pattern fails everywhere inside [p]. *)
Lemma star_greedy_until {R : Type} (c : cls) (p : text) (d : ascii) (r : text)
      (k : text -> option R) :
  (forall a, a ∈ p -> cls_mem c a = true) ->
  cls_mem c d = false ->
  (forall p1 p2, p = p1 ++ p2 -> p2 <> [] -> k (p2 ++ d :: r) = None) ->
  star_greedy c (p ++ d :: r) k = k (d :: r).
Proof.
  intros Hp Hd. induction p as [|a p IH]; intros Hk; simpl.
  - rewrite Hd. reflexivity.
  - rewrite (Hp a) by (left).
    rewrite IH.
    + destruct (k (d :: r)) eqn:E; [reflexivity|].
      apply (Hk [] (a :: p)); [reflexivity|discriminate].
    + intros b Hb. apply Hp. right. exact Hb.
    + intros p1 p2 -> Hne. apply (Hk (a :: p1) p2); [reflexivity|exact Hne].
Qed.

Lemma hit_path_re_nil : hit_re path_re [] = None.
Proof. reflexivity. Qed.

(** No reference starts at a character other than [(]. *)
Lemma hit_path_re_other (c : ascii) (s : text) :
  c <> open_paren -> hit_re path_re (c :: s) = None.
Proof.
  intros Hc. unfold hit_re, match_, path_re. simpl.
  rewrite (eqb_false_of_ne _ _ Hc). reflexivity.
Qed.

(** No reference starts at an empty pair of parentheses. *)
Lemma hit_path_re_empty_pair (s : text) :
  hit_re path_re (open_paren :: close_paren :: s) = None.
Proof. reflexivity. Qed.

(** A reference [(p)], [p] not empty and free of [)], is matched whole. *)
Lemma hit_path_re_ref (p r : text) :
  p <> [] -> close_paren ∉ p ->
  hit_re path_re (open_paren :: p ++ close_paren :: r) = Some (length (open_paren :: p ++ [close_paren])).
Proof.
  intros Hp Hno. destruct p as [|a p]; [congruence|].
  assert (Ha : a <> close_paren) by (intros ->; apply Hno; left).
  assert (Hno' : forall b, b ∈ p -> cls_mem (CNot (CChar close_paren)) b = true).
  { intros b Hb. simpl. rewrite eqb_false_of_ne; [reflexivity|].
    intros ->. apply Hno. right. exact Hb. }
  unfold hit_re, match_, path_re. simpl.
  rewrite (eqb_false_of_ne _ _ Ha). simpl.
  rewrite (star_greedy_until (CNot (CChar close_paren)) p close_paren r).
  - simpl. do 2 f_equal.
    simpl. rewrite drop_0, length_take. simpl. rewrite !length_app. simpl. lia.
  - exact Hno'.
  - reflexivity.
  - intros p1 p2 -> Hne. destruct p2 as [|b p2]; [congruence|].
    simpl. rewrite eqb_false_of_ne; [reflexivity|].
    intros ->. apply Hno. right. apply elem_of_app. right. left.
Qed.

End ReFacts.

(** ** [re.sub] with the path pattern *)
Section SubFacts.
Variable f : text -> result text.

Lemma sub_path_keep (c : ascii) (s : text) :
  c <> open_paren ->
  Re.sub path_re f (c :: s) = rmap (cons c) (Re.sub path_re f s).
Proof.
  intros Hc. unfold Re.sub.
  rewrite scan_miss by (apply hit_path_re_other, Hc).
  apply render_keep.
Qed.

Lemma sub_path_app (pre s : text) :
  open_paren ∉ pre ->
  Re.sub path_re f (pre ++ s) = rmap (app pre) (Re.sub path_re f s).
Proof.
  induction pre as [|c pre IH]; intros Hno; simpl.
  - destruct (Re.sub path_re f s); reflexivity.
  - rewrite sub_path_keep by (intros ->; apply Hno; left).
    rewrite IH by (intros H; apply Hno; right; exact H).
    destruct (Re.sub path_re f s); reflexivity.
Qed.

Lemma sub_path_no_paren (s : text) :
  open_paren ∉ s -> Re.sub path_re f s = Ok s.
Proof.
  intros Hno. rewrite <- (app_nil_r s) at 1.
  rewrite sub_path_app by exact Hno.
  unfold Re.sub, Str.scan. simpl. rewrite app_nil_r. reflexivity.
Qed.

Lemma sub_path_ref (p r : text) :
  p <> [] -> close_paren ∉ p ->
  Re.sub path_re f (open_paren :: p ++ close_paren :: r) =
  match f (open_paren :: p ++ [close_paren]) with
  | Ok m' => rmap (app m') (Re.sub path_re f r)
  | Raise e => Raise e
  end.
Proof.
  intros Hp Hno. unfold Re.sub.
  change (open_paren :: p ++ close_paren :: r)
    with ((open_paren :: p) ++ [close_paren] ++ r).
  rewrite app_assoc.
  rewrite scan_hit.
  - apply render_hit.
  - discriminate.
  - rewrite <- app_assoc. simpl. apply hit_path_re_ref; assumption.
Qed.

Lemma sub_path_empty_pair (r : text) :
  Re.sub path_re f (open_paren :: close_paren :: r) =
  rmap (fun x => open_paren :: close_paren :: x) (Re.sub path_re f r).
Proof.
  unfold Re.sub.
  rewrite scan_miss by apply hit_path_re_empty_pair.
  rewrite scan_miss by (apply hit_path_re_other; discriminate).
  rewrite !render_keep. destruct (Str.render f _); reflexivity.
Qed.

End SubFacts.

Lemma inner_ref (p : text) : inner (open_paren :: p ++ [close_paren]) = p.
Proof. unfold inner. simpl. rewrite drop_0. apply removelast_last. Qed.

Lemma relpath_total (cwd path st : text) :
  path <> [] -> exists r, OsPath.relpath cwd path st = Ok r.
Proof.
  intros Hp. unfold OsPath.relpath. destruct path; [congruence|].
  match goal with |- context [match ?l with [] => _ | _ :: _ => _ end] => destruct l end;
    eexists; reflexivity.
Qed.

Lemma default_path_app_nonempty (p : text) : default_path ++ p <> [].
Proof. discriminate. Qed.

(** The callback never raises: its path is never empty. *)
Lemma replace_path_total (cwd m : text) : exists m', replace_path cwd m = Ok m'.
Proof.
  unfold replace_path, relative_path.
  destruct (relpath_total cwd (default_path ++ inner m) start) as [r ->].
  - apply default_path_app_nonempty.
  - eexists; reflexivity.
Qed.

Lemma replace_paths_total (cwd line : text) :
  exists r, replace_paths_with_empty_brackets cwd line = Ok r.
Proof. apply render_total. apply replace_path_total. Qed.

(** The three ways through lines 29 to 34. *)
Lemma modify_inherits_some (cwd md v : text) :
  parse_inherits md = Some v -> v <> [] ->
  modify_inherits cwd md =
  rmap (Str.replace md v) (replace_paths_with_empty_brackets cwd v).
Proof.
  intros Hparse Hv. unfold modify_inherits. rewrite Hparse.
  destruct v as [|c v]; [congruence|].
  destruct (replace_paths_with_empty_brackets cwd (c :: v)); reflexivity.
Qed.

Lemma modify_inherits_empty (cwd md : text) :
  parse_inherits md = Some [] -> modify_inherits cwd md = Ok md.
Proof. intros Hparse. unfold modify_inherits. rewrite Hparse. reflexivity. Qed.

Lemma modify_inherits_none (cwd md : text) :
  parse_inherits md = None -> modify_inherits cwd md = Ok md.
Proof. intros Hparse. unfold modify_inherits. rewrite Hparse. reflexivity. Qed.

Lemma modify_inherits_total (cwd md : text) :
  exists r, modify_inherits cwd md = Ok r.
Proof.
  destruct (parse_inherits md) as [v|] eqn:Hparse.
  - destruct v as [|c v].
    + rewrite modify_inherits_empty by exact Hparse. eexists; reflexivity.
    + rewrite (modify_inherits_some cwd md (c :: v)) by (exact Hparse || discriminate).
      destruct (replace_paths_total cwd (c :: v)) as [r ->]. eexists; reflexivity.
  - rewrite modify_inherits_none by exact Hparse. eexists; reflexivity.
Qed.

(** ** Facts about the [os.path] model *)
Section OsPathFacts.

Lemma text_eqb_true (a b : text) : text_eqb a b = true <-> a = b.
Proof. unfold text_eqb. apply bool_decide_eq_true. Qed.

Lemma text_eqb_false (a b : text) : text_eqb a b = false <-> a <> b.
Proof. unfold text_eqb. apply bool_decide_eq_false. Qed.

Lemma text_eqb_refl (a : text) : text_eqb a a = true.
Proof. apply text_eqb_true. reflexivity. Qed.

Lemma split_nonempty (c : ascii) (s : text) : Str.split c s <> [].
Proof.
  destruct s as [|a s]; simpl; [discriminate|].
  destruct (Ascii.eqb a c); [discriminate|].
  destruct (Str.split c s); discriminate.
Qed.

(** Splitting at a separator splits the list of pieces. *)
Lemma split_app_sep (c : ascii) (a b : text) :
  Str.split c (a ++ c :: b) = Str.split c a ++ Str.split c b.
Proof.
  induction a as [|x a IH]; simpl.
  - rewrite Ascii.eqb_refl. reflexivity.
  - destruct (Ascii.eqb x c); [rewrite IH; reflexivity|].
    rewrite IH. pose proof (split_nonempty c a) as Hne.
    destruct (Str.split c a); [congruence|reflexivity].
Qed.

Lemma split_no_sep (c : ascii) (w : text) : c ∉ w -> Str.split c w = [w].
Proof.
  induction w as [|x w IH]; intros Hno; simpl; [reflexivity|].
  rewrite eqb_false_of_ne by (intros ->; apply Hno; left).
  rewrite IH by (intros H; apply Hno; right; exact H). reflexivity.
Qed.

Lemma split_pieces_no_sep (c : ascii) (s w : text) :
  w ∈ Str.split c s -> c ∉ w.
Proof.
  revert w. induction s as [|x s IH]; intros w Hw; simpl in Hw.
  - apply list_elem_of_singleton in Hw. subst w. apply not_elem_of_nil.
  - destruct (Ascii.eqb x c) eqn:E.
    + apply elem_of_cons in Hw as [->|Hw]; [apply not_elem_of_nil|apply IH, Hw].
    + pose proof (split_nonempty c s) as Hne.
      destruct (Str.split c s) as [|w0 ws]; [congruence|].
      apply elem_of_cons in Hw as [->|Hw].
      * intros H. apply elem_of_cons in H as [->|H].
        -- rewrite Ascii.eqb_refl in E. discriminate.
        -- apply (IH w0); [left|exact H].
      * apply IH. right. exact Hw.
Qed.

Lemma split_join (cs : list text) :
  cs <> [] -> Forall (fun c => slash ∉ c) cs ->
  Str.split slash (Str.join sep cs) = cs.
Proof.
  induction cs as [|w cs IH]; intros Hne Hall; [congruence|].
  apply Forall_cons in Hall as [Hw Hall].
  destruct cs as [|w' cs].
  - simpl. apply split_no_sep, Hw.
  - change (Str.join sep (w :: w' :: cs)) with (w ++ slash :: Str.join sep (w' :: cs)).
    rewrite split_app_sep, IH by (discriminate || exact Hall).
    rewrite split_no_sep by exact Hw. reflexivity.
Qed.

Lemma split_repeat_slash (k : nat) (s : text) :
  Str.split slash (repeat slash k ++ s) = repeat [] k ++ Str.split slash s.
Proof. induction k as [|k IH]; simpl; [reflexivity|]. rewrite IH. reflexivity. Qed.

Lemma plain_nonempty (c : text) : plain c -> nonempty c = true.
Proof. intros [Hne _]. destruct c; [congruence|reflexivity]. Qed.

Lemma filter_nonempty_plain (cs : list text) :
  Forall plain cs -> filter (fun x => nonempty x = true) cs = cs.
Proof.
  induction 1 as [|c cs Hc _ IH]; [reflexivity|].
  rewrite filter_cons, IH. rewrite plain_nonempty by exact Hc.
  destruct (decide (true = true)); [reflexivity|congruence].
Qed.

Lemma filter_nonempty_repeat_nil (k : nat) (l : list text) :
  filter (fun x => nonempty x = true) (repeat [] k ++ l) =
  filter (fun x => nonempty x = true) l.
Proof. induction k as [|k IH]; simpl; [reflexivity|exact IH]. Qed.

(** The components of a normalised absolute path are the names it was
    joined from. *)
Lemma components_join (k : nat) (cs : list text) :
  Forall plain cs ->
  components (repeat slash k ++ Str.join sep cs) = cs.
Proof.
  intros Hall. unfold components.
  rewrite split_repeat_slash, filter_nonempty_repeat_nil.
  destruct cs as [|c cs]; [reflexivity|].
  rewrite split_join.
  - apply filter_nonempty_plain, Hall.
  - discriminate.
  - eapply Forall_impl; [exact Hall|]. intros x (_ & _ & _ & Hx). exact Hx.
Qed.

Lemma norm_step_skip_empty (k : nat) (nc : list text) : norm_step k nc [] = nc.
Proof. reflexivity. Qed.

Lemma norm_step_push (k : nat) (nc : list text) (c : text) :
  c <> [] -> c <> curdir -> c <> pardir -> norm_step k nc c = nc ++ [c].
Proof.
  intros H1 H2 H3. unfold norm_step.
  rewrite (proj2 (text_eqb_false c []) H1), (proj2 (text_eqb_false c curdir) H2),
    (proj2 (text_eqb_false c pardir) H3).
  reflexivity.
Qed.

Lemma norm_step_pop (k : nat) (nc : list text) (c : text) :
  c <> pardir -> norm_step k (nc ++ [c]) pardir = nc.
Proof.
  intros Hc. unfold norm_step.
  rewrite last_snoc. rewrite (proj2 (text_eqb_false c pardir) Hc).
  replace (text_eqb pardir []) with false by reflexivity.
  replace (text_eqb pardir curdir) with false by reflexivity.
  rewrite text_eqb_refl. simpl.
  destruct (nc ++ [c]) eqn:E; [destruct nc; discriminate|].
  rewrite andb_false_r. cbn [orb]. rewrite <- E. apply removelast_last.
Qed.

Lemma norm_step_root (k : nat) : 0 < k -> norm_step k [] pardir = [].
Proof. intros Hk. destruct k; [lia|]. reflexivity. Qed.

Lemma fold_norm_push (k : nat) (l nc : list text) :
  Forall plain l -> fold_left (norm_step k) l nc = nc ++ l.
Proof.
  intros Hall. revert nc. induction Hall as [|c l (H1 & H2 & H3 & _) _ IH]; intros nc; simpl.
  - rewrite app_nil_r. reflexivity.
  - rewrite norm_step_push by assumption. rewrite IH, <- app_assoc. reflexivity.
Qed.

(** Below a root, normalising keeps plain names only. *)
Lemma fold_norm_plain (k : nat) (l nc : list text) :
  0 < k -> Forall plain nc -> Forall (fun c => slash ∉ c) l ->
  Forall plain (fold_left (norm_step k) l nc).
Proof.
  intros Hk Hnc Hl. revert nc Hnc.
  induction Hl as [|c l Hc _ IH]; intros nc Hnc; simpl; [exact Hnc|].
  apply IH.
  destruct (decide (c = [])) as [->|H1]; [exact Hnc|].
  destruct (decide (c = curdir)) as [->|H2]; [exact Hnc|].
  destruct (decide (c = pardir)) as [->|H3].
  - destruct nc as [|x nc _] using rev_ind.
    + rewrite norm_step_root by exact Hk. constructor.
    + apply Forall_app in Hnc as [Hnc Hx]. apply Forall_cons in Hx as [(_ & _ & Hx & _) _].
      rewrite norm_step_pop by exact Hx. exact Hnc.
  - rewrite norm_step_push by assumption.
    apply Forall_app. split; [exact Hnc|]. repeat constructor; assumption.
Qed.

Lemma commonprefix_app (n a b : list text) :
  commonprefix (n ++ a) (n ++ b) = n ++ commonprefix a b.
Proof.
  induction n as [|c n IH]; simpl; [reflexivity|].
  rewrite text_eqb_refl, IH. reflexivity.
Qed.

(** A common base contributes nothing to the relative path. *)
Lemma rel_list_app (n a b : list text) :
  rel_list (n ++ a) (n ++ b) = rel_list a b.
Proof.
  unfold rel_list. rewrite commonprefix_app, !length_app.
  replace (length n + length a - (length n + length (commonprefix a b)))
    with (length a - length (commonprefix a b)) by lia.
  rewrite drop_app_add'; reflexivity.
Qed.

End OsPathFacts.

(** ** Paths below the working directory *)
Section RelativePaths.

Lemma normpath_unfold (path : text) :
  path <> [] ->
  normpath path =
  let path' := repeat slash (initial_slashes path)
               ++ Str.join sep (fold_left (norm_step (initial_slashes path))
                                          (Str.split slash path) []) in
  match path' with
  | [] => curdir
  | _ => path'
  end.
Proof. intros Hp. destruct path; [congruence|reflexivity]. Qed.

(** What [join] puts in front of a relative path depends on the
    directory alone, and ends with a slash. *)
Lemma join_relative (cwd : text) :
  cwd <> [] ->
  exists c', forall x, isabs x = false -> OsPath.join cwd x = c' ++ slash :: x.
Proof.
  intros Hcwd. unfold OsPath.join, isabs.
  destruct (Str.endswith cwd sep) eqn:E.
  - unfold Str.endswith in E. apply startswith_inv in E. simpl in E.
    exists (rev (drop 1 (rev cwd))). intros x ->.
    destruct cwd as [|c cwd]; [congruence|]. cbn [orb].
    rewrite <- (rev_involutive (c :: cwd)) at 1. rewrite E.
    simpl. rewrite <- app_assoc. reflexivity.
  - exists cwd. intros x ->.
    destruct cwd as [|c cwd]; [congruence|]. reflexivity.
Qed.

Lemma join_relative_any (cwd : text) :
  exists pfx, forall x, isabs x = false -> OsPath.join cwd x = pfx ++ x.
Proof.
  destruct cwd as [|c cwd].
  - exists []. intros x Hx. unfold OsPath.join. unfold isabs in Hx. rewrite Hx. reflexivity.
  - destruct (join_relative (c :: cwd)) as [c' Hc']; [discriminate|].
    exists (c' ++ [slash]). intros x Hx. rewrite Hc' by exact Hx.
    rewrite <- app_assoc. reflexivity.
Qed.

(** The leading slashes of a path are counted in front of its first
    character that is not a slash. *)
Lemma initial_slashes_prefix (pfx r r' : text) (a a' : ascii) :
  a <> slash -> a' <> slash ->
  initial_slashes (pfx ++ a :: r) = initial_slashes (pfx ++ a' :: r').
Proof.
  intros Ha Ha'. unfold initial_slashes.
  apply eqb_false_of_ne in Ha, Ha'. unfold slash in Ha, Ha'.
  destruct pfx as [|b1 [|b2 [|b3 pfx]]]; simpl;
    rewrite ?Ha, ?Ha', ?andb_false_r; reflexivity.
Qed.

Lemma isabs_cons (a : ascii) (r : text) : a <> slash -> isabs (a :: r) = false.
Proof.
  intros Ha. apply eqb_false_of_ne in Ha. unfold slash in Ha.
  unfold isabs. simpl. rewrite Ha. reflexivity.
Qed.

Lemma initial_slashes_abs (p : text) : isabs p = true -> 0 < initial_slashes p.
Proof.
  unfold isabs, initial_slashes. intros ->.
  destruct (_ && _); lia.
Qed.

(** The absolute form of a relative path: the names of the working
    directory, then what the path adds to them. *)
Lemma abspath_relative (cwd : text) :
  isabs cwd = true ->
  exists k N, 0 < k /\ Forall plain N /\
    forall a r, a <> slash ->
      abspath cwd (a :: r) =
      repeat slash k ++ Str.join sep (fold_left (norm_step k) (Str.split slash (a :: r)) N).
Proof.
  intros Habs.
  assert (Hne : cwd <> []) by (intros ->; discriminate).
  destruct (join_relative cwd Hne) as [c' Hjoin].
  assert (Hc' : isabs (c' ++ slash :: [nl]) = true).
  { rewrite <- (Hjoin [nl]) by reflexivity.
    unfold OsPath.join. simpl. destruct cwd as [|c cwd]; [congruence|].
    destruct (Str.endswith (c :: cwd) sep); exact Habs. }
  set (k := initial_slashes ((c' ++ [slash]) ++ [nl])).
  assert (Hk : 0 < k).
  { apply initial_slashes_abs. rewrite <- app_assoc. exact Hc'. }
  exists k, (fold_left (norm_step k) (Str.split slash c') []).
  split; [exact Hk|]. split.
  - apply fold_norm_plain; [exact Hk|constructor|].
    apply Forall_forall. intros w Hw. eapply split_pieces_no_sep, Hw.
  - intros a r Ha. unfold abspath.
    assert (Hrel : isabs (a :: r) = false) by (apply isabs_cons, Ha).
    rewrite Hrel, (Hjoin _ Hrel).
    rewrite normpath_unfold by (destruct c'; discriminate).
    assert (Hk' : initial_slashes (c' ++ slash :: a :: r) = k).
    { unfold k. change (c' ++ slash :: a :: r) with (c' ++ [slash] ++ a :: r).
      rewrite app_assoc. apply initial_slashes_prefix; [exact Ha|discriminate]. }
    rewrite Hk'. rewrite split_app_sep, fold_left_app. cbv zeta.
    destruct k; [lia|]. reflexivity.
Qed.

(** The relative path between two relative paths that stay below the
    working directory does not depend on it. *)
Lemma relpath_in_cwd (cwd : text) (ax : ascii) (rx : text) (a_s : ascii) (rs : text)
      (lx ls : list text) :
  isabs cwd = true ->
  ax <> slash -> a_s <> slash ->
  (forall k N, 0 < k -> Forall plain N ->
     fold_left (norm_step k) (Str.split slash (ax :: rx)) N = N ++ lx) ->
  (forall k N, 0 < k -> Forall plain N ->
     fold_left (norm_step k) (Str.split slash (a_s :: rs)) N = N ++ ls) ->
  Forall plain lx -> Forall plain ls ->
  relpath cwd (ax :: rx) (a_s :: rs) =
  match rel_list ls lx with
  | [] => Ok curdir
  | a :: p => Ok (join_all a p)
  end.
Proof.
  intros Habs Hax Has Hx Hs Hlx Hls.
  destruct (abspath_relative cwd Habs) as (k & N & Hk & HN & Hshape).
  unfold relpath.
  rewrite (Hshape ax rx Hax), (Hshape a_s rs Has).
  rewrite (Hx k N Hk HN), (Hs k N Hk HN).
  rewrite !components_join by (apply Forall_app; split; assumption).
  rewrite rel_list_app. reflexivity.
Qed.

(** A doubled slash behind three or more characters is one slash. *)
Lemma normpath_double_slash (u q : text) :
  3 <= length u ->
  normpath (u ++ slash :: slash :: q) = normpath (u ++ slash :: q).
Proof.
  intros Hu.
  assert (Hisl : initial_slashes (u ++ slash :: slash :: q)
                 = initial_slashes (u ++ slash :: q)).
  { unfold initial_slashes.
    rewrite !(startswith_app_long u) by (simpl; lia). reflexivity. }
  rewrite !normpath_unfold by (destruct u; [simpl in Hu; lia|discriminate]).
  rewrite Hisl.
  rewrite (split_app_sep slash u (slash :: q)), (split_app_sep slash u q).
  replace (Str.split slash (slash :: q)) with ([] :: Str.split slash q) by reflexivity.
  rewrite !fold_left_app. reflexivity.
Qed.

Lemma relpath_same_abspath (cwd p p' st : text) :
  p <> [] -> p' <> [] -> abspath cwd p = abspath cwd p' ->
  relpath cwd p st = relpath cwd p' st.
Proof.
  intros Hp Hp' Heq. destruct p as [|a p]; [congruence|].
  destruct p' as [|a' p']; [congruence|].
  unfold relpath. rewrite Heq. reflexivity.
Qed.

(** With a reference that begins with a slash, the bare prefix and the
    prefix with a slash of its own name the same file. *)
Lemma relpath_default_slash (cwd q : text) :
  relpath cwd (default_path ++ sep ++ slash :: q) start
  = relpath cwd (default_path ++ slash :: q) start.
Proof.
  apply relpath_same_abspath; [discriminate|discriminate|].
  unfold abspath.
  replace (isabs (default_path ++ sep ++ slash :: q)) with false by reflexivity.
  replace (isabs (default_path ++ slash :: q)) with false by reflexivity.
  destruct (join_relative_any cwd) as [pfx Hpfx].
  rewrite !Hpfx by reflexivity.
  change (default_path ++ sep ++ slash :: q) with (default_path ++ slash :: slash :: q).
  rewrite !app_assoc. apply normpath_double_slash.
  rewrite length_app. unfold default_path. simpl. lia.
Qed.

End RelativePaths.

(** ** Rewriting the references of a line *)
Section References.
Variable cwd : text.

Lemma replace_path_ref (p : text) :
  replace_path cwd (open_paren :: p ++ [close_paren]) =
  rmap (fun r => [open_paren] ++ r ++ [close_paren])
       (relpath cwd (default_path ++ p) start).
Proof.
  unfold replace_path, relative_path. rewrite inner_ref.
  destruct (relpath cwd (default_path ++ p) start); reflexivity.
Qed.

(** A line with one reference: the text around it is kept, the
    reference is replaced by the relative form of the prefix followed
    by the reference. *)
Lemma replace_paths_single (pre p post r : text) :
  open_paren ∉ pre -> open_paren ∉ post -> p <> [] -> close_paren ∉ p ->
  relpath cwd (default_path ++ p) start = Ok r ->
  replace_paths_with_empty_brackets cwd (pre ++ [open_paren] ++ p ++ [close_paren] ++ post)
  = Ok (pre ++ [open_paren] ++ r ++ [close_paren] ++ post).
Proof.
  intros Hpre Hpost Hp Hno Hr. unfold replace_paths_with_empty_brackets.
  rewrite sub_path_app by exact Hpre.
  change ([open_paren] ++ p ++ [close_paren] ++ post)
    with (open_paren :: p ++ close_paren :: post).
  rewrite sub_path_ref by assumption.
  rewrite replace_path_ref, Hr. simpl.
  rewrite sub_path_no_paren by exact Hpost. simpl.
  rewrite <- !app_assoc. reflexivity.
Qed.

End References.

(** C1, as the script has it. A line with exactly one reference [(p)],
    [p] not empty and free of [)], no [(] around it: the reference is
    rewritten to the path of [docs/docs/src] immediately followed by [p]
    (no separator is put between them), relative to
    [docs/docs/src/src/X/X/], in parentheses; the rest of the line is
    kept.  When [p] begins with a slash this is the path of
    [docs/docs/src/p]. *)
Theorem single_reference_rewritten (cwd pre p post : text) :
  open_paren ∉ pre -> open_paren ∉ post -> p <> [] -> close_paren ∉ p ->
  exists r,
    relpath cwd (default_path ++ p) start = Ok r
    /\ replace_paths_with_empty_brackets cwd
         (pre ++ [open_paren] ++ p ++ [close_paren] ++ post)
       = Ok (pre ++ [open_paren] ++ r ++ [close_paren] ++ post)
    /\ (Str.startswith p sep = true ->
        relpath cwd (default_path ++ sep ++ p) start = Ok r).
Proof.
  intros Hpre Hpost Hp Hno.
  destruct (relpath_total cwd (default_path ++ p) start) as [r Hr];
    [apply default_path_app_nonempty|].
  exists r. split; [exact Hr|]. split.
  - apply replace_paths_single; assumption.
  - intros Hslash. destruct p as [|a q]; [congruence|].
    simpl in Hslash. apply andb_true_iff in Hslash as [Ha _].
    apply Ascii.eqb_eq in Ha. subst a.
    rewrite <- Hr. apply relpath_default_slash.
Qed.

Lemma single_reference_rewritten_witness :
  exists r,
    relpath (txt "/w") (default_path ++ txt "/src/X/I.md") start = Ok r
    /\ replace_paths_with_empty_brackets (txt "/w")
         (txt "[I]" ++ [open_paren] ++ txt "/src/X/I.md" ++ [close_paren] ++ txt ", x")
       = Ok (txt "[I]" ++ [open_paren] ++ r ++ [close_paren] ++ txt ", x")
    /\ (Str.startswith (txt "/src/X/I.md") sep = true ->
        relpath (txt "/w") (default_path ++ sep ++ txt "/src/X/I.md") start = Ok r).
Proof.
  apply (single_reference_rewritten (txt "/w") (txt "[I]") (txt "/src/X/I.md") (txt ", x"));
    compute_done.
Defined.

(** C1, as the specification has it, fails for a reference that does not
    begin with a slash: [docs/docs/src/../a/b.md] is [docs/docs/a/b.md],
    four levels up from the anchor, while the script resolves
    [docs/docs/src../a/b.md]. *)
Lemma single_reference_no_separator :
  relpath (txt "/w") (default_path ++ sep ++ txt "../a/b.md") start
  = Ok (txt "../../../../a/b.md")
  /\ replace_paths_with_empty_brackets (txt "/w") (txt "(../a/b.md)")
     = Ok (txt "(../../../../src../a/b.md)")
  /\ replace_paths_with_empty_brackets (txt "/w") (txt "(../a/b.md)")
     <> Ok ([open_paren] ++ txt "../../../../a/b.md" ++ [close_paren]).
Proof.
  split; [vm_compute; reflexivity|].
  split; [vm_compute; reflexivity|].
  vm_compute. intros H. discriminate H.
Qed.

(** ** Lines with several references *)
Section ClosedPrefix.
Variable f : text -> result text.

Lemma first_close (s : text) :
  existsb (fun a => Ascii.eqb a close_paren) s = true ->
  exists p r, s = p ++ close_paren :: r /\ close_paren ∉ p.
Proof.
  induction s as [|a s IH]; intros H; simpl in H; [discriminate|].
  destruct (Ascii.eqb a close_paren) eqn:E.
  - apply Ascii.eqb_eq in E. subst a. exists [], s. split; [reflexivity|apply not_elem_of_nil].
  - destruct (IH H) as (p & r & -> & Hp). exists (a :: p), r. split; [reflexivity|].
    intros Hin. apply elem_of_cons in Hin as [Heq|Hin]; [|exact (Hp Hin)].
    rewrite <- Heq, Ascii.eqb_refl in E. discriminate.
Qed.

Lemma parens_closed_suffix (x y : text) :
  parens_closed (x ++ y) = true -> parens_closed y = true.
Proof.
  induction x as [|c x IH]; intros H; [exact H|].
  simpl in H. apply andb_true_iff in H as [_ H]. apply IH, H.
Qed.

(** Behind a prefix whose parentheses are closed the scan starts
    afresh: the line is rewritten piece by piece. *)
Lemma sub_path_closed_app (pre rest : text) :
  parens_closed pre = true ->
  Re.sub path_re f (pre ++ rest) =
  match Re.sub path_re f pre with
  | Ok a => rmap (app a) (Re.sub path_re f rest)
  | Raise e => Raise e
  end.
Proof.
  remember (length pre) as n eqn:Hn.
  assert (Hle : length pre <= n) by lia. clear Hn.
  revert pre Hle. induction n as [|n IH]; intros pre Hle Hclosed.
  - destruct pre; [|simpl in Hle; lia]. simpl.
    destruct (Re.sub path_re f rest); reflexivity.
  - destruct pre as [|c pre].
    { simpl. destruct (Re.sub path_re f rest); reflexivity. }
    simpl in Hle, Hclosed. apply andb_true_iff in Hclosed as [Hc Hclosed].
    destruct (Ascii.eqb c open_paren) eqn:E.
    + apply Ascii.eqb_eq in E. subst c.
      destruct (first_close pre Hc) as (p & r & -> & Hp).
      assert (Hr : parens_closed r = true).
      { apply (parens_closed_suffix (p ++ [close_paren])).
        rewrite <- app_assoc. exact Hclosed. }
      assert (Hlen : length r <= n) by (rewrite length_app in Hle; simpl in Hle; lia).
      destruct p as [|a p].
      * change (((open_paren :: [] ++ close_paren :: r)) ++ rest)
          with (open_paren :: close_paren :: (r ++ rest)).
        change (open_paren :: [] ++ close_paren :: r) with (open_paren :: close_paren :: r).
        rewrite !sub_path_empty_pair, (IH r Hlen Hr).
        destruct (Re.sub path_re f r); [|reflexivity]. simpl.
        destruct (Re.sub path_re f rest); reflexivity.
      * replace ((open_paren :: (a :: p) ++ close_paren :: r) ++ rest)
          with (open_paren :: (a :: p) ++ close_paren :: (r ++ rest))
          by (simpl; rewrite <- app_assoc; reflexivity).
        rewrite !sub_path_ref by (discriminate || exact Hp).
        destruct (f (open_paren :: (a :: p) ++ [close_paren])) as [m'|e]; [|reflexivity].
        rewrite (IH r Hlen Hr).
        destruct (Re.sub path_re f r); [|reflexivity]. simpl.
        destruct (Re.sub path_re f rest); [|reflexivity]. simpl.
        rewrite app_assoc. reflexivity.
    + apply Ascii.eqb_neq in E.
      change ((c :: pre) ++ rest) with (c :: pre ++ rest).
      rewrite !sub_path_keep by exact E.
      rewrite (IH pre) by (lia || exact Hclosed).
      destruct (Re.sub path_re f pre); [|reflexivity]. simpl.
      destruct (Re.sub path_re f rest); reflexivity.
Qed.

End ClosedPrefix.




(** ** Running the transform twice *)
Section Twice.
Variable cwd : text.
Hypothesis cwd_abs : isabs cwd = true.

Lemma fold_start (k : nat) (N : list text) :
  fold_left (norm_step k) (Str.split slash start) N
  = N ++ map txt ["docs"; "docs"; "src"; "src"; "X"; "X"]%string.
Proof.
  replace (Str.split slash start)
    with (map txt ["docs"; "docs"; "src"; "src"; "X"; "X"]%string ++ [[]])
    by reflexivity.
  rewrite fold_left_app.
  rewrite (fold_norm_push k (map txt ["docs"; "docs"; "src"; "src"; "X"; "X"]%string) N)
    by compute_done.
  reflexivity.
Qed.

Lemma fold_below_src (k : nat) (N : list text) :
  fold_left (norm_step k) (Str.split slash (default_path ++ txt "/a")) N
  = N ++ map txt ["docs"; "docs"; "src"; "a"]%string.
Proof.
  replace (Str.split slash (default_path ++ txt "/a"))
    with (map txt ["docs"; "docs"; "src"; "a"]%string) by reflexivity.
  apply fold_norm_push. compute_done.
Qed.

(** [docs/docs/src../../../a]: the component [src..] and one [docs]
    are taken back by the two [..] that follow. *)
Lemma fold_beside_src (k : nat) (N : list text) :
  fold_left (norm_step k) (Str.split slash (default_path ++ txt "../../../a")) N
  = N ++ map txt ["docs"; "a"]%string.
Proof.
  replace (Str.split slash (default_path ++ txt "../../../a"))
    with (map txt ["docs"; "docs"; "src.."]%string ++ [pardir; pardir] ++ [txt "a"])
    by reflexivity.
  rewrite fold_left_app.
  rewrite (fold_norm_push k (map txt ["docs"; "docs"; "src.."]%string) N) by compute_done.
  rewrite fold_left_app. cbn [fold_left map].
  change (N ++ [txt "docs"; txt "docs"; txt "src.."])
    with (N ++ [txt "docs"] ++ [txt "docs"] ++ [txt "src.."]).
  rewrite !app_assoc.
  rewrite norm_step_pop by compute_done.
  rewrite norm_step_pop by compute_done.
  rewrite norm_step_push by compute_done.
  rewrite <- app_assoc. reflexivity.
Qed.

Lemma relpath_below_src :
  relpath cwd (default_path ++ txt "/a") start = Ok (txt "../../../a").
Proof.
  change (default_path ++ txt "/a") with ("d"%char :: txt "ocs/docs/src/a").
  change start with ("d"%char :: txt "ocs/docs/src/src/X/X/").
  rewrite (relpath_in_cwd cwd _ _ _ _
             (map txt ["docs"; "docs"; "src"; "a"]%string)
             (map txt ["docs"; "docs"; "src"; "src"; "X"; "X"]%string)).
  - reflexivity.
  - exact cwd_abs.
  - discriminate.
  - discriminate.
  - intros k N _ _. apply fold_below_src.
  - intros k N _ _. apply fold_start.
  - compute_done.
  - compute_done.
Qed.

Lemma relpath_beside_src :
  relpath cwd (default_path ++ txt "../../../a") start = Ok (txt "../../../../../a").
Proof.
  change (default_path ++ txt "../../../a") with ("d"%char :: txt "ocs/docs/src../../../a").
  change start with ("d"%char :: txt "ocs/docs/src/src/X/X/").
  rewrite (relpath_in_cwd cwd _ _ _ _
             (map txt ["docs"; "a"]%string)
             (map txt ["docs"; "docs"; "src"; "src"; "X"; "X"]%string)).
  - reflexivity.
  - exact cwd_abs.
  - discriminate.
  - discriminate.
  - intros k N _ _. apply fold_beside_src.
  - intros k N _ _. apply fold_start.
  - compute_done.
  - compute_done.
Qed.

Lemma modify_once :
  modify_inherits cwd (txt "**Inherits:** (/a)" ++ [nl])
  = Ok (txt "**Inherits:** (../../../a)" ++ [nl]).
Proof.
  rewrite (modify_inherits_some cwd _ (txt "(/a)")) by (reflexivity || discriminate).
  change (txt "(/a)") with ([] ++ [open_paren] ++ txt "/a" ++ [close_paren] ++ []) at 2.
  rewrite (replace_paths_single cwd [] (txt "/a") [] (txt "../../../a"));
    [reflexivity|compute_done|compute_done|compute_done|compute_done|].
  apply relpath_below_src.
Qed.

Lemma modify_again :
  modify_inherits cwd (txt "**Inherits:** (../../../a)" ++ [nl])
  = Ok (txt "**Inherits:** (../../../../../a)" ++ [nl]).
Proof.
  rewrite (modify_inherits_some cwd _ (txt "(../../../a)")) by (reflexivity || discriminate).
  change (txt "(../../../a)")
    with ([] ++ [open_paren] ++ txt "../../../a" ++ [close_paren] ++ []) at 2.
  rewrite (replace_paths_single cwd [] (txt "../../../a") [] (txt "../../../../../a"));
    [reflexivity|compute_done|compute_done|compute_done|compute_done|].
  apply relpath_beside_src.
Qed.

End Twice.

(** C5. The transform is not idempotent, whatever the working directory:
    the field [(/a)] becomes [(../../../a)], and a second run puts the
    prefix in front of that relative path and makes it
    [(../../../../../a)]. *)
Theorem modify_inherits_not_idempotent (cwd : text) :
  isabs cwd = true ->
  modify_inherits cwd (txt "**Inherits:** (/a)" ++ [nl])
  = Ok (txt "**Inherits:** (../../../a)" ++ [nl])
  /\ modify_inherits cwd (txt "**Inherits:** (../../../a)" ++ [nl])
     = Ok (txt "**Inherits:** (../../../../../a)" ++ [nl])
  /\ txt "**Inherits:** (../../../../../a)" ++ [nl]
     <> txt "**Inherits:** (../../../a)" ++ [nl].
Proof.
  intros Habs. split; [apply modify_once, Habs|].
  split; [apply modify_again, Habs|]. discriminate.
Qed.

Lemma modify_inherits_not_idempotent_witness :
  modify_inherits (txt "/home/dev/bob/python_script") (txt "**Inherits:** (/a)" ++ [nl])
  = Ok (txt "**Inherits:** (../../../a)" ++ [nl])
  /\ modify_inherits (txt "/home/dev/bob/python_script") (txt "**Inherits:** (../../../a)" ++ [nl])
     = Ok (txt "**Inherits:** (../../../../../a)" ++ [nl])
  /\ txt "**Inherits:** (../../../../../a)" ++ [nl]
     <> txt "**Inherits:** (../../../a)" ++ [nl].
Proof.
  apply (modify_inherits_not_idempotent (txt "/home/dev/bob/python_script")).
  reflexivity.
Defined.

(** ** [str.replace] *)
Section ReplaceFacts.
Variables old new : text.

Lemma replace_render (s : text) :
  Str.render (fun _ => Ok new) (Str.scan (Str.hit_str old) s) = Ok (Str.replace s old new).
Proof.
  unfold Str.replace.
  destruct (render_total (fun _ => Ok new) (Str.scan (Str.hit_str old) s)) as [r ->];
    [intros _; eexists; reflexivity|reflexivity].
Qed.

Lemma replace_miss (c : ascii) (s : text) :
  Str.startswith (c :: s) old = false ->
  Str.replace (c :: s) old new = c :: Str.replace s old new.
Proof.
  intros H. unfold Str.replace at 1.
  rewrite scan_miss by (unfold Str.hit_str; rewrite H; reflexivity).
  rewrite render_keep, replace_render. reflexivity.
Qed.

Lemma replace_hit (r : text) :
  old <> [] -> Str.replace (old ++ r) old new = new ++ Str.replace r old new.
Proof.
  intros Hold. unfold Str.replace at 1.
  rewrite scan_hit.
  - rewrite render_hit, replace_render. reflexivity.
  - exact Hold.
  - unfold Str.hit_str. rewrite startswith_app. reflexivity.
Qed.

(** Up to and including the first occurrence of [old]. *)
Lemma replace_piece (p r : text) :
  old <> [] -> Str.find (p ++ old) old = Some (length p) ->
  Str.replace (p ++ old ++ r) old new = p ++ new ++ Str.replace r old new.
Proof.
  intros Hold. induction p as [|c p IH]; intros Hfind.
  - apply replace_hit, Hold.
  - simpl in Hfind.
    destruct (Str.startswith (c :: p ++ old) old) eqn:E; [discriminate|].
    destruct (Str.find (p ++ old) old) as [i|] eqn:F; [|discriminate].
    injection Hfind as ->.
    simpl. rewrite replace_miss.
    + rewrite IH by reflexivity. reflexivity.
    + change (c :: p ++ old ++ r) with ((c :: p) ++ old ++ r).
      rewrite app_assoc, startswith_app_long; [exact E|].
      rewrite length_app. lia.
Qed.

Lemma replace_absent (s : text) :
  Str.find s old = None -> Str.replace s old new = s.
Proof.
  induction s as [|c s IH]; intros Hfind; simpl in Hfind.
  - destruct (Str.startswith [] old) eqn:E; [discriminate|].
    unfold Str.replace, Str.scan, Str.hit_str. simpl. rewrite E. reflexivity.
  - destruct (Str.startswith (c :: s) old) eqn:E; [discriminate|].
    destruct (Str.find s old) eqn:F; [discriminate|].
    rewrite replace_miss by exact E. rewrite IH by reflexivity. reflexivity.
Qed.

(** Every occurrence at which the text is cut is replaced. *)
Lemma replace_splice (ps : list text) (q : text) :
  old <> [] ->
  Forall (fun p => Str.find (p ++ old) old = Some (length p)) ps ->
  Str.find q old = None ->
  Str.replace (Str.splice old ps q) old new = Str.splice new ps q.
Proof.
  intros Hold Hps Hq. induction Hps as [|p ps Hp _ IH]; simpl.
  - apply replace_absent, Hq.
  - rewrite replace_piece by assumption. rewrite IH. reflexivity.
Qed.

Lemma find_here (s : text) :
  Str.startswith s old = true -> Str.find s old = Some 0.
Proof. intros H. destruct s; simpl; rewrite H; reflexivity. Qed.

(** Where [find] points, [old] stands, and not before. *)
Lemma find_Some_split (s : text) (i : nat) :
  Str.find s old = Some i ->
  exists p r, s = p ++ old ++ r /\ Str.find (p ++ old) old = Some (length p).
Proof.
  revert i. induction s as [|c s IH]; intros i Hfind; simpl in Hfind.
  - destruct (Str.startswith [] old) eqn:E; [|discriminate].
    exists [], []. apply startswith_inv in E. rewrite drop_nil, app_nil_r in E.
    rewrite <- E. split; reflexivity.
  - destruct (Str.startswith (c :: s) old) eqn:E.
    + exists [], (drop (length old) (c :: s)). split.
      * apply startswith_inv, E.
      * apply find_here. simpl. rewrite <- (app_nil_r old) at 1. apply startswith_app.
    + destruct (Str.find s old) as [j|] eqn:F; [|discriminate].
      destruct (IH j eq_refl) as (p & r & -> & Hp).
      exists (c :: p), r. split; [reflexivity|].
      simpl. rewrite Hp.
      change (c :: p ++ old ++ r) with ((c :: p) ++ old ++ r) in E.
      rewrite app_assoc, startswith_app_long in E by (rewrite length_app; lia).
      simpl in E. rewrite E. reflexivity.
Qed.

(** Every text is cut in exactly this way at the occurrences
    [str.replace] takes. *)
Lemma splice_decompose (s : text) :
  old <> [] ->
  exists ps q,
    s = Str.splice old ps q
    /\ Forall (fun p => Str.find (p ++ old) old = Some (length p)) ps
    /\ Str.find q old = None.
Proof.
  intros Hold. remember (length s) as n eqn:Hn.
  assert (Hle : length s <= n) by lia. clear Hn.
  revert s Hle. induction n as [|n IH]; intros s Hle.
  - destruct s; [|simpl in Hle; lia].
    exists [], []. split; [reflexivity|]. split; [constructor|].
    destruct old; [congruence|reflexivity].
  - destruct (Str.find s old) as [i|] eqn:F.
    + destruct (find_Some_split s i F) as (p & r & -> & Hp).
      assert (Hr : length r <= n).
      { rewrite !length_app in Hle. destruct old; [congruence|]. simpl in Hle. lia. }
      destruct (IH r Hr) as (ps & q & -> & Hps & Hq).
      exists (p :: ps), q. split; [reflexivity|]. split; [constructor; assumption|exact Hq].
    + exists [], s. split; [reflexivity|]. split; [constructor|exact F].
Qed.

End ReplaceFacts.

(** ** The label *)
Section Label.

Lemma match_needs_marker (s : text) :
  Str.startswith s marker = false -> Re.match_ inherits_re s = None.
Proof.
  intros H. unfold Re.match_, inherits_re. cbn [run]. rewrite H. reflexivity.
Qed.

Lemma search_needs_marker (s : text) :
  Str.find s marker = None -> Re.search inherits_re s = None.
Proof.
  induction s as [|c s IH]; intros Hfind; cbn [Str.find] in Hfind.
  - reflexivity.
  - destruct (Str.startswith (c :: s) marker) eqn:E; [discriminate|].
    destruct (Str.find s marker) eqn:F; [discriminate|].
    cbn [Re.search]. rewrite match_needs_marker by exact E. apply IH. reflexivity.
Qed.

Lemma parse_needs_marker (md : text) :
  Str.find md marker = None -> parse_inherits md = None.
Proof.
  intros H. unfold parse_inherits. rewrite search_needs_marker by exact H. reflexivity.
Qed.

End Label.

(** C3, as the script has it. [str.replace] is called without a count:
    every occurrence of the captured value in the document, taken from
    the left without overlap, is replaced by the rewritten value, not
    the first one only.  The document is cut at the occurrences: each
    piece of [ps] runs up to the next occurrence, and [q], the rest, has
    none. *)
Theorem every_occurrence_replaced (cwd v : text) (ps : list text) (q : text) :
  parse_inherits (Str.splice v ps q) = Some v ->
  v <> [] ->
  Forall (fun p => Str.find (p ++ v) v = Some (length p)) ps ->
  Str.find q v = None ->
  exists v',
    replace_paths_with_empty_brackets cwd v = Ok v'
    /\ modify_inherits cwd (Str.splice v ps q) = Ok (Str.splice v' ps q).
Proof.
  intros Hparse Hv Hps Hq.
  destruct (replace_paths_total cwd v) as [v' Hv'].
  exists v'. split; [exact Hv'|].
  rewrite (modify_inherits_some cwd _ v Hparse Hv), Hv'. simpl.
  rewrite replace_splice by assumption. reflexivity.
Qed.

Lemma every_occurrence_replaced_witness :
  exists v',
    replace_paths_with_empty_brackets (txt "/w") (txt "(/a)") = Ok v'
    /\ modify_inherits (txt "/w")
         (Str.splice (txt "(/a)") [txt "**Inherits:** "; [nl] ++ txt "see "] (txt " too" ++ [nl]))
       = Ok (Str.splice v' [txt "**Inherits:** "; [nl] ++ txt "see "] (txt " too" ++ [nl])).
Proof.
  apply (every_occurrence_replaced (txt "/w") (txt "(/a)")
           [txt "**Inherits:** "; [nl] ++ txt "see "] (txt " too" ++ [nl]));
    compute_done.
Defined.

(** C3, as the specification has it, fails where the captured value
    occurs twice: a first-occurrence splice would leave the second
    [(/a)], the script rewrites both. *)
Lemma later_occurrence_replaced :
  let md := txt "**Inherits:** (/a)" ++ [nl] ++ txt "(/a)" ++ [nl] in
  parse_inherits md = Some (txt "(/a)")
  /\ replace_paths_with_empty_brackets (txt "/w") (txt "(/a)") = Ok (txt "(../../../a)")
  /\ Str.replace_first md (txt "(/a)") (txt "(../../../a)")
     = txt "**Inherits:** (../../../a)" ++ [nl] ++ txt "(/a)" ++ [nl]
  /\ modify_inherits (txt "/w") md
     = Ok (txt "**Inherits:** (../../../a)" ++ [nl] ++ txt "(../../../a)" ++ [nl])
  /\ modify_inherits (txt "/w") md
     <> Ok (Str.replace_first md (txt "(/a)") (txt "(../../../a)")).
Proof.
  repeat split; try (vm_compute; reflexivity).
  vm_compute. intros H. discriminate H.
Qed.

(** C6, as the script has it. When the captured value stands in the
    document once, with no occurrence before it and none after it, the
    text before and the text after are kept and the value alone is
    rewritten. *)
Theorem only_field_rewritten (cwd pre v post : text) :
  parse_inherits (pre ++ v ++ post) = Some v ->
  v <> [] ->
  Str.find (pre ++ v) v = Some (length pre) ->
  Str.find post v = None ->
  exists v',
    replace_paths_with_empty_brackets cwd v = Ok v'
    /\ modify_inherits cwd (pre ++ v ++ post) = Ok (pre ++ v' ++ post).
Proof.
  intros Hparse Hv Hpre Hpost.
  destruct (replace_paths_total cwd v) as [v' Hv'].
  exists v'. split; [exact Hv'|].
  rewrite (modify_inherits_some cwd _ v Hparse Hv), Hv'. simpl.
  rewrite replace_piece by assumption.
  rewrite replace_absent by exact Hpost. reflexivity.
Qed.

Lemma only_field_rewritten_witness :
  exists v',
    replace_paths_with_empty_brackets (txt "/w") (txt "[I](/src/X/I.md)") = Ok v'
    /\ modify_inherits (txt "/w")
         ((txt "See (/b)" ++ [nl] ++ txt "**Inherits:** ") ++ txt "[I](/src/X/I.md)"
          ++ ([nl] ++ txt "(/src/X/I.md)" ++ [nl]))
       = Ok ((txt "See (/b)" ++ [nl] ++ txt "**Inherits:** ") ++ v'
             ++ ([nl] ++ txt "(/src/X/I.md)" ++ [nl])).
Proof.
  apply (only_field_rewritten (txt "/w") (txt "See (/b)" ++ [nl] ++ txt "**Inherits:** ")
           (txt "[I](/src/X/I.md)") ([nl] ++ txt "(/src/X/I.md)" ++ [nl]));
    compute_done.
Defined.

(** C6, as the specification has it, fails when the captured value also
    stands outside the field: the reference in front of the label is
    rewritten with it, so no rewriting of the field alone gives the
    result. *)
Lemma reference_outside_field_rewritten :
  let before := txt "See (/a)" ++ [nl] in
  let md := before ++ marker ++ txt " " ++ txt "(/a)" ++ [nl] in
  parse_inherits md = Some (txt "(/a)")
  /\ modify_inherits (txt "/w") md
     = Ok (txt "See (../../../a)" ++ [nl] ++ marker ++ txt " " ++ txt "(../../../a)" ++ [nl])
  /\ ~ (exists v', modify_inherits (txt "/w") md
                   = Ok (before ++ marker ++ txt " " ++ v' ++ [nl])).
Proof.
  repeat split; try (vm_compute; reflexivity).
  intros [v' H]. vm_compute in H. discriminate H.
Qed.

(** ** What the label pattern captures *)
Section Capture.

(** A greedy run gives back nothing it took when the rest of the pattern
    matches behind the longest run. *)
Lemma star_greedy_longest {R : Type} (c : cls) (p q : text) (k : text -> option R) (x : R) :
  (forall a, a ∈ p -> cls_mem c a = true) ->
  star_greedy c q k = Some x -> star_greedy c (p ++ q) k = Some x.
Proof.
  intros Hp Hq. induction p as [|a p IH]; simpl; [exact Hq|].
  rewrite (Hp a) by left.
  rewrite IH; [reflexivity|]. intros b Hb. apply Hp. right. exact Hb.
Qed.

Lemma star_greedy_none {R : Type} (c : cls) (s : text) (k : text -> option R) :
  (forall s1 s2, s = s1 ++ s2 -> k s2 = None) -> star_greedy c s k = None.
Proof.
  induction s as [|a s IH]; intros Hk; simpl.
  - apply (Hk [] []). reflexivity.
  - rewrite IH by (intros s1 s2 ->; apply (Hk (a :: s1) s2); reflexivity).
    rewrite (Hk [] (a :: s)) by reflexivity. destruct (cls_mem c a); reflexivity.
Qed.

Lemma star_lazy_none {R : Type} (c : cls) (s : text) (k : text -> option R) :
  (forall s1 s2, s = s1 ++ s2 -> k s2 = None) -> star_lazy c s k = None.
Proof.
  induction s as [|a s IH]; intros Hk; simpl.
  - rewrite (Hk [] []) by reflexivity. reflexivity.
  - rewrite (Hk [] (a :: s)) by reflexivity.
    rewrite IH by (intros s1 s2 ->; apply (Hk (a :: s1) s2); reflexivity).
    destruct (cls_mem c a); reflexivity.
Qed.

(** A lazy run stops at the first place where the rest of the pattern
    matches. *)
Lemma star_lazy_first {R : Type} (c : cls) (p r : text) (k : text -> option R) :
  (forall a, a ∈ p -> cls_mem c a = true) ->
  (forall p1 p2, p = p1 ++ p2 -> p2 <> [] -> k (p2 ++ r) = None) ->
  star_lazy c (p ++ r) k = star_lazy c r k.
Proof.
  intros Hp Hk. induction p as [|a p IH]; [reflexivity|].
  change ((a :: p) ++ r) with (a :: p ++ r). cbn [star_lazy].
  change (a :: p ++ r) with ((a :: p) ++ r).
  rewrite (Hk [] (a :: p)) by (reflexivity || discriminate).
  rewrite (Hp a) by left. apply IH.
  - intros b Hb. apply Hp. right. exact Hb.
  - intros p1 p2 -> Hne. apply (Hk (a :: p1) p2); [reflexivity|exact Hne].
Qed.

Lemma star_lazy_here {R : Type} (c : cls) (s : text) (k : text -> option R) (x : R) :
  k s = Some x -> star_lazy c s k = Some x.
Proof. intros H. destruct s; simpl; rewrite H; reflexivity. Qed.

Lemma startswith_nl_other (a : ascii) (s : text) :
  a <> nl -> Str.startswith (a :: s) [nl] = false.
Proof. intros Ha. simpl. rewrite (eqb_false_of_ne _ _ Ha). reflexivity. Qed.

Lemma startswith_nl_absent (s1 s2 : text) :
  nl ∉ s1 ++ s2 -> Str.startswith s2 [nl] = false.
Proof.
  intros Hno. destruct s2 as [|a s2]; [reflexivity|].
  apply startswith_nl_other. intros ->. apply Hno.
  apply elem_of_app. right. left.
Qed.

Lemma startswith_nl_here (s : text) : Str.startswith (nl :: s) [nl] = true.
Proof. reflexivity. Qed.

Lemma isspace_nl : Str.isspace nl = true.
Proof. reflexivity. Qed.

(** The label, spaces, then a value that begins with a visible
    character and runs to the end of its line: the value is captured. *)
Lemma match_inherits_field (ws g post : text) (c : ascii) :
  (forall a, a ∈ ws -> Str.isspace a = true) ->
  Str.isspace c = false -> nl ∉ c :: g ->
  exists m, Re.match_ inherits_re (marker ++ ws ++ (c :: g) ++ nl :: post) = Some m
            /\ Re.group m 1 = Some (c :: g).
Proof.
  intros Hws Hc Hnl.
  unfold Re.match_, inherits_re. cbn [run]. rewrite startswith_app, drop_app_length.
  unfold star. eexists. split.
  - apply star_greedy_longest; [exact Hws|].
    cbn [star_greedy app]. cbn [cls_mem]. rewrite Hc.
    change (c :: g ++ nl :: post) with ((c :: g) ++ nl :: post).
    rewrite star_lazy_first.
    + apply star_lazy_here. cbv beta. rewrite startswith_nl_here. reflexivity.
    + intros a _. cbn [cls_mem]. destruct (Str.isspace a); reflexivity.
    + intros p1 p2 Heq Hne. destruct p2 as [|a p2]; [congruence|].
      cbn [app]. rewrite startswith_nl_other; [reflexivity|].
      intros ->. apply Hnl. rewrite Heq. apply elem_of_app. right. left.
  - unfold Re.group. cbn [groups app lookup list_lookup].
    f_equal. change (c :: g ++ nl :: post) with ((c :: g) ++ nl :: post).
    rewrite length_app.
    replace (length (c :: g) + length (nl :: post) - length (nl :: post))
      with (length (c :: g)) by lia.
    apply take_app_length.
Qed.

(** The label, then nothing but spaces up to a line break behind which
    no further line break comes: the engine gives the spaces back up to
    that line break and captures the empty text. *)
Lemma match_inherits_blank (ws rest : text) :
  (forall a, a ∈ ws -> Str.isspace a = true) ->
  nl ∉ rest ->
  exists m, Re.match_ inherits_re (marker ++ ws ++ nl :: rest) = Some m
            /\ Re.group m 1 = Some [].
Proof.
  intros Hws Hnl.
  unfold Re.match_, inherits_re. cbn [run]. rewrite startswith_app, drop_app_length.
  unfold star. eexists. split.
  - apply star_greedy_longest; [exact Hws|].
    cbn [star_greedy]. cbn [cls_mem]. rewrite isspace_nl.
    rewrite star_greedy_none.
    + apply star_lazy_here. cbv beta. rewrite startswith_nl_here. reflexivity.
    + intros s1 s2 ->. apply star_lazy_none.
      intros s3 s4 ->. cbn [run].
      rewrite (startswith_nl_absent (s1 ++ s3) s4); [reflexivity|].
      rewrite <- app_assoc. exact Hnl.
  - unfold Re.group. cbn [groups app lookup list_lookup].
    rewrite Nat.sub_diag. reflexivity.
Qed.

Lemma search_here (r : regex) (s : text) (m : mobj) :
  Re.match_ r s = Some m -> Re.search r s = Some m.
Proof. intros H. destruct s; cbn [Re.search]; rewrite H; reflexivity. Qed.

(** The search stops at the first occurrence of the label that is
    followed by a match. *)
Lemma search_first (pre rest : text) (m : mobj) :
  Str.find (pre ++ marker) marker = Some (length pre) ->
  Re.match_ inherits_re (marker ++ rest) = Some m ->
  Re.search inherits_re (pre ++ marker ++ rest) = Some m.
Proof.
  intros Hfind Hm. induction pre as [|c pre IH].
  - apply search_here, Hm.
  - cbn [Str.find app] in Hfind.
    destruct (Str.startswith (c :: pre ++ marker) marker) eqn:E; [discriminate|].
    destruct (Str.find (pre ++ marker) marker) as [i|] eqn:F; [|discriminate].
    injection Hfind as ->.
    change ((c :: pre) ++ marker ++ rest) with (c :: pre ++ marker ++ rest).
    cbn [Re.search]. rewrite match_needs_marker; [apply IH; reflexivity|].
    change (c :: pre ++ marker ++ rest) with ((c :: pre) ++ marker ++ rest).
    rewrite app_assoc, startswith_app_long; [exact E|].
    rewrite length_app. lia.
Qed.

Lemma parse_inherits_field (pre ws g post : text) (c : ascii) :
  Str.find (pre ++ marker) marker = Some (length pre) ->
  (forall a, a ∈ ws -> Str.isspace a = true) ->
  Str.isspace c = false -> nl ∉ c :: g ->
  parse_inherits (pre ++ marker ++ ws ++ (c :: g) ++ nl :: post) = Some (Str.strip (c :: g)).
Proof.
  intros Hfind Hws Hc Hnl.
  destruct (match_inherits_field ws g post c Hws Hc Hnl) as (m & Hm & Hg).
  unfold parse_inherits. rewrite (search_first pre _ m Hfind Hm), Hg. reflexivity.
Qed.

Lemma parse_inherits_blank (pre ws rest : text) :
  Str.find (pre ++ marker) marker = Some (length pre) ->
  (forall a, a ∈ ws -> Str.isspace a = true) ->
  nl ∉ rest ->
  parse_inherits (pre ++ marker ++ ws ++ nl :: rest) = Some [].
Proof.
  intros Hfind Hws Hnl.
  destruct (match_inherits_blank ws rest Hws Hnl) as (m & Hm & Hg).
  unfold parse_inherits. rewrite (search_first pre _ m Hfind Hm), Hg. reflexivity.
Qed.

End Capture.

(** C10. A captured value that is empty after stripping is never searched
    for: nothing is rewritten or printed and the text is returned as it
    is.  (With an empty search string, [str.replace] would put the new
    text in front of every character.) *)
Theorem empty_field_unchanged (cwd md g : text) (m : mobj) :
  Re.search inherits_re md = Some m ->
  Re.group m 1 = Some g ->
  Str.strip g = [] ->
  parse_inherits md = Some []
  /\ modify_inherits cwd md = Ok md
  /\ modify_inherits_output cwd md = [].
Proof.
  intros Hsearch Hgroup Hstrip.
  assert (Hparse : parse_inherits md = Some []).
  { unfold parse_inherits. rewrite Hsearch, Hgroup, Hstrip. reflexivity. }
  split; [exact Hparse|]. split.
  - apply modify_inherits_empty, Hparse.
  - unfold modify_inherits_output. rewrite Hparse. reflexivity.
Qed.

Lemma empty_field_unchanged_witness :
  let md := txt "**Inherits:**  " ++ [nl] ++ txt "  (/a)" in
  parse_inherits md = Some []
  /\ modify_inherits demo_cwd md = Ok md
  /\ modify_inherits_output demo_cwd md = [].
Proof.
  apply (empty_field_unchanged demo_cwd (txt "**Inherits:**  " ++ [nl] ++ txt "  (/a)") []
           {| group0 := txt "**Inherits:**  " ++ [nl]; groups := [[]] |});
    reflexivity.
Defined.

(** The documents of C10 by their shape: behind the label, spaces only
    up to the last line break of the document. *)
Lemma blank_field_unchanged (cwd pre ws rest : text) :
  Str.find (pre ++ marker) marker = Some (length pre) ->
  (forall a, a ∈ ws -> Str.isspace a = true) ->
  nl ∉ rest ->
  modify_inherits cwd (pre ++ marker ++ ws ++ nl :: rest)
  = Ok (pre ++ marker ++ ws ++ nl :: rest).
Proof.
  intros Hfind Hws Hnl. apply modify_inherits_empty.
  apply parse_inherits_blank; assumption.
Qed.

(** ** Path texts and the files behind them *)
Section Resolution.

Lemma files_lookup (w : world) (p : text) :
  files w !! p = inode_of w p ≫= (fun i => inodes w !! i).
Proof.
  unfold files. rewrite lookup_omap. unfold inode_of, chain.
  destruct (names w !! p) as [c|]; reflexivity.
Qed.

Lemma files_lookup_Some (w : world) (p : text) (f : file) :
  files w !! p = Some f ->
  exists i, inode_of w p = Some i /\ inodes w !! i = Some f.
Proof.
  rewrite files_lookup. destruct (inode_of w p) as [i|]; [|discriminate].
  intros H. exists i. split; [reflexivity|exact H].
Qed.

Lemma target_Some (w : world) (c : list nat) (i : nat) :
  target w c = Some i ->
  forallb (live w) c = true /\ exists e, last c = Some e /\ entries w !! e = Some i.
Proof.
  unfold target. destruct (forallb (live w) c); [|discriminate].
  destruct (last c) as [e|]; [|discriminate].
  intros H. split; [reflexivity|]. exists e. split; [reflexivity|exact H].
Qed.

Lemma inode_of_ino (w : world) (p : text) (i : nat) :
  inode_of w p = Some i -> ino w p = Some i.
Proof.
  intros H. apply target_Some in H as (_ & e & Hl & He).
  unfold ino. rewrite Hl. exact He.
Qed.

(** A path that leads to a file has an entry of its own, which is
    there. *)
Lemma inode_of_chain (w : world) (p : text) (i : nat) :
  inode_of w p = Some i -> exists e c, chain w p = e :: c /\ live w e = true.
Proof.
  intros H. apply target_Some in H as (Hall & e & Hl & _).
  destruct (chain w p) as [|x c]; [discriminate|].
  exists x, c. split; [reflexivity|].
  cbn [forallb] in Hall. apply andb_true_iff in Hall as [Hx _]. exact Hx.
Qed.

Lemma last_elem_of {A : Type} (l : list A) (x : A) : last l = Some x -> x ∈ l.
Proof.
  induction l as [|a l IH]; [discriminate|].
  destruct l as [|b l].
  - intros [= ->]. left.
  - intros H. right. apply IH. exact H.
Qed.

Lemma files_logs (w : world) (evs : list event) : files (logs w evs) = files w.
Proof. reflexivity. Qed.

Lemma logs_nil (w : world) : logs w [] = w.
Proof. destruct w. unfold logs. simpl. rewrite app_nil_r. reflexivity. Qed.

Lemma logs_logs (w : world) (a b : list event) : logs (logs w a) b = logs w (a ++ b).
Proof. unfold logs. simpl. rewrite app_assoc. reflexivity. Qed.

Lemma files_store_same (w : world) (i : nat) (f : file) (q : text) :
  inode_of w q = Some i -> files (store w i f) !! q = Some f.
Proof.
  intros H. rewrite files_lookup.
  change (inode_of (store w i f) q) with (inode_of w q). rewrite H.
  simpl. apply lookup_insert_eq.
Qed.

Lemma files_store_other (w : world) (i : nat) (f : file) (q : text) :
  inode_of w q <> Some i -> files (store w i f) !! q = files w !! q.
Proof.
  intros H. rewrite !files_lookup.
  change (inode_of (store w i f) q) with (inode_of w q).
  destruct (inode_of w q) as [j|]; [|reflexivity].
  simpl. apply lookup_insert_ne. congruence.
Qed.

Lemma live_unlink_ne (w : world) (e x : nat) :
  x <> e -> live (unlink w e) x = live w x.
Proof.
  intros H. unfold live. simpl. rewrite lookup_delete_ne by congruence. reflexivity.
Qed.

Lemma live_unlink_le (w : world) (e x : nat) :
  live (unlink w e) x = true -> live w x = true.
Proof.
  unfold live. simpl. intros H. apply bool_decide_eq_true in H.
  apply bool_decide_eq_true. destruct (decide (x = e)) as [->|Hne].
  - rewrite lookup_delete_eq in H. destruct H as [? H]. discriminate.
  - rewrite lookup_delete_ne in H by congruence. exact H.
Qed.

Lemma target_unlink_other (w : world) (e : nat) (c : list nat) :
  e ∉ c -> target (unlink w e) c = target w c.
Proof.
  intros He. unfold target.
  assert (Hall : forallb (live (unlink w e)) c = forallb (live w) c).
  { induction c as [|x c IH]; [reflexivity|]. cbn [forallb].
    rewrite live_unlink_ne by (intros ->; apply He; left).
    rewrite IH by (intros H; apply He; right; exact H). reflexivity. }
  rewrite Hall. destruct (forallb (live w) c); [|reflexivity].
  destruct (last c) as [x|] eqn:Hl; [|reflexivity].
  simpl. apply lookup_delete_ne. intros ->. apply He, last_elem_of, Hl.
Qed.

Lemma target_unlink_in (w : world) (e : nat) (c : list nat) :
  e ∈ c -> target (unlink w e) c = None.
Proof.
  intros He. unfold target.
  assert (Hall : forallb (live (unlink w e)) c = false).
  { induction c as [|x c IH]; [inversion He|]. cbn [forallb].
    destruct (decide (x = e)) as [->|Hne].
    - unfold live at 1. simpl. rewrite lookup_delete_eq.
      rewrite bool_decide_eq_false_2; [reflexivity|].
      intros [? H]. discriminate.
    - apply elem_of_cons in He as [->|He]; [congruence|].
      rewrite (IH He). apply andb_false_r. }
  rewrite Hall. reflexivity.
Qed.

Lemma target_unlink_le (w : world) (e : nat) (c : list nat) (j : nat) :
  target (unlink w e) c = Some j -> target w c = Some j.
Proof.
  intros H. destruct (decide (e ∈ c)) as [Hin|Hout].
  - rewrite (target_unlink_in w e c Hin) in H. discriminate.
  - rewrite (target_unlink_other w e c Hout) in H. exact H.
Qed.

Lemma files_unlink_own (w : world) (p : text) (e : nat) (c : list nat) :
  chain w p = e :: c -> files (unlink w e) !! p = None.
Proof.
  intros H. rewrite files_lookup. unfold inode_of.
  change (chain (unlink w e) p) with (chain w p). rewrite H.
  rewrite target_unlink_in by left. reflexivity.
Qed.

Lemma files_unlink_other (w : world) (q : text) (e : nat) :
  e ∉ chain w q -> files (unlink w e) !! q = files w !! q.
Proof.
  intros H. rewrite !files_lookup. unfold inode_of.
  change (chain (unlink w e) q) with (chain w q).
  rewrite target_unlink_other by exact H. reflexivity.
Qed.

Lemma files_unlink_le (w : world) (q : text) (e : nat) :
  files w !! q = None -> files (unlink w e) !! q = None.
Proof.
  rewrite !files_lookup. unfold inode_of.
  change (chain (unlink w e) q) with (chain w q). intros H.
  destruct (target (unlink w e) (chain w q)) as [j|] eqn:Ht; [|reflexivity].
  rewrite (target_unlink_le w e _ j Ht) in H. exact H.
Qed.

Lemma later_refl (w : world) : later w w.
Proof. split; [reflexivity|]. split; reflexivity. Qed.

Lemma later_trans (w0 w1 w2 : world) : later w0 w1 -> later w1 w2 -> later w0 w2.
Proof.
  intros (Hn1 & Hf1 & He1) (Hn2 & Hf2 & He2). repeat split.
  - congruence.
  - congruence.
  - etrans; eassumption.
Qed.

Lemma later_logs (w : world) (evs : list event) : later w (logs w evs).
Proof. exact (later_refl w). Qed.

Lemma later_store (w : world) (i : nat) (f : file) : later w (store w i f).
Proof. exact (later_refl w). Qed.

Lemma later_unlink (w : world) (e : nat) : later w (unlink w e).
Proof. split; [reflexivity|]. split; [reflexivity|]. simpl. apply delete_subseteq. Qed.

Lemma later_chain (w0 w : world) (p : text) : later w0 w -> chain w p = chain w0 p.
Proof. intros (Hn & _ & _). unfold chain. rewrite Hn. reflexivity. Qed.

Lemma later_ino (w0 w : world) (p : text) (i : nat) :
  later w0 w -> ino w p = Some i -> ino w0 p = Some i.
Proof.
  intros Hl. unfold ino. rewrite (later_chain w0 w p Hl).
  destruct Hl as (_ & _ & He).
  destruct (last (chain w0 p)) as [e|]; [|discriminate]. simpl.
  intros H. eapply lookup_weaken; eassumption.
Qed.

End Resolution.

(** ** The operations on files *)
Section Operations.

Lemma bind_inv {A B : Type} (m : io A) (k : A -> io B) (w w' : world) (r : result B) :
  bind m k w = (r, w') ->
  (exists a w1, m w = (Ok a, w1) /\ k a w1 = (r, w'))
  \/ (exists e, m w = (Raise e, w') /\ r = Raise e).
Proof.
  unfold bind. destruct (m w) as [[a|e] w1].
  - intros H. left. exists a, w1. split; [reflexivity|exact H].
  - intros [= <- <-]. right. exists e. split; reflexivity.
Qed.

(** Reading changes nothing; what is read is the text of a file that
    may be read. *)
Lemma read_file_inv (p : text) (w w' : world) (r : result text) :
  read_file p w = (r, w') ->
  w' = w
  /\ forall c, r = Ok c ->
       exists f, files w !! p = Some f /\ readable f = true /\ c = contents f
                 /\ read_fault (faults w) p = None.
Proof.
  unfold read_file. destruct (read_fault (faults w) p) as [e|] eqn:Hfault.
  - intros [= <- <-]. split; [reflexivity|]. intros c Hc. discriminate.
  - destruct (files w !! p) as [f|].
    + destruct (readable f) eqn:Hr; intros [= <- <-]; (split; [reflexivity|]);
        intros c Hc; [|discriminate].
      injection Hc as <-. exists f. repeat split. exact Hr.
    + intros [= <- <-]. split; [reflexivity|]. intros c Hc. discriminate.
Qed.

Lemma print_inv (line : text) (w w' : world) (r : result unit) :
  print line w = (r, w') ->
  (r = Ok tt /\ w' = log w (EvPrint line) /\ print_fault (faults w) line = None)
  \/ (exists e, r = Raise e /\ w' = w).
Proof.
  unfold print, emit. destruct (print_fault (faults w) line) as [e|].
  - intros [= <- <-]. right. exists e. split; reflexivity.
  - intros [= <- <-]. left. repeat split.
Qed.

(** A loop of [print]s adds the lines it gets to, in order. *)
Lemma prints_inv (ls : list text) (w w' : world) (r : result unit) :
  for_ ls print w = (r, w') ->
  exists k, w' = logs w (map EvPrint (take k ls))
            /\ (r = Ok tt ->
                take k ls = ls
                /\ forallb (fun line => bool_decide (print_fault (faults w) line = None)) ls
                   = true).
Proof.
  revert w. induction ls as [|l ls IH]; intros w H; cbn [for_] in H.
  - injection H as <- <-. exists 0%nat. split; [symmetry; apply logs_nil|].
    intros _. split; reflexivity.
  - apply bind_inv in H as [([] & w1 & Hp & H)|(e & Hp & ->)];
      apply print_inv in Hp as [(Hr & Hw & Hf)|(e' & Hr & Hw)]; try discriminate.
    + subst w1. destruct (IH _ H) as (k & -> & Hk).
      exists (S k). split.
      * change (log w (EvPrint l)) with (logs w [EvPrint l]).
        rewrite logs_logs. reflexivity.
      * intros Hok. destruct (Hk Hok) as [Ht Hall]. split.
        -- cbn [take]. rewrite Ht. reflexivity.
        -- cbn [forallb]. rewrite Hf.
           rewrite bool_decide_eq_true_2 by reflexivity. exact Hall.
    + subst w'. exists 0%nat. split; [symmetry; apply logs_nil|]. discriminate.
Qed.

Lemma prints_ok (ls : list text) (w : world) :
  forallb (fun line => bool_decide (print_fault (faults w) line = None)) ls = true ->
  for_ ls print w = (Ok tt, logs w (map EvPrint ls)).
Proof.
  revert w. induction ls as [|l ls IH]; intros w H; cbn [for_].
  - unfold ret. rewrite logs_nil. reflexivity.
  - cbn [forallb] in H. apply andb_true_iff in H as [Hl H].
    apply bool_decide_eq_true in Hl.
    unfold bind, print at 1, emit. rewrite Hl.
    rewrite (IH (log w (EvPrint l)) H).
    change (log w (EvPrint l)) with (logs w [EvPrint l]).
    rewrite logs_logs. reflexivity.
Qed.

(** Writing to a path that leads to a file: the file gets the new text,
    or is left as it was, or is left with what the write got to. *)
Lemma write_file_inv (p data : text) (w w' : world) (r : result unit) (i : nat) (f : file) :
  inode_of w p = Some i -> inodes w !! i = Some f ->
  write_file p data w = (r, w') ->
  (r = Ok tt /\ writable f = true /\ write_fault (faults w) p = None
   /\ w' = log (store w i {| contents := data; readable := readable f; writable := true |})
               (EvWrite p data))
  \/ (exists e, r = Raise e /\ w' = w)
  \/ (exists e rest,
        r = Raise e
        /\ w' = store w i {| contents := rest; readable := readable f; writable := true |}).
Proof.
  intros Hi Hf. unfold write_file. rewrite Hi, Hf.
  destruct (writable f) eqn:Hw.
  - destruct (write_fault (faults w) p) as [[e [rest|]]|].
    + intros [= <- <-]. right. right. exists e, rest. split; reflexivity.
    + intros [= <- <-]. right. left. exists e. split; reflexivity.
    + intros [= <- <-]. left. repeat split.
  - intros [= <- <-]. right. left. eexists. split; reflexivity.
Qed.

Lemma os_remove_inv (p : text) (w w' : world) (r : result unit) :
  os_remove p w = (r, w') ->
  (exists e c, r = Ok tt /\ chain w p = e :: c /\ remove_fault (faults w) p = None
               /\ w' = log (unlink w e) (EvRemove p))
  \/ (exists e, r = Raise e /\ w' = w).
Proof.
  unfold os_remove. destruct (remove_fault (faults w) p) as [e|].
  - intros [= <- <-]. right. exists e. split; reflexivity.
  - destruct (chain w p) as [|e c].
    + intros [= <- <-]. right. eexists. split; reflexivity.
    + destruct (live w e).
      * intros [= <- <-]. left. exists e, c. repeat split.
      * intros [= <- <-]. right. eexists. split; reflexivity.
Qed.

Lemma print_ok (line : text) (w : world) :
  print_fault (faults w) line = None -> print line w = (Ok tt, log w (EvPrint line)).
Proof. intros H. unfold print, emit. rewrite H. reflexivity. Qed.

Lemma write_file_ok (p data : text) (w : world) (i : nat) (f : file) :
  inode_of w p = Some i -> inodes w !! i = Some f ->
  writable f = true -> write_fault (faults w) p = None ->
  write_file p data w
  = (Ok tt,
     log (store w i {| contents := data; readable := readable f; writable := true |})
         (EvWrite p data)).
Proof. intros Hi Hf Hw Hfault. unfold write_file. rewrite Hi, Hf, Hw, Hfault. reflexivity. Qed.

Lemma os_remove_ok (p : text) (w : world) (e : nat) (c : list nat) :
  remove_fault (faults w) p = None -> chain w p = e :: c -> live w e = true ->
  os_remove p w = (Ok tt, log (unlink w e) (EvRemove p)).
Proof. intros Hfault Hc Hl. unfold os_remove. rewrite Hfault, Hc, Hl. reflexivity. Qed.

End Operations.

(** ** What a call can make of the world *)
Section Reach.
Variable p : text.

Lemma reach_prints (w0 w : world) (evs : list event) (ls : list text) :
  reach p w0 evs w ->
  reach p w0 (evs ++ map EvPrint ls) (logs w (map EvPrint ls)).
Proof.
  intros H. induction ls as [|l ls IH] using rev_ind.
  - simpl. rewrite app_nil_r, logs_nil. exact H.
  - rewrite map_app. cbn [map]. rewrite <- logs_logs, app_assoc.
    apply (reach_print p w0 _ _ l IH).
Qed.

Lemma reach_later (w w' : world) (evs : list event) : reach p w evs w' -> later w w'.
Proof.
  induction 1 as [|evs w1 line _ IH|evs w1 i f data _ IH _ _|evs w1 i f rest _ IH _ _
                  |evs w1 e c _ IH _].
  - apply later_refl.
  - exact IH.
  - exact IH.
  - exact IH.
  - apply (later_trans w w1 _ IH). exact (later_unlink w1 e).
Qed.

Lemma reach_trace (w w' : world) (evs : list event) :
  reach p w evs w' -> trace w' = trace w ++ evs.
Proof.
  induction 1 as [|evs w1 line _ IH|evs w1 i f data _ IH _ _|evs w1 i f rest _ IH _ _
                  |evs w1 e c _ IH _]; simpl.
  - symmetry. apply app_nil_r.
  - rewrite IH, app_assoc. reflexivity.
  - rewrite IH, app_assoc. reflexivity.
  - exact IH.
  - rewrite IH, app_assoc. reflexivity.
Qed.

(** The events of a call name no other path. *)
Lemma reach_paths (w w' : world) (evs : list event) :
  reach p w evs w' ->
  Forall (fun ev => forall q, event_path ev = Some q -> q = p) evs.
Proof.
  induction 1 as [|evs w1 line _ IH|evs w1 i f data _ IH _ _|evs w1 i f rest _ IH _ _
                  |evs w1 e c _ IH _].
  - constructor.
  - apply Forall_app. split; [exact IH|]. repeat constructor. intros q Hq. discriminate.
  - apply Forall_app. split; [exact IH|]. repeat constructor.
    intros q Hq. simpl in Hq. congruence.
  - exact IH.
  - apply Forall_app. split; [exact IH|]. repeat constructor.
    intros q Hq. simpl in Hq. congruence.
Qed.

(** A path that does not meet [p] shows what it showed. *)
Lemma reach_frame (w0 w w' : world) (evs : list event) (q : text) :
  later w0 w -> apart w0 p q = true ->
  reach p w evs w' -> files w' !! q = files w !! q.
Proof.
  intros Hl Hapart Hreach.
  unfold apart in Hapart. apply andb_true_iff in Hapart as [Hino Hent].
  assert (Hstore : forall w1 i f, later w0 w1 -> inode_of w1 p = Some i ->
                     files (store w1 i f) !! q = files w1 !! q).
  { intros w1 i f Hl1 Hi. apply files_store_other. intros Hq.
    apply inode_of_ino in Hi, Hq.
    apply (later_ino w0 w1 _ _ Hl1) in Hi, Hq.
    rewrite Hi in Hino. apply bool_decide_eq_true in Hino. contradiction. }
  induction Hreach as [|evs w1 line Hr IH|evs w1 i f data Hr IH Hi Hf
                       |evs w1 i f rest Hr IH Hi Hf|evs w1 e c Hr IH Hc].
  - reflexivity.
  - exact IH.
  - rewrite <- IH. apply (Hstore w1 i _); [|exact Hi].
    apply (later_trans w0 w w1 Hl), (reach_later w w1 evs Hr).
  - rewrite <- IH. apply (Hstore w1 i _); [|exact Hi].
    apply (later_trans w0 w w1 Hl), (reach_later w w1 evs Hr).
  - rewrite <- IH.
    assert (Hl1 : later w0 w1)
      by apply (later_trans w0 w w1 Hl), (reach_later w w1 evs Hr).
    change (files (log (unlink w1 e) (EvRemove p))) with (files (unlink w1 e)).
    apply files_unlink_other.
    rewrite (later_chain w0 w1 q Hl1).
    rewrite (later_chain w0 w1 p Hl1) in Hc. rewrite Hc in Hent.
    apply bool_decide_eq_true in Hent. exact Hent.
Qed.

(** A path that shows no file goes on showing none. *)
Lemma reach_absent (w w' : world) (evs : list event) (q : text) :
  reach p w evs w' -> files w !! q = None -> files w' !! q = None.
Proof.
  intros Hreach Hq.
  assert (Hstore : forall w1 i f f', inodes w1 !! i = Some f ->
                     files w1 !! q = None -> files (store w1 i f') !! q = None).
  { intros w1 i f f' Hf H1. rewrite files_store_other; [exact H1|].
    intros Hi. rewrite files_lookup, Hi in H1. simpl in H1. congruence. }
  induction Hreach as [|evs w1 line Hr IH|evs w1 i f data Hr IH Hi Hf
                       |evs w1 i f rest Hr IH Hi Hf|evs w1 e c Hr IH Hc].
  - exact Hq.
  - exact IH.
  - apply (Hstore w1 i f _ Hf IH).
  - apply (Hstore w1 i f _ Hf IH).
  - change (files (log (unlink w1 e) (EvRemove p))) with (files (unlink w1 e)).
    apply files_unlink_le, IH.
Qed.

(** As long as nothing is removed, a path that shows a file goes on
    showing one. *)
Lemma reach_kept (w w' : world) (evs : list event) (q : text) :
  reach p w evs w' -> EvRemove p ∉ evs ->
  is_Some (files w !! q) -> is_Some (files w' !! q).
Proof.
  intros Hreach Hno Hq.
  assert (Hstore : forall w1 i f', is_Some (files w1 !! q) ->
                     is_Some (files (store w1 i f') !! q)).
  { intros w1 i f' H1. destruct (decide (inode_of w1 q = Some i)) as [Hi|Hi].
    - rewrite (files_store_same w1 i f' q Hi). eexists. reflexivity.
    - rewrite (files_store_other w1 i f' q Hi). exact H1. }
  induction Hreach as [|evs w1 line Hr IH|evs w1 i f data Hr IH Hi Hf
                       |evs w1 i f rest Hr IH Hi Hf|evs w1 e c Hr IH Hc].
  - exact Hq.
  - apply IH. intros H. apply Hno, elem_of_app. left. exact H.
  - apply (Hstore w1 i _). apply IH. intros H. apply Hno, elem_of_app. left. exact H.
  - apply (Hstore w1 i _). apply IH, Hno.
  - exfalso. apply Hno, elem_of_app. right. left.
Qed.

End Reach.

(** ** One file *)
Section OneFile.
Variable cwd : text.

(** A call that returns has read the file, written the rewritten text
    and, for a name to delete, removed the file. *)
Lemma process_done (p : text) (w w' : world) :
  process_md_file cwd p w = (Ok tt, w') ->
  exists f c',
    files w !! p = Some f /\ readable f = true /\ writable f = true
    /\ modify_inherits cwd (contents f) = Ok c'
    /\ files w' !! p
       = (if deleted_name p then None
          else Some {| contents := c'; readable := true; writable := true |})
    /\ trace w' = trace w ++ full_run cwd p (contents f) c'
    /\ can_rewrite cwd w p = true.
Proof.
  intros H. unfold process_md_file in H.
  apply bind_inv in H as [(md & w1 & Hread & H)|(e & _ & He)]; [|discriminate].
  apply read_file_inv in Hread as [-> Hmd].
  destruct (Hmd md eq_refl) as (f & Hf & Hr & -> & Hrd).
  destruct (files_lookup_Some w p f Hf) as (i & Hi & Hino).
  destruct (modify_inherits_total cwd (contents f)) as [c' Hc].
  apply bind_inv in H as [([] & w2 & Hprints & H)|(e & _ & He)]; [|discriminate].
  apply prints_inv in Hprints as (k & -> & Hk). destruct (Hk eq_refl) as [Hk' Hpr1].
  rewrite Hk' in H. clear k Hk Hk'.
  apply bind_inv in H as [(c'' & w3 & Hl & H)|(e & _ & He)]; [|discriminate].
  rewrite Hc in Hl. unfold lift, ret in Hl. injection Hl as <- <-.
  apply bind_inv in H as [([] & w4 & Hwrite & H)|(e & _ & He)]; [|discriminate].
  apply (write_file_inv p c' (logs w _) _ _ i f Hi Hino) in Hwrite
    as [(_ & Hw & Hwr & ->)|[(e & He & _)|(e & rest & He & _)]]; try discriminate.
  apply bind_inv in H as [([] & w5 & Hprint & H)|(e & _ & He)]; [|discriminate].
  apply print_inv in Hprint as [(_ & -> & Hpr2)|(e & He & _)]; [|discriminate].
  exists f, c'. split; [exact Hf|]. split; [exact Hr|]. split; [exact Hw|].
  split; [exact Hc|].
  assert (Hcan : forall b : bool,
            (if deleted_name p
             then bool_decide (print_fault (faults w) (txt "Deleted file: " ++ p) = None)
                  && bool_decide (remove_fault (faults w) p = None)
             else true) = b ->
            b = true -> can_rewrite cwd w p = true).
  { change (write_fault (faults w) p = None) in Hwr.
    change (print_fault (faults w) (txt "File modified: " ++ p) = None) in Hpr2.
    intros b Hb ->. unfold can_rewrite, unhindered. rewrite Hf, Hr, Hw, Hrd, Hwr.
    rewrite forallb_app, Hpr1. cbn [app forallb]. rewrite Hpr2.
    rewrite !bool_decide_eq_true_2 by reflexivity.
    destruct (deleted_name p); [|reflexivity].
    apply andb_true_iff in Hb as [Hb1 Hb2]. cbn [forallb]. rewrite Hb1, Hb2. reflexivity. }
  unfold full_run. destruct (deleted_name p).
  - apply bind_inv in H as [([] & w6 & Hrm & H)|(e & _ & He)]; [|discriminate].
    apply os_remove_inv in Hrm as [(e & c & _ & Hchain & Hrm & ->)|(e & He & _)];
      [|discriminate].
    apply print_inv in H as [(_ & -> & Hpr3)|(e' & He & _)]; [|discriminate].
    split; [|split].
    + exact (files_unlink_own _ p e c Hchain).
    + simpl. rewrite <- !app_assoc. reflexivity.
    + apply (Hcan _ eq_refl). apply andb_true_iff.
      split; apply bool_decide_eq_true; [exact Hpr3|exact Hrm].
  - unfold ret in H. injection H as <-. split; [|split].
    + rewrite Hr.
      exact (files_store_same (logs w (map EvPrint (modify_inherits_output cwd (contents f))))
               i _ p Hi).
    + simpl. rewrite <- !app_assoc. reflexivity.
    + apply (Hcan _ eq_refl). reflexivity.
Qed.

(** However a call ends, it got to the world it ends in by steps on its
    own path, and the events it added are the first ones of a call that
    nothing stops. *)
Lemma process_reach (p : text) (w w' : world) (r : result unit) :
  process_md_file cwd p w = (r, w') ->
  exists evs,
    reach p w evs w'
    /\ (files w !! p = None -> w' = w)
    /\ (forall f, files w !! p = Some f ->
          exists c' more,
            modify_inherits cwd (contents f) = Ok c'
            /\ full_run cwd p (contents f) c' = evs ++ more
            /\ (r = Ok tt -> more = [])).
Proof.
  intros H. unfold process_md_file in H.
  apply bind_inv in H as [(md & w1 & Hread & H)|(e & Hread & ->)];
    apply read_file_inv in Hread as [-> Hmd].
  2: { exists []. split; [constructor|]. split; [reflexivity|].
       intros f Hf. destruct (modify_inherits_total cwd (contents f)) as [c' Hc].
       exists c', (full_run cwd p (contents f) c').
       split; [exact Hc|]. split; [reflexivity|discriminate]. }
  destruct (Hmd md eq_refl) as (f & Hf & Hr & -> & _).
  destruct (files_lookup_Some w p f Hf) as (i & Hi & Hino).
  destruct (modify_inherits_total cwd (contents f)) as [c' Hc].
  set (outs := modify_inherits_output cwd (contents f)) in *.
  assert (Hgoal : exists evs more,
            reach p w evs w'
            /\ full_run cwd p (contents f) c' = evs ++ more
            /\ (r = Ok tt -> more = [])).
  2: { destruct Hgoal as (evs & more & Hreach & Hfull & Hmore).
       exists evs. split; [exact Hreach|]. split; [congruence|].
       intros f' Hf'. rewrite Hf in Hf'. injection Hf' as <-.
       exists c', more. split; [exact Hc|]. split; [exact Hfull|exact Hmore]. }
  unfold full_run. fold outs.
  apply bind_inv in H as [([] & w2 & Hprints & H)|(e & Hprints & ->)];
    apply prints_inv in Hprints as (k & -> & Hk).
  2: { eexists (map EvPrint (take k outs)), _.
       split; [apply (reach_prints p w w [] (take k outs)), reach_refl|].
       split; [|discriminate].
       rewrite <- (take_drop k outs) at 1. rewrite map_app, <- app_assoc. reflexivity. }
  destruct (Hk eq_refl) as [Hk' _]. rewrite Hk' in H. clear k Hk Hk'.
  pose proof (reach_prints p w w [] outs (reach_refl p w)) as R1. simpl in R1.
  apply bind_inv in H as [(c'' & w3 & Hl & H)|(e & Hl & _)];
    rewrite Hc in Hl; unfold lift, ret in Hl; [|discriminate].
  injection Hl as <- <-.
  apply bind_inv in H as [([] & w4 & Hwrite & H)|(e & Hwrite & ->)];
    apply (write_file_inv p c' (logs w _) _ _ i f Hi Hino) in Hwrite
    as [(Hok & Hw & _ & ->)|[(e' & He & ->)|(e' & rest & He & ->)]]; try discriminate.
  2: { eexists (map EvPrint outs), _. split; [exact R1|]. split; [reflexivity|discriminate]. }
  2: { eexists (map EvPrint outs), _.
       split; [exact (reach_torn p w _ _ i f rest R1 Hi Hino)|].
       split; [reflexivity|discriminate]. }
  pose proof (reach_write p w _ _ i f c' R1 Hi Hino) as R2.
  apply bind_inv in H as [([] & w5 & Hprint & H)|(e & Hprint & ->)];
    apply print_inv in Hprint as [(Hok1 & -> & _)|(e' & He & ->)]; try discriminate.
  2: { eexists (map EvPrint outs ++ [EvWrite p c']), _. split; [exact R2|].
       split; [rewrite <- app_assoc; reflexivity|discriminate]. }
  pose proof (reach_print p w _ _ (txt "File modified: " ++ p) R2) as R3.
  destruct (deleted_name p).
  - apply bind_inv in H as [([] & w6 & Hrm & H)|(e & Hrm & ->)];
      apply os_remove_inv in Hrm as [(e1 & c & Hok2 & Hchain & _ & ->)|(e' & He & ->)];
      try discriminate.
    2: { eexists _, _. split; [exact R3|].
         split; [rewrite <- !app_assoc; reflexivity|discriminate]. }
    pose proof (reach_remove p w _ _ e1 c R3 Hchain) as R4.
    apply print_inv in H as [(-> & -> & _)|(e' & -> & ->)].
    + eexists _, []. split; [exact (reach_print p w _ _ _ R4)|].
      split; [|reflexivity]. rewrite <- !app_assoc. reflexivity.
    + eexists _, _. split; [exact R4|].
      split; [rewrite <- !app_assoc; reflexivity|discriminate].
  - unfold ret in H. injection H as <- <-.
    eexists _, []. split; [exact R3|]. split; [|reflexivity].
    rewrite <- !app_assoc. reflexivity.
Qed.

Lemma can_rewrite_inv (w : world) (p : text) :
  can_rewrite cwd w p = true ->
  exists f, files w !! p = Some f /\ readable f = true /\ writable f = true
            /\ unhindered cwd w p (contents f) = true.
Proof.
  unfold can_rewrite. destruct (files w !! p) as [f|]; [|discriminate].
  intros H. apply andb_true_iff in H as [H Hu]. apply andb_true_iff in H as [Hr Hw].
  exists f. repeat split; assumption.
Qed.

(** Nothing stops a call on a file that can be rewritten. *)
Lemma process_succeeds (p : text) (w : world) :
  can_rewrite cwd w p = true -> exists w', process_md_file cwd p w = (Ok tt, w').
Proof.
  intros Hcan. destruct (can_rewrite_inv w p Hcan) as (f & Hf & Hr & Hw & Hu).
  unfold unhindered in Hu.
  apply andb_true_iff in Hu as [Hu Hrm]. apply andb_true_iff in Hu as [Hu Hpr].
  apply andb_true_iff in Hu as [Hrd Hwr].
  apply bool_decide_eq_true in Hrd, Hwr.
  rewrite forallb_app in Hpr. apply andb_true_iff in Hpr as [Hpr1 Hpr2].
  cbn [app forallb] in Hpr2. apply andb_true_iff in Hpr2 as [Hpr2 Hpr3].
  apply bool_decide_eq_true in Hpr2.
  destruct (files_lookup_Some w p f Hf) as (i & Hi & Hino).
  destruct (inode_of_chain w p i Hi) as (e & c & Hchain & Hlive).
  destruct (modify_inherits_total cwd (contents f)) as [c' Hc].
  unfold process_md_file, bind at 1, read_file. rewrite Hrd, Hf, Hr.
  unfold bind at 1. rewrite (prints_ok _ w Hpr1).
  unfold bind at 1. rewrite Hc. unfold lift, ret at 1.
  set (w2 := logs w _).
  unfold bind at 1. rewrite (write_file_ok p c' w2 i f Hi Hino Hw Hwr).
  set (w3 := log _ _).
  unfold bind at 1. rewrite (print_ok _ w3 Hpr2).
  set (w4 := log _ _).
  destruct (deleted_name p).
  - cbn [forallb] in Hpr3. apply andb_true_iff in Hpr3 as [Hpr3 _].
    apply bool_decide_eq_true in Hpr3, Hrm.
    unfold bind. rewrite (os_remove_ok p w4 e c Hrm Hchain Hlive).
    set (w5 := log _ _). rewrite (print_ok _ w5 Hpr3).
    eexists. reflexivity.
  - eexists. reflexivity.
Qed.

End OneFile.

(** ** The batch *)
Section Batch.
Variable cwd : text.

Lemma for_ext {A : Type} (l : list A) (b1 b2 : A -> io unit) (w : world) :
  (forall x w', b1 x w' = b2 x w') -> for_ l b1 w = for_ l b2 w.
Proof.
  intros Hb. revert w. induction l as [|x l IH]; intros w; simpl; [reflexivity|].
  unfold bind. rewrite Hb. destruct (b2 x w) as [[[]|e] w']; [apply IH|reflexivity].
Qed.

Lemma for_app {A : Type} (l1 l2 : list A) (body : A -> io unit) (w : world) :
  for_ (l1 ++ l2) body w = (for_ l1 body >> for_ l2 body) w.
Proof.
  revert w. induction l1 as [|x l1 IH]; intros w; simpl.
  - reflexivity.
  - unfold bind. destruct (body x w) as [[[]|e] w']; [|reflexivity].
    rewrite IH. reflexivity.
Qed.

Lemma for_flat_map {A B : Type} (l : list A) (h : A -> list B) (body : B -> io unit)
      (w : world) :
  for_ l (fun x => for_ (h x) body) w = for_ (flat_map h l) body w.
Proof.
  revert w. induction l as [|x l IH]; intros w; simpl; [reflexivity|].
  rewrite for_app. unfold bind.
  destruct (for_ (h x) body w) as [[[]|e] w']; [apply IH|reflexivity].
Qed.

Lemma for_filter_map {A B : Type} (P : A -> bool) (g : A -> B) (l : list A)
      (body : B -> io unit) (w : world) :
  for_ l (fun x => if P x then body (g x) else ret tt) w
  = for_ (map g (filter (fun x => P x = true) l)) body w.
Proof.
  revert w. induction l as [|x l IH]; intros w; simpl; [reflexivity|].
  rewrite filter_cons. destruct (P x) eqn:E.
  - destruct (decide (true = true)) as [_|Hn]; [|congruence].
    simpl. unfold bind. destruct (body (g x) w) as [[[]|e] w']; [apply IH|reflexivity].
  - destruct (decide (false = true)); [discriminate|].
    unfold bind, ret. apply IH.
Qed.

(** The two loops of [process_all_md_files] are one loop over
    [md_paths]. *)
Lemma process_all_md_paths (directory : text) (t : dirtree) (w : world) :
  process_all_md_files cwd directory t w
  = for_ (md_paths directory t) (process_md_file cwd) w.
Proof.
  unfold process_all_md_files, md_paths.
  rewrite <- for_flat_map. apply for_ext.
  intros [[root dirs] fnames] w'. apply for_filter_map.
Qed.

(** An exception in the loop ends it in the world it was raised in. *)
Lemma for_raise {A : Type} (l1 l2 : list A) (x : A) (body : A -> io unit)
      (w w1 w2 : world) (e : exn) :
  for_ l1 body w = (Ok tt, w1) -> body x w1 = (Raise e, w2) ->
  for_ (l1 ++ x :: l2) body w = (Raise e, w2).
Proof.
  intros H1 H2. rewrite for_app. unfold bind at 1. rewrite H1.
  simpl. unfold bind. rewrite H2. reflexivity.
Qed.

Lemma process_later (w0 w w' : world) (p : text) (r : result unit) :
  later w0 w -> process_md_file cwd p w = (r, w') -> later w0 w'.
Proof.
  intros Hl Hrun. destruct (process_reach cwd p w w' r Hrun) as (evs & Hreach & _).
  apply (later_trans w0 w w' Hl), (reach_later p w w' evs Hreach).
Qed.

Lemma process_frame (w0 w w' : world) (p q : text) (r : result unit) :
  later w0 w -> apart w0 p q = true ->
  process_md_file cwd p w = (r, w') -> files w' !! q = files w !! q.
Proof.
  intros Hl Hapart Hrun.
  destruct (process_reach cwd p w w' r Hrun) as (evs & Hreach & _).
  exact (reach_frame p w0 w w' evs q Hl Hapart Hreach).
Qed.

Lemma process_absent (w w' : world) (p q : text) (r : result unit) :
  process_md_file cwd p w = (r, w') -> files w !! q = None -> files w' !! q = None.
Proof.
  intros Hrun. destruct (process_reach cwd p w w' r Hrun) as (evs & Hreach & _).
  exact (reach_absent p w w' evs q Hreach).
Qed.

Lemma process_trace (p : text) (w w' : world) (r : result unit) :
  process_md_file cwd p w = (r, w') ->
  exists evs, trace w' = trace w ++ evs
              /\ Forall (fun e => forall q, event_path e = Some q -> q = p) evs.
Proof.
  intros Hrun. destruct (process_reach cwd p w w' r Hrun) as (evs & Hreach & _).
  exists evs. split; [exact (reach_trace p w w' evs Hreach)|].
  exact (reach_paths p w w' evs Hreach).
Qed.

Lemma for_later (l : list text) (w0 w w' : world) (r : result unit) :
  later w0 w -> for_ l (process_md_file cwd) w = (r, w') -> later w0 w'.
Proof.
  revert w. induction l as [|p l IH]; intros w Hl Hrun; cbn [for_] in Hrun.
  - injection Hrun as _ <-. exact Hl.
  - apply bind_inv in Hrun as [([] & w1 & Hp & Hrun)|(e & Hp & _)].
    + apply (IH w1); [|exact Hrun]. exact (process_later w0 w w1 p _ Hl Hp).
    + exact (process_later w0 w w' p _ Hl Hp).
Qed.

(** A path that meets none of the paths of the loop shows what it
    showed. *)
Lemma for_frame (l : list text) (w0 w w' : world) (r : result unit) (q : text) :
  later w0 w -> forallb (fun p => apart w0 p q) l = true ->
  for_ l (process_md_file cwd) w = (r, w') ->
  files w' !! q = files w !! q.
Proof.
  revert w. induction l as [|p l IH]; intros w Hl Hall Hrun; cbn [for_] in Hrun.
  - injection Hrun as _ <-. reflexivity.
  - cbn [forallb] in Hall. apply andb_true_iff in Hall as [Hp Hall].
    apply bind_inv in Hrun as [([] & w1 & Hrun1 & Hrun)|(e & Hrun1 & _)].
    + rewrite (IH w1 (process_later w0 w w1 p _ Hl Hrun1) Hall Hrun).
      exact (process_frame w0 w w1 p q _ Hl Hp Hrun1).
    + exact (process_frame w0 w w' p q _ Hl Hp Hrun1).
Qed.

(** A path that shows no file shows none after the loop. *)
Lemma for_absent (l : list text) (q : text) (w w' : world) (r : result unit) :
  for_ l (process_md_file cwd) w = (r, w') -> files w !! q = None ->
  files w' !! q = None.
Proof.
  revert w. induction l as [|p l IH]; intros w Hrun Hq; cbn [for_] in Hrun.
  - injection Hrun as _ <-. exact Hq.
  - apply bind_inv in Hrun as [([] & w1 & Hp & Hrun)|(e & Hp & _)].
    + apply (IH w1 Hrun). exact (process_absent w w1 p q _ Hp Hq).
    + exact (process_absent w w' p q _ Hp Hq).
Qed.

Lemma for_process_deleted (l : list text) (p : text) (w w' : world) :
  for_ l (process_md_file cwd) w = (Ok tt, w') -> p ∈ l -> deleted_name p = true ->
  files w' !! p = None.
Proof.
  revert w. induction l as [|q l IH]; intros w Hrun Hin Hdel; cbn [for_] in Hrun.
  - apply elem_of_nil in Hin. contradiction.
  - apply bind_inv in Hrun as [([] & w1 & Hq & Hrun)|(e & _ & He)]; [|discriminate].
    destruct (decide (p = q)) as [->|Hne].
    + apply (for_absent l q w1 w' _ Hrun).
      destruct (process_done cwd q w w1 Hq) as (f & c' & _ & _ & _ & _ & Hfile & _ & _).
      rewrite Hdel in Hfile. exact Hfile.
    + apply elem_of_cons in Hin as [Heq|Hin]; [congruence|].
      apply (IH w1 Hrun Hin Hdel).
Qed.

(** In a loop that ends without exception, a file that no other path of
    the loop meets holds its rewritten text at the end, or is gone when
    its name says so. *)
Lemma for_processed (a b : list text) (q : text) (w0 w w' : world) (f : file) :
  later w0 w ->
  for_ (a ++ q :: b) (process_md_file cwd) w = (Ok tt, w') ->
  files w !! q = Some f ->
  forallb (fun x => apart w0 x q) (a ++ b) = true ->
  exists c', modify_inherits cwd (contents f) = Ok c'
             /\ files w' !! q
                = (if deleted_name q then None
                   else Some {| contents := c'; readable := true; writable := true |}).
Proof.
  revert w. induction a as [|x a IH]; intros w Hl Hrun Hf Hall.
  - cbn [app for_] in Hrun.
    apply bind_inv in Hrun as [([] & w1 & Hq & Hrun)|(e & _ & He)]; [|discriminate].
    destruct (process_done cwd q w w1 Hq) as (f' & c' & Hf' & _ & _ & Hc & Hfile & _ & _).
    rewrite Hf in Hf'. injection Hf' as <-.
    exists c'. split; [exact Hc|].
    rewrite <- Hfile.
    exact (for_frame b w0 w1 w' _ q (process_later w0 w w1 q _ Hl Hq) Hall Hrun).
  - cbn [app for_] in Hrun. cbn [app forallb] in Hall.
    apply andb_true_iff in Hall as [Hx Hall].
    apply bind_inv in Hrun as [([] & w1 & Hrun1 & Hrun)|(e & _ & He)]; [|discriminate].
    apply (IH w1 (process_later w0 w w1 x _ Hl Hrun1) Hrun); [|exact Hall].
    rewrite (process_frame w0 w w1 x q _ Hl Hx Hrun1). exact Hf.
Qed.

Lemma for_process_trace (l : list text) (w w' : world) (r : result unit) :
  for_ l (process_md_file cwd) w = (r, w') ->
  exists evs, trace w' = trace w ++ evs
              /\ Forall (fun e => forall q, event_path e = Some q -> q ∈ l) evs.
Proof.
  revert w. induction l as [|p l IH]; intros w Hrun; cbn [for_] in Hrun.
  - injection Hrun as _ <-. exists []. split; [symmetry; apply app_nil_r|constructor].
  - apply bind_inv in Hrun as [([] & w1 & Hp & Hrun)|(e & Hp & _)].
    + destruct (process_trace p w w1 _ Hp) as (ev1 & Ht1 & H1).
      destruct (IH w1 Hrun) as (ev2 & Ht2 & H2).
      exists (ev1 ++ ev2). split; [rewrite Ht2, Ht1, app_assoc; reflexivity|].
      apply Forall_app. split.
      * eapply Forall_impl; [exact H1|]. intros ev Hev q Hq. rewrite (Hev q Hq). left.
      * eapply Forall_impl; [exact H2|]. intros ev Hev q Hq. right. exact (Hev q Hq).
    + destruct (process_trace p w w' _ Hp) as (ev1 & Ht1 & H1).
      exists ev1. split; [exact Ht1|].
      eapply Forall_impl; [exact H1|]. intros ev Hev q Hq. rewrite (Hev q Hq). left.
Qed.





End Batch.

(** ** File names *)
Section Names.

Lemma join_name (root file : text) :
  slash ∉ file ->
  exists c', OsPath.join root file = c' ++ file
             /\ (c' = [] \/ exists c'', c' = c'' ++ [slash]).
Proof.
  intros Hno.
  assert (Hrel : isabs file = false).
  { destruct file as [|a file]; [reflexivity|].
    apply isabs_cons. intros ->. apply Hno. left. }
  destruct root as [|c root].
  - exists []. split; [|left; reflexivity].
    unfold OsPath.join. unfold isabs in Hrel. rewrite Hrel. reflexivity.
  - destruct (join_relative (c :: root)) as [c' Hc']; [discriminate|].
    exists (c' ++ [slash]). split; [|right; exists c'; reflexivity].
    rewrite Hc' by exact Hrel. rewrite <- app_assoc. reflexivity.
Qed.

(** The base name of a joined path is the name that was joined. *)
Lemma basename_join (root file : text) :
  slash ∉ file -> basename (OsPath.join root file) = file.
Proof.
  intros Hno. destruct (join_name root file Hno) as (c' & -> & [->|[c'' ->]]).
  - unfold basename. simpl. rewrite split_no_sep by exact Hno. reflexivity.
  - unfold basename. rewrite <- app_assoc. simpl.
    rewrite split_app_sep, (split_no_sep slash file Hno).
    rewrite rev_app_distr. reflexivity.
Qed.

Lemma lower_keeps_slash (s : text) : slash ∈ s -> slash ∈ Str.lower s.
Proof.
  intros H. unfold Str.lower.
  change (Str.lower_char slash ∈ map Str.lower_char s).
  apply list_elem_of_fmap_2. exact H.
Qed.

Lemma deleted_name_no_slash (file : text) :
  Str.lower file ∈ delete_names -> slash ∉ file.
Proof.
  intros Hin Hslash. apply lower_keeps_slash in Hslash.
  unfold delete_names in Hin.
  apply elem_of_cons in Hin as [Heq|Hin].
  - rewrite Heq in Hslash. revert Hslash. compute_done.
  - apply list_elem_of_singleton in Hin. rewrite Hin in Hslash.
    revert Hslash. compute_done.
Qed.

Lemma deleted_name_join (root file : text) :
  Str.lower file ∈ delete_names -> deleted_name (OsPath.join root file) = true.
Proof.
  intros Hin. unfold deleted_name.
  rewrite basename_join by (apply deleted_name_no_slash, Hin).
  apply bool_decide_eq_true. exact Hin.
Qed.

Lemma md_paths_member (directory : text) (t : dirtree) (root file : text)
      (dirs fnames : list text) :
  (root, dirs, fnames) ∈ os_walk directory t -> file ∈ fnames ->
  Str.endswith file (txt ".md") = true ->
  OsPath.join root file ∈ md_paths directory t.
Proof.
  intros Hwalk Hfile Hmd. unfold md_paths.
  apply list_elem_of_In, in_flat_map.
  exists (root, dirs, fnames). split; [apply list_elem_of_In, Hwalk|].
  apply list_elem_of_In, list_elem_of_fmap_2, list_elem_of_filter.
  split; assumption.
Qed.

End Names.

(** ** The claims about files *)

Lemma full_run_no_remove (cwd p c c' : text) :
  deleted_name p = false -> EvRemove p ∉ full_run cwd p c c'.
Proof.
  intros Hdel Hin. unfold full_run in Hin. rewrite Hdel in Hin.
  apply elem_of_app in Hin as [Hin|Hin].
  - apply list_elem_of_fmap in Hin as (l & Hl & _). discriminate.
  - apply elem_of_app in Hin as [Hin|Hin]; [|inversion Hin].
    apply elem_of_cons in Hin as [Hin|Hin]; [discriminate|].
    apply list_elem_of_singleton in Hin. discriminate.
Qed.

(** C4. A text without the label is returned as it is.  Its file is not
    deleted unless the name alone asks for it, however the call on it
    ends: with a name that is not to be deleted the path shows a file
    afterwards; and when the call returns, the file is as it was, or
    gone when the name is to be deleted. *)
Theorem no_label_no_change (cwd md p : text) (w w' : world) (f : file) (r : result unit) :
  Str.find md marker = None ->
  files w !! p = Some f -> contents f = md ->
  process_md_file cwd p w = (r, w') ->
  modify_inherits cwd md = Ok md
  /\ (deleted_name p = false -> exists f', files w' !! p = Some f')
  /\ (r = Ok tt -> files w' !! p = (if deleted_name p then None else Some f)).
Proof.
  intros Hfind Hp Hmd Hrun.
  assert (Hmod : modify_inherits cwd md = Ok md)
    by (apply modify_inherits_none, parse_needs_marker, Hfind).
  split; [exact Hmod|]. split.
  - intros Hdel.
    destruct (process_reach cwd p w w' r Hrun) as (evs & Hreach & _ & Hevs).
    destruct (Hevs f Hp) as (c' & more & _ & Hfull & _).
    apply (reach_kept p w w' evs p Hreach); [|rewrite Hp; eexists; reflexivity].
    intros Hin. apply (full_run_no_remove cwd p (contents f) c' Hdel).
    rewrite Hfull. apply elem_of_app. left. exact Hin.
  - intros ->.
    destruct (process_done cwd p w w' Hrun) as (f' & c' & Hf' & Hr & Hw & Hc & Hfile & _).
    rewrite Hp in Hf'. injection Hf' as <-.
    rewrite Hmd, Hmod in Hc. injection Hc as <-.
    rewrite Hfile. destruct (deleted_name p); [reflexivity|].
    destruct f as [c rd wr]. simpl in *. subst. reflexivity.
Qed.

Lemma no_label_no_change_witness :
  let p := txt "docs/notes.md" in
  let w' := snd (process_md_file demo_cwd p demo_world) in
  modify_inherits demo_cwd (txt "hello" ++ [nl]) = Ok (txt "hello" ++ [nl])
  /\ (deleted_name p = false -> exists f', files w' !! p = Some f')
  /\ (Ok tt = Ok tt ->
      files w' !! p
      = (if deleted_name p then None else Some (plain_file (txt "hello" ++ [nl])))).
Proof.
  apply (no_label_no_change demo_cwd (txt "hello" ++ [nl]) (txt "docs/notes.md")
           demo_world (snd (process_md_file demo_cwd (txt "docs/notes.md") demo_world))
           (plain_file (txt "hello" ++ [nl])) (Ok tt)); compute_done.
Defined.

(** C7, as the script has it. Without the label the text is kept, but
    the file is written all the same: a call that returns has written
    the text it read to the file, and removed the file when its name is
    to be deleted.  The call returns exactly when nothing is refused:
    the file can be read and written, the lines can be printed and, for
    a name to delete, the file can be removed. *)
Theorem no_label_same_text_written (cwd p : text) (w w' : world) (f : file)
        (r : result unit) :
  files w !! p = Some f ->
  Str.find (contents f) marker = None ->
  process_md_file cwd p w = (r, w') ->
  (r = Ok tt ->
   trace w'
   = trace w
     ++ [EvWrite p (contents f); EvPrint (txt "File modified: " ++ p)]
     ++ (if deleted_name p
         then [EvRemove p; EvPrint (txt "Deleted file: " ++ p)]
         else [])
   /\ files w' !! p = (if deleted_name p then None else Some f))
  /\ (r = Ok tt <-> can_rewrite cwd w p = true).
Proof.
  intros Hp Hfind Hrun.
  pose proof (parse_needs_marker _ Hfind) as Hparse.
  assert (Hdone : r = Ok tt ->
            trace w' = trace w ++ full_run cwd p (contents f) (contents f)
            /\ files w' !! p = (if deleted_name p then None else Some f)
            /\ can_rewrite cwd w p = true).
  { intros ->.
    destruct (process_done cwd p w w' Hrun)
      as (f' & c' & Hf' & Hr & Hw & Hc & Hfile & Htrace & Hcan).
    rewrite Hp in Hf'. injection Hf' as <-.
    rewrite (modify_inherits_none cwd _ Hparse) in Hc. injection Hc as <-.
    split; [exact Htrace|]. split; [|exact Hcan].
    rewrite Hfile. destruct (deleted_name p); [reflexivity|].
    destruct f as [c rd wr]. simpl in *. subst. reflexivity. }
  split; [|split].
  - intros Hok. destruct (Hdone Hok) as (Htrace & Hfile & _).
    split; [|exact Hfile]. rewrite Htrace. unfold full_run, modify_inherits_output.
    rewrite Hparse. reflexivity.
  - intros Hok. apply (Hdone Hok).
  - intros Hcan. destruct (process_succeeds cwd p w Hcan) as [w'' Hrun'].
    rewrite Hrun in Hrun'. congruence.
Qed.

Lemma no_label_same_text_written_witness :
  let p := txt "docs/notes.md" in
  let f := plain_file (txt "hello" ++ [nl]) in
  let w' := snd (process_md_file demo_cwd p demo_world) in
  (Ok tt = Ok tt ->
   trace w'
   = trace demo_world
     ++ [EvWrite p (contents f); EvPrint (txt "File modified: " ++ p)]
     ++ (if deleted_name p
         then [EvRemove p; EvPrint (txt "Deleted file: " ++ p)]
         else [])
   /\ files w' !! p = (if deleted_name p then None else Some f))
  /\ (Ok tt = Ok tt <-> can_rewrite demo_cwd demo_world p = true).
Proof.
  apply (no_label_same_text_written demo_cwd (txt "docs/notes.md") demo_world
           (snd (process_md_file demo_cwd (txt "docs/notes.md") demo_world))
           (plain_file (txt "hello" ++ [nl])) (Ok tt)); compute_done.
Defined.

(** C7, as the specification has it, fails: a file without the label is
    written, and a read-only one raises. *)
Lemma no_label_still_written :
  let run := process_md_file demo_cwd (txt "docs/notes.md") demo_world in
  Str.find (txt "hello" ++ [nl]) marker = None
  /\ files demo_world !! txt "docs/notes.md" = Some (plain_file (txt "hello" ++ [nl]))
  /\ fst run = Ok tt
  /\ EvWrite (txt "docs/notes.md") (txt "hello" ++ [nl]) ∈ trace (snd run)
  /\ fst (process_md_file demo_cwd (txt "docs/notes.md") demo_world_readonly)
     = Raise (PermissionError (txt "docs/notes.md")).
Proof.
  repeat split; compute_done.
Qed.

(** In a directory that may not be written, a [README.md] without the
    label is written, then [os.remove] raises: the file stays. *)
Example readme_kept_when_remove_refused :
  let p := txt "docs/README.md" in
  let run := process_md_file demo_cwd p demo_world_sealed in
  fst run = Raise (PermissionError p)
  /\ trace (snd run)
     = [EvWrite p (txt "index" ++ [nl]); EvPrint (txt "File modified: " ++ p)]
  /\ files (snd run) !! p = Some (plain_file (txt "index" ++ [nl])).
Proof. repeat split; compute_done. Qed.

(** C2, as the script has it. After a batch without exception, every
    file the walk lists whose name ends with [.md], in lower case, and
    is [readme.md] or [summary.md] when put in lower case, is gone from
    its path.  The walk lists the files of the directories it enters:
    not those below a symbolic link to a directory, nor those of a
    directory whose listing fails. *)
Theorem readme_and_summary_deleted (cwd directory : text) (t : dirtree) (w w' : world)
        (root file : text) (dirs fnames : list text) :
  process_all_md_files cwd directory t w = (Ok tt, w') ->
  (root, dirs, fnames) ∈ os_walk directory t ->
  file ∈ fnames ->
  Str.endswith file (txt ".md") = true ->
  Str.lower file ∈ delete_names ->
  files w' !! OsPath.join root file = None.
Proof.
  intros Hrun Hwalk Hfile Hmd Hname.
  rewrite process_all_md_paths in Hrun.
  apply (for_process_deleted cwd _ _ w w' Hrun).
  - eapply md_paths_member; eassumption.
  - apply deleted_name_join, Hname.
Qed.

Lemma readme_and_summary_deleted_witness :
  files (snd (process_all_md_files demo_cwd (txt "docs") demo_tree demo_world))
    !! OsPath.join (txt "docs/sub") (txt "Summary.md") = None.
Proof.
  apply (readme_and_summary_deleted demo_cwd (txt "docs") demo_tree demo_world
           (snd (process_all_md_files demo_cwd (txt "docs") demo_tree demo_world))
           (txt "docs/sub") (txt "Summary.md") [] [txt "Summary.md"; txt "child.md"]);
    compute_done.
Defined.

(** C2, as the specification has it, fails for [summary.MD]: the walk
    takes the names that end with [.md] as written, so the file is never
    processed and stays. *)
Lemma upper_case_extension_survives :
  let run := process_all_md_files demo_cwd (txt "docs") demo_tree demo_world in
  fst run = Ok tt
  /\ (txt "docs", [txt "sub"], [txt "notes.md"; txt "README.md"; txt "summary.MD"])
     ∈ os_walk (txt "docs") demo_tree
  /\ Str.lower (txt "summary.MD") ∈ delete_names
  /\ files (snd run) !! OsPath.join (txt "docs") (txt "summary.MD")
     = Some (plain_file (txt "x" ++ [nl]))
  /\ files (snd run) !! OsPath.join (txt "docs") (txt "README.md") = None.
Proof.
  repeat split; compute_done.
Qed.

(** A [Summary.md] below a subdirectory the walk does not enter stays
    as well. *)
Example unwalked_summary_survives :
  let t := Dir [txt "notes.md"; txt "README.md"; txt "summary.MD"]
               [(txt "sub", Unwalked None)] in
  let run := process_all_md_files demo_cwd (txt "docs") t demo_world in
  fst run = Ok tt
  /\ files (snd run) !! txt "docs/sub/Summary.md" = Some (plain_file (txt "y" ++ [nl]))
  /\ files (snd run) !! txt "docs/README.md" = None.
Proof. repeat split; compute_done. Qed.

(** C8, as the script has it. An exception of [process_md_file] is not
    caught: the batch ends with it at once, in the world the call left.
    Nothing is taken back: a file processed before, which no other path
    processed meets, holds its rewritten text, or is gone when its name
    says so.  A path that meets none of the paths processed shows what
    it showed at the start, and no write or removal is tried on a path
    that comes later. *)
Theorem failure_aborts_batch (cwd directory : text) (t : dirtree) (w w1 w2 : world)
        (l1 l2 : list text) (p : text) (e : exn) :
  md_paths directory t = l1 ++ p :: l2 ->
  for_ l1 (process_md_file cwd) w = (Ok tt, w1) ->
  process_md_file cwd p w1 = (Raise e, w2) ->
  process_all_md_files cwd directory t w = (Raise e, w2)
  /\ (forall a q b f,
        l1 = a ++ q :: b -> files w !! q = Some f ->
        forallb (fun x => apart w x q) (a ++ b ++ [p]) = true ->
        exists c', modify_inherits cwd (contents f) = Ok c'
                   /\ files w2 !! q
                      = (if deleted_name q then None
                         else Some {| contents := c'; readable := true; writable := true |}))
  /\ (forall q, forallb (fun x => apart w x q) (l1 ++ [p]) = true ->
        files w2 !! q = files w !! q)
  /\ (exists evs, trace w2 = trace w ++ evs
                  /\ forall ev q, ev ∈ evs -> event_path ev = Some q -> q ∈ l1 ++ [p]).
Proof.
  intros Hpaths H1 Hp.
  pose proof (for_later cwd l1 w w w1 _ (later_refl w) H1) as Hl1.
  split; [|split; [|split]].
  - rewrite process_all_md_paths, Hpaths. apply (for_raise l1 l2 p _ w w1 w2 e H1 Hp).
  - intros a q b f -> Hf Hall.
    rewrite app_assoc, forallb_app in Hall. apply andb_true_iff in Hall as [Hab Hpq].
    cbn [forallb] in Hpq. apply andb_true_iff in Hpq as [Hpq _].
    destruct (for_processed cwd a b q w w w1 f (later_refl w) H1 Hf Hab) as (c' & Hc & Hfile).
    exists c'. split; [exact Hc|]. rewrite <- Hfile.
    exact (process_frame cwd w w1 w2 p q _ Hl1 Hpq Hp).
  - intros q Hall. rewrite forallb_app in Hall. apply andb_true_iff in Hall as [Hq1 Hpq].
    cbn [forallb] in Hpq. apply andb_true_iff in Hpq as [Hpq _].
    rewrite (process_frame cwd w w1 w2 p q _ Hl1 Hpq Hp).
    exact (for_frame cwd l1 w w w1 _ q (later_refl w) Hq1 H1).
  - pose proof (for_raise l1 [] p _ w w1 w2 e H1 Hp) as Hrun.
    destruct (for_process_trace cwd _ w w2 _ Hrun) as (evs & Htrace & Hevs).
    exists evs. split; [exact Htrace|].
    intros ev q Hev Hq. rewrite Forall_forall in Hevs. exact (Hevs ev Hev q Hq).
Qed.

Lemma failure_aborts_batch_witness :
  let w := demo_world_sealed in
  let l1 := [txt "docs/notes.md"] in
  let p := txt "docs/README.md" in
  let w1 := snd (for_ l1 (process_md_file demo_cwd) w) in
  let w2 := snd (process_md_file demo_cwd p w1) in
  process_all_md_files demo_cwd (txt "docs") demo_tree w = (Raise (PermissionError p), w2)
  /\ (forall a q b f,
        l1 = a ++ q :: b -> files w !! q = Some f ->
        forallb (fun x => apart w x q) (a ++ b ++ [p]) = true ->
        exists c', modify_inherits demo_cwd (contents f) = Ok c'
                   /\ files w2 !! q
                      = (if deleted_name q then None
                         else Some {| contents := c'; readable := true; writable := true |}))
  /\ (forall q, forallb (fun x => apart w x q) (l1 ++ [p]) = true ->
        files w2 !! q = files w !! q)
  /\ (exists evs, trace w2 = trace w ++ evs
                  /\ forall ev q, ev ∈ evs -> event_path ev = Some q -> q ∈ l1 ++ [p]).
Proof.
  apply (failure_aborts_batch demo_cwd (txt "docs") demo_tree demo_world_sealed
           (snd (for_ [txt "docs/notes.md"] (process_md_file demo_cwd) demo_world_sealed))
           (snd (process_md_file demo_cwd (txt "docs/README.md")
                   (snd (for_ [txt "docs/notes.md"] (process_md_file demo_cwd)
                           demo_world_sealed))))
           [txt "docs/notes.md"] [txt "docs/sub/Summary.md"; txt "docs/sub/child.md"]
           (txt "docs/README.md") (PermissionError (txt "docs/README.md")));
    compute_done.
Defined.

(** A file that cannot be decoded stops the batch with
    [UnicodeDecodeError]: [README.md], which came before, is gone, and
    [child.md], which comes after, is not rewritten. *)
Example undecodable_file_stops_batch :
  let run := process_all_md_files demo_cwd (txt "docs") demo_tree demo_world_garbled in
  fst run = Raise UnicodeDecodeError
  /\ files (snd run) !! txt "docs/README.md" = None
  /\ files (snd run) !! txt "docs/sub/Summary.md" = Some (plain_file (txt "y" ++ [nl]))
  /\ files (snd run) !! txt "docs/sub/child.md"
     = files demo_world_garbled !! txt "docs/sub/child.md".
Proof. repeat split; compute_done. Qed.

(** C8, as the specification has it, fails: an error is caught.  When
    the directory the batch is started on cannot be listed, [os.walk]
    keeps the exception to itself and yields nothing; the batch returns,
    no file is processed, and the entry point prints its last line. *)
Lemma listing_error_passed_over :
  let t := Unwalked (Some (FileNotFoundError directory_path)) in
  process_all_md_files demo_cwd directory_path t demo_main_world = (Ok tt, demo_main_world)
  /\ fst (main demo_cwd t demo_main_world) = Ok tt
  /\ trace (snd (main demo_cwd t demo_main_world))
     = [EvPrint (txt "All Markdown files in the directory processed.")].
Proof. repeat split; compute_done. Qed.

(** * Further properties of the script *)

(** ** [parse_inherits] *)
Section CaptureInversion.

Lemma search_inv (r : regex) (s : text) (m : mobj) :
  Re.search r s = Some m -> exists a b, s = a ++ b /\ Re.match_ r b = Some m.
Proof.
  induction s as [|c s IH]; cbn [Re.search]; intros H.
  - destruct (Re.match_ r []) eqn:E; [|discriminate].
    exists [], []. split; [reflexivity|]. rewrite E. exact H.
  - destruct (Re.match_ r (c :: s)) eqn:E.
    + exists [], (c :: s). split; [reflexivity|]. rewrite E. exact H.
    + destruct (IH H) as (a & b & -> & Hb). exists (c :: a), b. split; [reflexivity|exact Hb].
Qed.

Lemma star_greedy_inv {R : Type} (c : cls) (s : text) (k : text -> option R) (x : R) :
  star_greedy c s k = Some x -> exists s1 s2, s = s1 ++ s2 /\ k s2 = Some x.
Proof.
  induction s as [|a s IH]; simpl; intros H.
  - exists [], []. split; [reflexivity|exact H].
  - destruct (cls_mem c a).
    + destruct (star_greedy c s k) eqn:E.
      * injection H as ->. destruct (IH eq_refl) as (s1 & s2 & -> & Hk).
        exists (a :: s1), s2. split; [reflexivity|exact Hk].
      * exists [], (a :: s). split; [reflexivity|exact H].
    + exists [], (a :: s). split; [reflexivity|exact H].
Qed.

Lemma star_lazy_inv {R : Type} (c : cls) (s : text) (k : text -> option R) (x : R) :
  star_lazy c s k = Some x ->
  exists p r, s = p ++ r /\ k r = Some x
              /\ (forall p1 p2, p = p1 ++ p2 -> p2 <> [] -> k (p2 ++ r) = None).
Proof.
  induction s as [|a s IH]; cbn [star_lazy]; intros H.
  - destruct (k []) eqn:E; [|discriminate].
    exists [], []. split; [reflexivity|]. split; [rewrite E; exact H|].
    intros p1 p2 Heq Hne. destruct p1, p2; try discriminate. congruence.
  - destruct (k (a :: s)) eqn:E.
    + exists [], (a :: s). split; [reflexivity|]. split; [rewrite E; exact H|].
      intros p1 p2 Heq Hne. destruct p1, p2; try discriminate. congruence.
    + destruct (cls_mem c a); [|discriminate].
      destruct (IH H) as (p & r & -> & Hk & Hnone).
      exists (a :: p), r. split; [reflexivity|]. split; [exact Hk|].
      intros p1 p2 Heq Hne. destruct p1 as [|b p1].
      * simpl in Heq. subst p2. exact E.
      * injection Heq as _ Heq. apply (Hnone p1 p2 Heq Hne).
Qed.

(** What a match of the label pattern is made of. *)
Lemma match_inherits_inv (b : text) (m : mobj) :
  Re.match_ inherits_re b = Some m ->
  exists ws g r,
    b = marker ++ ws ++ g ++ nl :: r
    /\ Re.group m 1 = Some g
    /\ nl ∉ g.
Proof.
  unfold Re.match_, inherits_re. cbn [run]. unfold star.
  destruct (Str.startswith b marker) eqn:Hb; [|discriminate].
  apply startswith_inv in Hb. intros H.
  apply star_greedy_inv in H as (ws & s2 & Hs & H).
  apply star_lazy_inv in H as (g & r & -> & H & Hnone).
  cbv beta in H. destruct (Str.startswith r [nl]) eqn:Hr; [|discriminate].
  apply startswith_inv in Hr. simpl in Hr.
  exists ws, g, (drop 1 r). split; [|split].
  - rewrite Hb, Hs. rewrite <- Hr. reflexivity.
  - injection H as <-. unfold Re.group. cbn [groups app lookup list_lookup].
    f_equal. rewrite length_app.
    replace (length g + length r - length r) with (length g) by lia.
    apply take_app_length.
  - intros Hin. apply list_elem_of_split in Hin as (g1 & g2 & ->).
    specialize (Hnone g1 (nl :: g2) eq_refl). cbv beta in Hnone.
    rewrite <- app_comm_cons, startswith_nl_here in Hnone.
    specialize (Hnone ltac:(discriminate)). discriminate.
Qed.

Lemma lstrip_by_suffix (f : ascii -> bool) (s : text) :
  exists x, s = x ++ Str.lstrip_by f s.
Proof.
  induction s as [|a s [x IH]]; simpl.
  - exists []. reflexivity.
  - destruct (f a).
    + exists (a :: x). simpl. f_equal. exact IH.
    + exists []. reflexivity.
Qed.

Lemma lstrip_by_head (f : ascii -> bool) (s : text) (c : ascii) (s' : text) :
  Str.lstrip_by f s = c :: s' -> f c = false.
Proof.
  induction s as [|a s IH]; simpl; [discriminate|].
  destruct (f a) eqn:E; [exact IH|]. intros H. injection H as <- _. exact E.
Qed.

Lemma rstrip_by_prefix (f : ascii -> bool) (s : text) :
  exists y, s = Str.rstrip_by f s ++ y.
Proof.
  unfold Str.rstrip_by. destruct (lstrip_by_suffix f (rev s)) as [x Hx].
  exists (rev x). rewrite <- rev_app_distr, <- Hx, rev_involutive. reflexivity.
Qed.

Lemma strip_infix (s : text) : exists x y, s = x ++ Str.strip s ++ y.
Proof.
  unfold Str.strip.
  destruct (lstrip_by_suffix Str.isspace s) as [x Hx].
  destruct (rstrip_by_prefix Str.isspace (Str.lstrip_by Str.isspace s)) as [y Hy].
  exists x, y. rewrite <- Hy. exact Hx.
Qed.

Lemma strip_head (s : text) (c : ascii) (v : text) :
  Str.strip s = c :: v -> Str.isspace c = false.
Proof.
  unfold Str.strip. intros H.
  destruct (rstrip_by_prefix Str.isspace (Str.lstrip_by Str.isspace s)) as [y Hy].
  rewrite H in Hy. simpl in Hy. apply (lstrip_by_head _ _ _ _ Hy).
Qed.

Lemma strip_last (s : text) (c : ascii) (v : text) :
  Str.strip s = v ++ [c] -> Str.isspace c = false.
Proof.
  unfold Str.strip, Str.rstrip_by. intros H.
  apply (f_equal (@rev ascii)) in H. rewrite rev_involutive, rev_app_distr in H.
  simpl in H. apply (lstrip_by_head _ _ _ _ H).
Qed.

End CaptureInversion.

(** X1. The field is found behind the first label: after the label,
    spaces (line breaks among them), then a value that begins with a
    visible character and runs to the end of its line.  [parse_inherits]
    returns that value, stripped, whatever follows the line. *)
Theorem inherits_field_captured (pre ws g post : text) (c : ascii) :
  Str.find (pre ++ marker) marker = Some (length pre) ->
  Forall (fun a => Str.isspace a = true) ws ->
  Str.isspace c = false ->
  nl ∉ c :: g ->
  parse_inherits (pre ++ marker ++ ws ++ (c :: g) ++ nl :: post)
  = Some (Str.strip (c :: g)).
Proof.
  intros Hfind Hws Hc Hnl. apply parse_inherits_field; try assumption.
  apply Forall_forall, Hws.
Qed.

Lemma inherits_field_captured_witness :
  parse_inherits (txt "# Child" ++ [nl] ++ marker ++ ([nl] ++ txt " ")
                  ++ (txt "[I](/src/I.md)  ") ++ nl :: txt "**Inherits:** (/b)" ++ [nl])
  = Some (Str.strip (txt "[I](/src/I.md)  ")).
Proof.
  apply (inherits_field_captured (txt "# Child" ++ [nl]) ([nl] ++ txt " ")
           (txt "I](/src/I.md)  ") (txt "**Inherits:** (/b)" ++ [nl]) "["%char);
    compute_done.
Defined.

Section NoLineBreak.

Lemma match_needs_nl (s : text) : nl ∉ s -> Re.match_ inherits_re s = None.
Proof.
  intros Hnl. destruct (Re.match_ inherits_re s) as [m|] eqn:E; [|reflexivity].
  apply match_inherits_inv in E as (ws & g & r & -> & _ & _).
  exfalso. apply Hnl. rewrite !elem_of_app. right. right. right. left.
Qed.

Lemma search_needs_nl (s : text) : nl ∉ s -> Re.search inherits_re s = None.
Proof.
  induction s as [|c s IH]; intros Hnl; cbn [Re.search].
  - rewrite match_needs_nl by exact Hnl. reflexivity.
  - rewrite match_needs_nl by exact Hnl. apply IH.
    intros H. apply Hnl. right. exact H.
Qed.

Lemma search_skip (pre rest : text) :
  Str.find (pre ++ marker) marker = Some (length pre) ->
  Re.search inherits_re (pre ++ marker ++ rest) = Re.search inherits_re (marker ++ rest).
Proof.
  intros Hfind. induction pre as [|c pre IH]; [reflexivity|].
  cbn [Str.find app] in Hfind.
  destruct (Str.startswith (c :: pre ++ marker) marker) eqn:E; [discriminate|].
  destruct (Str.find (pre ++ marker) marker) as [i|] eqn:F; [|discriminate].
  injection Hfind as ->.
  change ((c :: pre) ++ marker ++ rest) with (c :: pre ++ marker ++ rest).
  cbn [Re.search]. rewrite match_needs_marker; [apply IH; reflexivity|].
  change (c :: pre ++ marker ++ rest) with ((c :: pre) ++ marker ++ rest).
  rewrite app_assoc, startswith_app_long; [exact E|].
  rewrite length_app. lia.
Qed.

End NoLineBreak.

(** X2. A label that no line break follows is not seen: when the text
    behind the first label has no line break, as on a last line without
    one, [parse_inherits] returns [None] and the text is returned as it
    is. *)
Theorem inherits_needs_line_break (cwd pre rest : text) :
  Str.find (pre ++ marker) marker = Some (length pre) ->
  nl ∉ rest ->
  parse_inherits (pre ++ marker ++ rest) = None
  /\ modify_inherits cwd (pre ++ marker ++ rest) = Ok (pre ++ marker ++ rest).
Proof.
  intros Hfind Hnl.
  assert (Hparse : parse_inherits (pre ++ marker ++ rest) = None).
  { unfold parse_inherits. rewrite search_skip by exact Hfind.
    rewrite search_needs_nl; [reflexivity|].
    intros H. apply elem_of_app in H as [H|H]; [|exact (Hnl H)].
    revert H. compute_done. }
  split; [exact Hparse|]. apply modify_inherits_none, Hparse.
Qed.

Lemma inherits_needs_line_break_witness :
  parse_inherits (txt "# Child" ++ [nl] ++ marker ++ txt " [I](/src/I.md)") = None
  /\ modify_inherits demo_cwd (txt "# Child" ++ [nl] ++ marker ++ txt " [I](/src/I.md)")
     = Ok (txt "# Child" ++ [nl] ++ marker ++ txt " [I](/src/I.md)").
Proof.
  apply (inherits_needs_line_break demo_cwd (txt "# Child" ++ [nl]) (txt " [I](/src/I.md)"));
    compute_done.
Defined.

(** X3. Whatever the document, a value [parse_inherits] returns is a
    piece of the document, has no line break in it, and neither begins
    nor ends with a space. *)
Theorem inherits_value_shape (md v : text) :
  parse_inherits md = Some v ->
  (exists a b, md = a ++ v ++ b)
  /\ (nl ∉ v)
  /\ (forall c v', v = c :: v' -> Str.isspace c = false)
  /\ (forall c v', v = v' ++ [c] -> Str.isspace c = false).
Proof.
  unfold parse_inherits. intros H.
  destruct (Re.search inherits_re md) as [m|] eqn:Hs; [|discriminate].
  destruct (Re.group m 1) as [g|] eqn:Hg; [|discriminate].
  injection H as <-.
  apply search_inv in Hs as (a & b & -> & Hm).
  apply match_inherits_inv in Hm as (ws & g' & r & -> & Hg' & Hnl).
  rewrite Hg in Hg'. injection Hg' as <-.
  destruct (strip_infix g) as (x & y & Hxy).
  split; [|split; [|split]].
  - exists (a ++ marker ++ ws ++ x), (y ++ nl :: r).
    rewrite Hxy at 1. rewrite <- !app_assoc. reflexivity.
  - intros Hin. apply Hnl. rewrite Hxy, !elem_of_app. right. left. exact Hin.
  - intros c v' Hv. apply (strip_head g c v' Hv).
  - intros c v' Hv. apply (strip_last g c v' Hv).
Qed.

Lemma inherits_value_shape_witness :
  (exists a b, txt "**Inherits:**  [I](/src/I.md) " ++ [nl] ++ txt "x"
               = a ++ txt "[I](/src/I.md)" ++ b)
  /\ (nl ∉ txt "[I](/src/I.md)")
  /\ (forall c v', txt "[I](/src/I.md)" = c :: v' -> Str.isspace c = false)
  /\ (forall c v', txt "[I](/src/I.md)" = v' ++ [c] -> Str.isspace c = false).
Proof.
  apply (inherits_value_shape (txt "**Inherits:**  [I](/src/I.md) " ++ [nl] ++ txt "x")
           (txt "[I](/src/I.md)")).
  reflexivity.
Defined.

(** ** [replace_paths_with_empty_brackets] *)
Section Scanning.

Lemma star_greedy_inv_mem {R : Type} (c : cls) (s : text) (k : text -> option R) (x : R) :
  star_greedy c s k = Some x ->
  exists s1 s2, s = s1 ++ s2 /\ k s2 = Some x /\ (forall a, a ∈ s1 -> cls_mem c a = true).
Proof.
  induction s as [|a s IH]; simpl; intros H.
  - exists [], []. split; [reflexivity|]. split; [exact H|]. intros a Ha. inversion Ha.
  - destruct (cls_mem c a) eqn:Ea.
    + destruct (star_greedy c s k) eqn:E.
      * injection H as ->. destruct (IH eq_refl) as (s1 & s2 & -> & Hk & Hmem).
        exists (a :: s1), s2. split; [reflexivity|]. split; [exact Hk|].
        intros b Hb. apply elem_of_cons in Hb as [->|Hb]; [exact Ea|apply Hmem, Hb].
      * exists [], (a :: s). split; [reflexivity|]. split; [exact H|].
        intros b Hb. inversion Hb.
    + exists [], (a :: s). split; [reflexivity|]. split; [exact H|].
      intros b Hb. inversion Hb.
Qed.

(** What a match of the path pattern is made of: a [(], at least one
    character, none of them a [)], and the first [)] behind them. *)
Lemma match_path_inv (s : text) (m : mobj) :
  Re.match_ path_re s = Some m ->
  exists p r, s = open_paren :: p ++ close_paren :: r
              /\ p <> [] /\ close_paren ∉ p.
Proof.
  unfold Re.match_, path_re. cbn [run]. unfold star.
  destruct s as [|c0 t]; [discriminate|].
  cbn [Str.startswith length drop].
  destruct (Ascii.eqb c0 open_paren) eqn:E0; [|discriminate].
  apply Ascii.eqb_eq in E0. subst c0. cbn [andb].
  destruct t as [|a s']; [discriminate|].
  rewrite drop_0.
  destruct (cls_mem (CNot (CChar close_paren)) a) eqn:Ha; [|discriminate].
  intros H. apply star_greedy_inv_mem in H as (s1 & s2 & -> & H & Hmem).
  cbv beta in H. destruct s2 as [|b s2]; [discriminate|].
  destruct (Ascii.eqb b close_paren) eqn:Hb; [|discriminate].
  apply Ascii.eqb_eq in Hb. subst b.
  exists (a :: s1), s2. split; [reflexivity|]. split; [discriminate|].
  intros Hin. apply elem_of_cons in Hin as [<-|Hin].
  - simpl in Ha. discriminate.
  - specialize (Hmem _ Hin). simpl in Hmem. discriminate.
Qed.

Lemma hit_path_re_no_close (s : text) :
  close_paren ∉ s -> hit_re path_re s = None.
Proof.
  intros Hno. unfold hit_re.
  destruct (Re.match_ path_re s) as [m|] eqn:E; [|reflexivity].
  apply match_path_inv in E as (p & r & -> & _ & _).
  exfalso. apply Hno. right. apply elem_of_app. right. left.
Qed.

Lemma sub_path_no_close (f : text -> result text) (s : text) :
  close_paren ∉ s -> Re.sub path_re f s = Ok s.
Proof.
  induction s as [|c s IH]; intros Hno; [reflexivity|].
  unfold Re.sub. rewrite scan_miss by (apply hit_path_re_no_close, Hno).
  rewrite render_keep. fold (Re.sub path_re f s).
  rewrite IH; [reflexivity|]. intros H. apply Hno. right. exact H.
Qed.

End Scanning.

(** X5. A line without a [(], or without a [)], has no reference and is
    returned as it is: an opening parenthesis that is never closed
    changes nothing. *)
Theorem line_without_pair_kept (cwd line : text) :
  open_paren ∉ line \/ close_paren ∉ line ->
  replace_paths_with_empty_brackets cwd line = Ok line.
Proof.
  intros [H|H]; unfold replace_paths_with_empty_brackets.
  - apply sub_path_no_paren, H.
  - apply sub_path_no_close, H.
Qed.

Lemma line_without_pair_kept_witness :
  replace_paths_with_empty_brackets demo_cwd (txt "[I](/src/I.md, see (/b") = Ok (txt "[I](/src/I.md, see (/b").
Proof.
  apply (line_without_pair_kept demo_cwd (txt "[I](/src/I.md, see (/b")).
  right. compute_done.
Defined.

(** X6. References are rewritten one by one: behind a text in which
    every [(] is closed, the rest of the line is rewritten as if it stood
    alone, and the result is the two results put together. *)
Theorem line_rewritten_in_pieces (cwd pre rest : text) :
  parens_closed pre = true ->
  exists pre' rest',
    replace_paths_with_empty_brackets cwd pre = Ok pre'
    /\ replace_paths_with_empty_brackets cwd rest = Ok rest'
    /\ replace_paths_with_empty_brackets cwd (pre ++ rest) = Ok (pre' ++ rest').
Proof.
  intros Hpre.
  destruct (replace_paths_total cwd pre) as [pre' Hpre'].
  destruct (replace_paths_total cwd rest) as [rest' Hrest'].
  exists pre', rest'. split; [exact Hpre'|]. split; [exact Hrest'|].
  unfold replace_paths_with_empty_brackets in *.
  rewrite sub_path_closed_app by exact Hpre. rewrite Hpre', Hrest'. reflexivity.
Qed.

Lemma line_rewritten_in_pieces_witness :
  exists pre' rest',
    replace_paths_with_empty_brackets demo_cwd (txt "[A](/src/a.md), ") = Ok pre'
    /\ replace_paths_with_empty_brackets demo_cwd (txt "[B](/src/X/b.md)") = Ok rest'
    /\ replace_paths_with_empty_brackets demo_cwd (txt "[A](/src/a.md), " ++ txt "[B](/src/X/b.md)")
       = Ok (pre' ++ rest').
Proof.
  apply (line_rewritten_in_pieces demo_cwd (txt "[A](/src/a.md), ") (txt "[B](/src/X/b.md)")).
  reflexivity.
Defined.

(** X7. A reference ends at the first [)] behind its [(], whatever comes
    after it and whether or not the reference holds a further [(]: the
    reference is rewritten and the scan goes on right behind that [)]. *)
Theorem reference_ends_at_first_close (cwd p rest : text) :
  p <> [] -> close_paren ∉ p ->
  exists r rest',
    relpath cwd (default_path ++ p) start = Ok r
    /\ replace_paths_with_empty_brackets cwd rest = Ok rest'
    /\ replace_paths_with_empty_brackets cwd ([open_paren] ++ p ++ [close_paren] ++ rest)
       = Ok ([open_paren] ++ r ++ [close_paren] ++ rest').
Proof.
  intros Hp Hno.
  destruct (relpath_total cwd (default_path ++ p) start) as [r Hr];
    [apply default_path_app_nonempty|].
  destruct (replace_paths_total cwd rest) as [rest' Hrest'].
  exists r, rest'. split; [exact Hr|]. split; [exact Hrest'|].
  unfold replace_paths_with_empty_brackets in *.
  change ([open_paren] ++ p ++ [close_paren] ++ rest)
    with (open_paren :: p ++ close_paren :: rest).
  rewrite sub_path_ref by assumption.
  rewrite replace_path_ref, Hr, Hrest'. simpl.
  rewrite <- app_assoc. reflexivity.
Qed.

Lemma reference_ends_at_first_close_witness :
  exists r rest',
    relpath demo_cwd (default_path ++ txt "/a(/b") start = Ok r
    /\ replace_paths_with_empty_brackets demo_cwd (txt "/c)") = Ok rest'
    /\ replace_paths_with_empty_brackets demo_cwd
         ([open_paren] ++ txt "/a(/b" ++ [close_paren] ++ txt "/c)")
       = Ok ([open_paren] ++ r ++ [close_paren] ++ rest').
Proof.
  apply (reference_ends_at_first_close demo_cwd (txt "/a(/b") (txt "/c)")); compute_done.
Defined.

Section SameText.

Lemma replace_same (s old : text) : old <> [] -> Str.replace s old old = s.
Proof.
  intros Hold. destruct (splice_decompose old s Hold) as (ps & q & -> & Hps & Hq).
  apply replace_splice; assumption.
Qed.

End SameText.

(** X11. A field without a reference leaves the document as it is: when
    the captured value has no [(] or no [)], the text is returned
    unchanged although [str.replace] is run on it. *)
Theorem field_without_reference_unchanged (cwd md v : text) :
  parse_inherits md = Some v ->
  open_paren ∉ v \/ close_paren ∉ v ->
  modify_inherits cwd md = Ok md.
Proof.
  intros Hparse Hv. destruct v as [|c v].
  - apply modify_inherits_empty, Hparse.
  - rewrite (modify_inherits_some cwd md (c :: v) Hparse) by discriminate.
    assert (Hrp : replace_paths_with_empty_brackets cwd (c :: v) = Ok (c :: v)).
    { destruct Hv as [H|H]; unfold replace_paths_with_empty_brackets.
      - apply sub_path_no_paren, H.
      - apply sub_path_no_close, H. }
    rewrite Hrp. simpl. rewrite replace_same by discriminate. reflexivity.
Qed.

Lemma field_without_reference_unchanged_witness :
  modify_inherits demo_cwd (txt "**Inherits:** Base, Other" ++ [nl] ++ txt "Base (/b)" ++ [nl])
  = Ok (txt "**Inherits:** Base, Other" ++ [nl] ++ txt "Base (/b)" ++ [nl]).
Proof.
  apply (field_without_reference_unchanged demo_cwd
           (txt "**Inherits:** Base, Other" ++ [nl] ++ txt "Base (/b)" ++ [nl])
           (txt "Base, Other")).
  - reflexivity.
  - left. compute_done.
Defined.

(** ** The rewritten path *)
Section RewrittenPath.

Lemma relpath_unfold (cwd path st : text) :
  path <> [] ->
  relpath cwd path st =
  match rel_list (components (abspath cwd st)) (components (abspath cwd path)) with
  | [] => Ok curdir
  | a :: p => Ok (join_all a p)
  end.
Proof. intros Hp. destruct path; [congruence|reflexivity]. Qed.

Lemma components_elem (p x : text) :
  x ∈ components p -> x <> [] /\ slash ∉ x.
Proof.
  unfold components. intros H. apply list_elem_of_filter in H as [Hne Hin].
  split.
  - intros ->. discriminate.
  - eapply split_pieces_no_sep, Hin.
Qed.

Lemma rel_list_elem (sl pl : list text) (x : text) :
  x ∈ rel_list sl pl -> x = pardir \/ x ∈ pl.
Proof.
  unfold rel_list. intros H. apply elem_of_app in H as [H|H].
  - left. apply list_elem_of_In, repeat_spec in H. exact H.
  - right. rewrite <- (take_drop (length (commonprefix sl pl)) pl).
    apply elem_of_app. right. exact H.
Qed.

Lemma isabs_no_slash (b : text) : slash ∉ b -> isabs b = false.
Proof.
  intros Hno. destruct b as [|c b]; [reflexivity|].
  apply isabs_cons. intros ->. apply Hno. left.
Qed.

Lemma join_head (c : ascii) (a b : text) :
  isabs b = false -> exists t, OsPath.join (c :: a) b = c :: t.
Proof.
  intros Hb. unfold OsPath.join. unfold isabs in Hb. rewrite Hb.
  destruct (_ || _); eexists; reflexivity.
Qed.

Lemma join_all_head (c : ascii) (a : text) (p : list text) :
  Forall (fun b => isabs b = false) p -> exists t, join_all (c :: a) p = c :: t.
Proof.
  intros Hp. revert a. induction Hp as [|b p Hb _ IH]; intros a.
  - exists a. reflexivity.
  - unfold join_all. simpl. destruct (join_head c a b Hb) as [t ->]. apply IH.
Qed.

End RewrittenPath.

(** X8. Whatever the match and the working directory, the path
    [replace_path] puts between the parentheses is not empty and is
    relative: it never begins with a slash. *)
Theorem rewritten_path_relative (cwd m out : text) :
  replace_path cwd m = Ok out ->
  exists r, out = [open_paren] ++ r ++ [close_paren]
            /\ r <> [] /\ isabs r = false.
Proof.
  unfold replace_path, relative_path. intros H.
  destruct (relpath cwd (default_path ++ inner m) start) as [r|e] eqn:Hr; [|discriminate].
  injection H as <-. exists r. split; [reflexivity|].
  rewrite relpath_unfold in Hr by apply default_path_app_nonempty.
  destruct (rel_list _ _) as [|a p] eqn:Hl.
  - injection Hr as <-. split; [discriminate|reflexivity].
  - injection Hr as <-.
    assert (Helem : forall x, x ∈ a :: p -> x <> [] /\ slash ∉ x).
    { intros x Hx. rewrite <- Hl in Hx. apply rel_list_elem in Hx as [->|Hx].
      - split; [discriminate|compute_done].
      - eapply components_elem, Hx. }
    destruct (Helem a ltac:(left)) as [Hne Hno].
    destruct a as [|c a]; [congruence|].
    destruct (join_all_head c a p) as [t ->].
    + apply Forall_forall. intros b Hb. apply isabs_no_slash.
      apply (Helem b). right. exact Hb.
    + split; [discriminate|]. apply isabs_cons. intros ->. apply Hno. left.
Qed.

Lemma rewritten_path_relative_witness :
  exists r, txt "(../../../../../../../etc/passwd)" = [open_paren] ++ r ++ [close_paren]
            /\ r <> [] /\ isabs r = false.
Proof.
  apply (rewritten_path_relative demo_cwd (txt "(/../../../../etc/passwd)")
           (txt "(../../../../../../../etc/passwd)")).
  reflexivity.
Defined.

(** ** References made of plain names *)
Section PlainReferences.
Variable cwd : text.
Hypothesis cwd_abs : isabs cwd = true.

Lemma endswith_name (x b : text) :
  b <> [] -> slash ∉ b -> Str.endswith (x ++ b) sep = false.
Proof.
  intros Hne Hno. destruct b as [|c b _] using rev_ind; [congruence|].
  unfold Str.endswith. rewrite app_assoc, rev_app_distr. simpl.
  rewrite eqb_false_of_ne; [reflexivity|].
  intros ->. apply Hno. apply elem_of_app. right. left.
Qed.

Lemma join_name_behind (acc b : text) :
  acc <> [] -> Str.endswith acc sep = false -> b <> [] -> slash ∉ b ->
  OsPath.join acc b = acc ++ sep ++ b.
Proof.
  intros Hacc Hend Hb Hno. unfold OsPath.join.
  pose proof (isabs_no_slash b Hno) as Habs. unfold isabs in Habs. rewrite Habs, Hend.
  destruct acc; [congruence|reflexivity].
Qed.

Lemma join_all_join_acc (acc : text) (p : list text) :
  acc <> [] -> Str.endswith acc sep = false ->
  Forall (fun b => b <> [] /\ slash ∉ b) p ->
  join_all acc p = Str.join sep (acc :: p).
Proof.
  intros Hacc Hend Hp. revert acc Hacc Hend.
  induction Hp as [|b p [Hb Hno] _ IH]; intros acc Hacc Hend; [reflexivity|].
  unfold join_all. cbn [fold_left]. fold (join_all (OsPath.join acc b) p).
  rewrite join_name_behind by assumption.
  rewrite IH.
  - destruct p as [|c p]; simpl; rewrite <- ?app_assoc; reflexivity.
  - destruct acc; discriminate.
  - rewrite app_assoc. apply endswith_name; assumption.
Qed.

Lemma join_all_join (a : text) (p : list text) :
  Forall (fun b => b <> [] /\ slash ∉ b) (a :: p) ->
  join_all a p = Str.join sep (a :: p).
Proof.
  intros H. apply Forall_cons in H as [[Ha Hno] Hp].
  apply join_all_join_acc; [exact Ha| |exact Hp].
  rewrite <- (app_nil_l a). apply endswith_name; assumption.
Qed.

Lemma fold_plain_reference (k : nat) (N cs : list text) :
  Forall plain cs ->
  fold_left (norm_step k) (Str.split slash (default_path ++ sep ++ Str.join sep cs)) N
  = N ++ map txt ["docs"; "docs"; "src"]%string ++ cs.
Proof.
  intros Hcs.
  change (default_path ++ sep ++ Str.join sep cs)
    with (default_path ++ slash :: Str.join sep cs).
  rewrite split_app_sep, fold_left_app.
  replace (Str.split slash default_path) with (map txt ["docs"; "docs"; "src"]%string)
    by reflexivity.
  rewrite (fold_norm_push k (map txt ["docs"; "docs"; "src"]%string) N) by compute_done.
  destruct cs as [|c cs].
  - cbn [Str.join Str.split fold_left]. rewrite norm_step_skip_empty.
    reflexivity.
  - rewrite split_join.
    + rewrite fold_norm_push by exact Hcs. rewrite <- app_assoc. reflexivity.
    + discriminate.
    + eapply Forall_impl; [exact Hcs|]. intros x (_ & _ & _ & Hx). exact Hx.
Qed.

(** The relative path of a reference [/c1/.../cn] made of plain names:
    that of the names, seen from [src/X/X]. *)
Lemma relpath_plain_reference (cs : list text) :
  Forall plain cs ->
  relpath cwd (default_path ++ sep ++ Str.join sep cs) start
  = Ok (match rel_list (map txt ["src"; "X"; "X"]%string) cs with
        | [] => curdir
        | a :: p => join_all a p
        end).
Proof.
  intros Hcs.
  change (default_path ++ sep ++ Str.join sep cs)
    with ("d"%char :: txt "ocs/docs/src" ++ sep ++ Str.join sep cs).
  change start with ("d"%char :: txt "ocs/docs/src/src/X/X/").
  rewrite (relpath_in_cwd cwd _ _ _ _
             (map txt ["docs"; "docs"; "src"]%string ++ cs)
             (map txt ["docs"; "docs"; "src"]%string ++ map txt ["src"; "X"; "X"]%string)).
  - rewrite rel_list_app. destruct (rel_list _ cs); reflexivity.
  - exact cwd_abs.
  - discriminate.
  - discriminate.
  - intros k N _ _. apply (fold_plain_reference k N cs Hcs).
  - intros k N _ _. apply fold_start.
  - apply Forall_app. split; [compute_done|exact Hcs].
  - compute_done.
Qed.

Lemma rel_list_names (sl pl : list text) :
  Forall plain pl ->
  Forall (fun b => b <> [] /\ slash ∉ b) (rel_list sl pl).
Proof.
  intros Hpl. apply Forall_forall. intros x Hx.
  apply rel_list_elem in Hx as [->|Hx].
  - split; [discriminate|compute_done].
  - rewrite Forall_forall in Hpl. destruct (Hpl x Hx) as (H1 & _ & _ & H4).
    split; assumption.
Qed.

Lemma replace_path_plain_reference (cs : list text) :
  Forall plain cs ->
  replace_path cwd ([open_paren] ++ sep ++ Str.join sep cs ++ [close_paren])
  = Ok ([open_paren]
        ++ (match rel_list (map txt ["src"; "X"; "X"]%string) cs with
            | [] => curdir
            | l => Str.join sep l
            end)
        ++ [close_paren]).
Proof.
  intros Hcs.
  change ([open_paren] ++ sep ++ Str.join sep cs ++ [close_paren])
    with (open_paren :: (sep ++ Str.join sep cs) ++ [close_paren]).
  rewrite replace_path_ref, relpath_plain_reference by exact Hcs.
  pose proof (rel_list_names (map txt ["src"; "X"; "X"]%string) cs Hcs) as Hok.
  destruct (rel_list _ cs) as [|a p]; [reflexivity|].
  rewrite join_all_join by exact Hok. reflexivity.
Qed.

End PlainReferences.

(** X9. For a reference [(/c1/.../cn)] made of plain names, what
    [replace_path] returns does not depend on the working directory: it
    is the list of names seen from [src/X/X] (one [..] for each of
    [src], [X], [X] the names do not share from the front, then the
    names that are left), joined with slashes, or [.] when nothing is
    left. *)
Theorem plain_reference_rewritten (cwd : text) (cs : list text) :
  isabs cwd = true ->
  Forall plain cs ->
  replace_path cwd ([open_paren] ++ sep ++ Str.join sep cs ++ [close_paren])
  = Ok ([open_paren]
        ++ (match rel_list (map txt ["src"; "X"; "X"]%string) cs with
            | [] => curdir
            | l => Str.join sep l
            end)
        ++ [close_paren]).
Proof. intros Habs Hcs. apply replace_path_plain_reference; assumption. Qed.

Lemma plain_reference_rewritten_witness :
  replace_path demo_cwd
    ([open_paren] ++ sep ++ Str.join sep (map txt ["src"; "X"; "Y"; "b.md"]%string)
     ++ [close_paren])
  = Ok ([open_paren]
        ++ (match rel_list (map txt ["src"; "X"; "X"]%string)
                           (map txt ["src"; "X"; "Y"; "b.md"]%string) with
            | [] => curdir
            | l => Str.join sep l
            end)
        ++ [close_paren]).
Proof.
  apply (plain_reference_rewritten demo_cwd (map txt ["src"; "X"; "Y"; "b.md"]%string));
    compute_done.
Defined.

(** X10. A reference into the anchor directory loses the anchor:
    [(/src/X/X/c1/.../cn)] becomes [(c1/.../cn)], and [(/src/X/X)]
    itself becomes [(.)]. *)
Theorem reference_below_anchor (cwd : text) (cs : list text) :
  isabs cwd = true ->
  Forall plain cs ->
  replace_path cwd ([open_paren] ++ sep
                    ++ Str.join sep (map txt ["src"; "X"; "X"]%string ++ cs)
                    ++ [close_paren])
  = Ok ([open_paren]
        ++ (match cs with [] => curdir | _ => Str.join sep cs end)
        ++ [close_paren]).
Proof.
  intros Habs Hcs.
  rewrite replace_path_plain_reference.
  - rewrite <- (app_nil_r (map txt ["src"; "X"; "X"]%string)) at 1.
    rewrite rel_list_app. unfold rel_list.
    cbn [commonprefix length repeat Nat.sub app]. rewrite drop_0.
    destruct cs; reflexivity.
  - exact Habs.
  - apply Forall_app. split; [compute_done|exact Hcs].
Qed.

Lemma reference_below_anchor_witness :
  replace_path demo_cwd ([open_paren] ++ sep
                    ++ Str.join sep (map txt ["src"; "X"; "X"]%string
                                     ++ map txt ["lib"; "I.sol"; "interface.I.md"]%string)
                    ++ [close_paren])
  = Ok ([open_paren]
        ++ (match map txt ["lib"; "I.sol"; "interface.I.md"]%string with
            | [] => curdir
            | _ => Str.join sep (map txt ["lib"; "I.sol"; "interface.I.md"]%string)
            end)
        ++ [close_paren]).
Proof.
  apply (reference_below_anchor demo_cwd (map txt ["lib"; "I.sol"; "interface.I.md"]%string));
    compute_done.
Defined.

(** ** [process_md_file] *)

(** X12. Whatever happens to the file it is called on,
    [process_md_file] leaves alone every path that does not meet its
    own: a path that does not lead to the same file, as another
    spelling, a hard link or a symbolic link would, and does not go
    through the directory entry of the path. *)
Theorem other_files_untouched (cwd p q : text) (w w' : world) (r : result unit) :
  process_md_file cwd p w = (r, w') -> apart w p q = true ->
  files w' !! q = files w !! q.
Proof.
  intros Hrun Hq. exact (process_frame cwd w w w' p q r (later_refl w) Hq Hrun).
Qed.

Lemma other_files_untouched_witness :
  files (snd (process_md_file demo_cwd (txt "docs/sub/child.md") demo_world_links))
    !! txt "docs/notes.md"
  = files demo_world_links !! txt "docs/notes.md".
Proof.
  apply (other_files_untouched demo_cwd (txt "docs/sub/child.md") (txt "docs/notes.md")
           demo_world_links
           (snd (process_md_file demo_cwd (txt "docs/sub/child.md") demo_world_links))
           (fst (process_md_file demo_cwd (txt "docs/sub/child.md") demo_world_links)));
    compute_done.
Defined.

(** Paths that meet: the rewrite of [docs/sub/child.md] shows at its
    hard link, and when [docs/README.md] is removed the symbolic link
    to it leads nowhere. *)
Example links_show_what_is_done :
  let w1 := snd (process_md_file demo_cwd (txt "docs/sub/child.md") demo_world_links) in
  let w2 := snd (process_md_file demo_cwd (txt "docs/README.md") demo_world_links) in
  apart demo_world_links (txt "docs/sub/child.md") (txt "docs/sub/copy.md") = false
  /\ contents <$> files w1 !! txt "docs/sub/copy.md"
     = Some (txt "**Inherits:**" ++ [nl] ++ txt "[B](../Y/b.md)" ++ [nl])
  /\ apart demo_world_links (txt "docs/README.md") (txt "docs/sub/link.md") = false
  /\ contents <$> files demo_world_links !! txt "docs/sub/link.md"
     = Some (txt "index" ++ [nl])
  /\ files w2 !! txt "docs/sub/link.md" = None.
Proof. repeat split; compute_done. Qed.

(** X13. However [process_md_file] ends, what it did is the beginning
    of what a call that nothing stops does: the lines of the rewriting,
    the write, the message, and for a name to delete the removal and
    its message.  So a file is removed only after its rewritten text
    was written, and as long as the removal did not take place the path
    shows a file. *)
Theorem process_md_file_steps (cwd p : text) (w w' : world) (r : result unit) (f : file) :
  process_md_file cwd p w = (r, w') ->
  files w !! p = Some f ->
  exists c' evs more,
    modify_inherits cwd (contents f) = Ok c'
    /\ trace w' = trace w ++ evs
    /\ full_run cwd p (contents f) c' = evs ++ more
    /\ (r = Ok tt -> more = [])
    /\ (EvRemove p ∉ evs -> exists f', files w' !! p = Some f').
Proof.
  intros Hrun Hf.
  destruct (process_reach cwd p w w' r Hrun) as (evs & Hreach & _ & Hevs).
  destruct (Hevs f Hf) as (c' & more & Hc & Hfull & Hmore).
  exists c', evs, more. split; [exact Hc|].
  split; [exact (reach_trace p w w' evs Hreach)|].
  split; [exact Hfull|]. split; [exact Hmore|].
  intros Hno. apply (reach_kept p w w' evs p Hreach Hno).
  rewrite Hf. eexists. reflexivity.
Qed.

Lemma process_md_file_steps_witness :
  let p := txt "docs/README.md" in
  let f := plain_file (txt "index" ++ [nl]) in
  let w' := snd (process_md_file demo_cwd p demo_world_sealed) in
  exists c' evs more,
    modify_inherits demo_cwd (contents f) = Ok c'
    /\ trace w' = trace demo_world_sealed ++ evs
    /\ full_run demo_cwd p (contents f) c' = evs ++ more
    /\ (Raise (PermissionError p) = Ok tt -> more = [])
    /\ (EvRemove p ∉ evs -> exists f', files w' !! p = Some f').
Proof.
  apply (process_md_file_steps demo_cwd (txt "docs/README.md") demo_world_sealed
           (snd (process_md_file demo_cwd (txt "docs/README.md") demo_world_sealed))
           (Raise (PermissionError (txt "docs/README.md")))
           (plain_file (txt "index" ++ [nl]))); compute_done.
Defined.

(** X14. When [process_md_file] returns, the file could be read and
    written; it now holds the rewritten text, or is gone when its name
    says so; and the events are, in this order: the lines of the
    rewriting, the write, the message, and for a file to delete the
    removal and its message.  A removal always follows the write of the
    same file. *)
Theorem process_md_file_done (cwd p : text) (w w' : world) :
  process_md_file cwd p w = (Ok tt, w') ->
  exists f c',
    files w !! p = Some f /\ readable f = true /\ writable f = true
    /\ modify_inherits cwd (contents f) = Ok c'
    /\ files w' !! p
       = (if deleted_name p then None
          else Some {| contents := c'; readable := true; writable := true |})
    /\ trace w'
       = trace w ++ map EvPrint (modify_inherits_output cwd (contents f))
         ++ [EvWrite p c'; EvPrint (txt "File modified: " ++ p)]
         ++ (if deleted_name p
             then [EvRemove p; EvPrint (txt "Deleted file: " ++ p)]
             else []).
Proof.
  intros Hrun.
  destruct (process_done cwd p w w' Hrun)
    as (f & c' & Hf & Hr & Hw & Hc & Hfile & Htrace & _).
  exists f, c'. repeat split; assumption.
Qed.

Lemma process_md_file_done_witness :
  let p := txt "docs/sub/child.md" in
  let w' := snd (process_md_file demo_cwd p demo_world) in
  exists f c',
    files demo_world !! p = Some f /\ readable f = true /\ writable f = true
    /\ modify_inherits demo_cwd (contents f) = Ok c'
    /\ files w' !! p
       = (if deleted_name p then None
          else Some {| contents := c'; readable := true; writable := true |})
    /\ trace w'
       = trace demo_world ++ map EvPrint (modify_inherits_output demo_cwd (contents f))
         ++ [EvWrite p c'; EvPrint (txt "File modified: " ++ p)]
         ++ (if deleted_name p
             then [EvRemove p; EvPrint (txt "Deleted file: " ++ p)]
             else []).
Proof.
  apply (process_md_file_done demo_cwd (txt "docs/sub/child.md") demo_world).
  reflexivity.
Defined.

(** X18. Whether a file is deleted depends on its own name alone, put
    in lower case: the names of the directories on its path do not
    count. *)
Theorem deletion_by_base_name (root file : text) :
  name_ok file = true ->
  deleted_name (OsPath.join root file)
  = bool_decide (Str.lower file ∈ delete_names).
Proof.
  intros Hok. unfold name_ok in Hok. apply andb_true_iff in Hok as [_ Hno].
  apply negb_true_iff, bool_decide_eq_false in Hno.
  unfold deleted_name. rewrite basename_join by exact Hno. reflexivity.
Qed.

Lemma deletion_by_base_name_witness :
  deleted_name (OsPath.join (txt "docs/README.md") (txt "notes.md"))
  = bool_decide (Str.lower (txt "notes.md") ∈ delete_names).
Proof.
  apply (deletion_by_base_name (txt "docs/README.md") (txt "notes.md")).
  reflexivity.
Defined.

(** ** [process_all_md_files] *)



(** X16. However the batch ends, a path that meets none of the paths it
    hands to [process_md_file], such as a file of its own whose name
    does not end with [.md], shows what it showed. *)
Theorem batch_leaves_other_paths (cwd directory : text) (t : dirtree) (w w' : world)
        (r : result unit) (q : text) :
  process_all_md_files cwd directory t w = (r, w') ->
  forallb (fun p => apart w p q) (md_paths directory t) = true ->
  files w' !! q = files w !! q.
Proof.
  intros Hrun Hq. rewrite process_all_md_paths in Hrun.
  exact (for_frame cwd _ w w w' r q (later_refl w) Hq Hrun).
Qed.

Lemma batch_leaves_other_paths_witness :
  files (snd (process_all_md_files demo_cwd (txt "docs") demo_tree demo_world_unreadable))
    !! txt "docs/summary.MD"
  = files demo_world_unreadable !! txt "docs/summary.MD".
Proof.
  apply (batch_leaves_other_paths demo_cwd (txt "docs") demo_tree demo_world_unreadable
           (snd (process_all_md_files demo_cwd (txt "docs") demo_tree demo_world_unreadable))
           (fst (process_all_md_files demo_cwd (txt "docs") demo_tree demo_world_unreadable)));
    compute_done.
Defined.



(** ** The paths of the walk *)
Section WalkPaths.

Lemma dirtree_ind' (P : dirtree -> Prop) :
  (forall fnames subdirs, Forall (fun d => P (snd d)) subdirs -> P (Dir fnames subdirs)) ->
  (forall why, P (Unwalked why)) ->
  forall t, P t.
Proof.
  intros H Hu. fix IH 1. intros [fnames subdirs|why]; [|apply Hu]. apply H.
  induction subdirs as [|[n d] l IHl]; constructor; [apply IH|exact IHl].
Qed.

Lemma name_ok_no_slash (n : text) : name_ok n = true -> slash ∉ n.
Proof.
  unfold name_ok. intros H. apply andb_true_iff in H as [_ H].
  apply negb_true_iff, bool_decide_eq_false in H. exact H.
Qed.

Lemma join_prefix (top n : text) :
  name_ok n = true -> exists s, OsPath.join top n = top ++ s.
Proof.
  intros Hn. pose proof (isabs_no_slash n (name_ok_no_slash n Hn)) as Habs.
  unfold OsPath.join. unfold isabs in Habs. rewrite Habs.
  destruct (_ || _); eexists; reflexivity.
Qed.

Lemma startswith_join (top n : text) :
  name_ok n = true -> Str.startswith (OsPath.join top n) top = true.
Proof. intros Hn. destruct (join_prefix top n Hn) as [s ->]. apply startswith_app. Qed.

Lemma startswith_trans (a b c : text) :
  Str.startswith b a = true -> Str.startswith c b = true -> Str.startswith c a = true.
Proof.
  intros Hab Hbc. apply startswith_inv in Hab, Hbc.
  rewrite Hbc, Hab, <- app_assoc. apply startswith_app.
Qed.

Lemma startswith_refl (a : text) : Str.startswith a a = true.
Proof. rewrite <- (app_nil_r a) at 1. apply startswith_app. Qed.

Lemma endswith_app (c s x : text) :
  Str.endswith s x = true -> Str.endswith (c ++ s) x = true.
Proof.
  unfold Str.endswith. intros H. apply startswith_inv in H.
  rewrite rev_app_distr, H, <- app_assoc. apply startswith_app.
Qed.

(** Every directory the walk yields lies below its top, and the file
    names it lists are names of the tree. *)
Lemma os_walk_roots (t : dirtree) :
  forall top root dirs fnames,
    names_ok t = true ->
    (root, dirs, fnames) ∈ os_walk top t ->
    Str.startswith root top = true /\ forallb name_ok fnames = true.
Proof.
  induction t as [fs subdirs IH|why] using dirtree_ind';
    [|intros top root dirs fnames _ Hin; cbn [os_walk] in Hin; inversion Hin].
  intros top root dirs fnames Hok Hin. cbn [names_ok] in Hok.
  apply andb_true_iff in Hok as [Hfs Hsub].
  cbn [os_walk] in Hin. apply elem_of_cons in Hin as [Heq|Hin].
  - injection Heq as -> _ ->. split; [apply startswith_refl|exact Hfs].
  - apply list_elem_of_In, in_flat_map in Hin as ([n d] & Hd & Hin).
    rewrite forallb_forall in Hsub. specialize (Hsub _ Hd). simpl in Hsub.
    apply andb_true_iff in Hsub as [Hn Hdok].
    rewrite Forall_forall in IH. apply list_elem_of_In in Hd.
    destruct (IH _ Hd (OsPath.join top n) root dirs fnames Hdok) as [Hroot Hnames].
    + apply list_elem_of_In. exact Hin.
    + split; [|exact Hnames].
      apply (startswith_trans top (OsPath.join top n) root); [|exact Hroot].
      apply startswith_join, Hn.
Qed.

Lemma md_paths_under (directory : text) (t : dirtree) (p : text) :
  names_ok t = true -> p ∈ md_paths directory t ->
  Str.startswith p directory = true /\ Str.endswith p (txt ".md") = true.
Proof.
  intros Hok Hp. unfold md_paths in Hp.
  apply list_elem_of_In, in_flat_map in Hp as ([[root dirs] fnames] & Hwalk & Hp).
  apply list_elem_of_In, list_elem_of_fmap in Hp as (file & -> & Hfile).
  apply list_elem_of_filter in Hfile as [Hmd Hfile].
  apply list_elem_of_In in Hwalk.
  destruct (os_walk_roots t directory root dirs fnames Hok Hwalk) as [Hroot Hnames].
  rewrite forallb_forall in Hnames.
  assert (Hn : name_ok file = true) by (apply Hnames, list_elem_of_In, Hfile).
  split.
  - apply (startswith_trans directory root); [exact Hroot|apply startswith_join, Hn].
  - destruct (join_name root file (name_ok_no_slash file Hn)) as (c' & -> & _).
    apply endswith_app, Hmd.
Qed.

End WalkPaths.

(** X17. Every path the batch hands to [process_md_file] begins with the
    directory it was started on and ends with [.md], for a tree whose
    names are names of directory entries. *)
Theorem processed_paths_under_directory (directory : text) (t : dirtree) (p : text) :
  names_ok t = true ->
  p ∈ md_paths directory t ->
  Str.startswith p directory = true /\ Str.endswith p (txt ".md") = true.
Proof. intros Hok Hp. apply (md_paths_under directory t p Hok Hp). Qed.

Lemma processed_paths_under_directory_witness :
  Str.startswith (txt "docs/sub/child.md") (txt "docs") = true
  /\ Str.endswith (txt "docs/sub/child.md") (txt ".md") = true.
Proof.
  apply (processed_paths_under_directory (txt "docs") demo_tree (txt "docs/sub/child.md"));
    compute_done.
Defined.

(** ** The entry point *)
Section EntryPoint.
Variable cwd : text.

Lemma main_run (t : dirtree) (w w' : world) (r : result unit) :
  main cwd t w = (r, w') ->
  exists r1 w1 evs,
    process_all_md_files cwd directory_path t w = (r1, w1)
    /\ trace w' = trace w1 ++ evs
    /\ Forall (fun e => event_path e = None) evs.
Proof.
  unfold main. intros H.
  apply bind_inv in H as [([] & w1 & Hrun & H)|(e & Hrun & _)].
  - apply print_inv in H as [(_ & -> & _)|(e & _ & ->)].
    + exists (Ok tt), w1, [EvPrint (txt "All Markdown files in the directory processed.")].
      split; [exact Hrun|]. split; [reflexivity|]. repeat constructor.
    + exists (Ok tt), w1, []. split; [exact Hrun|].
      split; [symmetry; apply app_nil_r|constructor].
  - exists (Raise e), w', []. split; [exact Hrun|].
    split; [symmetry; apply app_nil_r|constructor].
Qed.

End EntryPoint.

(** X19. Run from its entry point, on a tree whose names are names of
    directory entries, the script writes and removes only through paths
    that begin with [../docs/docs/contracts/src] and end with [.md],
    whether it ends with an exception or not.  Where such a path leads
    is another matter: a symbolic link below the directory can lead to a
    file outside it. *)
Theorem main_stays_below_root (cwd : text) (t : dirtree) (w w' : world) (r : result unit) :
  names_ok t = true ->
  main cwd t w = (r, w') ->
  exists evs,
    trace w' = trace w ++ evs
    /\ forall e q, e ∈ evs -> event_path e = Some q ->
         Str.startswith q directory_path = true /\ Str.endswith q (txt ".md") = true.
Proof.
  intros Hok Hmain.
  destruct (main_run cwd t w w' r Hmain) as (r1 & w1 & ev2 & Hrun & Htrace & Hev2).
  rewrite process_all_md_paths in Hrun.
  destruct (for_process_trace cwd _ w w1 r1 Hrun) as (ev1 & Ht1 & Hev1).
  exists (ev1 ++ ev2). split; [rewrite Htrace, Ht1, app_assoc; reflexivity|].
  intros e q He Hq. apply elem_of_app in He as [He|He].
  - rewrite Forall_forall in Hev1.
    apply (md_paths_under directory_path t q Hok). apply (Hev1 e He q Hq).
  - rewrite Forall_forall in Hev2. rewrite (Hev2 e He) in Hq. discriminate.
Qed.

Lemma main_stays_below_root_witness :
  let w' := snd (main demo_cwd demo_tree demo_main_world) in
  exists evs,
    trace w' = trace demo_main_world ++ evs
    /\ forall e q, e ∈ evs -> event_path e = Some q ->
         Str.startswith q directory_path = true /\ Str.endswith q (txt ".md") = true.
Proof.
  apply (main_stays_below_root demo_cwd demo_tree demo_main_world
           (snd (main demo_cwd demo_tree demo_main_world))
           (fst (main demo_cwd demo_tree demo_main_world))); compute_done.
Defined.

(** The entry point on the small tree: it ends without exception, the
    last event is the closing message, and [README.md] is gone. *)
Example main_on_demo :
  let run := main demo_cwd demo_tree demo_main_world in
  fst run = Ok tt
  /\ last (trace (snd run))
     = Some (EvPrint (txt "All Markdown files in the directory processed."))
  /\ files (snd run) !! txt "../docs/docs/contracts/src/README.md" = None
  /\ contents <$> files (snd run) !! txt "../docs/docs/contracts/src/sub/child.md"
     = Some (txt "**Inherits:**" ++ [nl] ++ txt "[B](../Y/b.md)" ++ [nl]).
Proof. repeat split; compute_done. Qed.

(** ** Each file once *)
Section EachFileOnce.








End EachFileOnce.



